(** * ColdFront project views and user utilities

    Shallow embedding of [coldfront/core/project/views.py]:
    [ProjectExportView.test_func], [ProjectExportView.dispatch] with its
    helper [_get_resource_query], [ProjectMergeView.post] with
    [archive_project], [ProjectArchiveProjectView.post],
    [ProjectImportView.post] and [project_update_email_notification]; and of
    [coldfront/core/user/utils.py]: [UserSearch], [LocalUserSearch],
    [CombinedUserSearch] and [InferUsernameFromEmail].

    Database tables are lists of rows, QuerySets are the lists they evaluate
    to (the database does not change while a QuerySet of the export view is
    alive), Python sets of ids are [gset Z], Python dictionaries are [gmap]s
    or, where iteration order matters, association lists. *)

From Stdlib Require Import ZArith Ascii String DecimalString DecimalN DecimalPos DecimalFacts.
From stdpp Require Import gmap strings list fin_maps fin_sets sorting.

Local Open Scope string_scope.
Local Open Scope list_scope.
Local Open Scope Z_scope.

(** ** Outcomes of code that may raise *)

Inductive exn :=
  | Http404
  | KeyError_translation        (* [trans_tbl[from_name][index]] misses *)
  | KeyError_m2m_data           (* [des_obj.m2m_data[m2m_name]] misses *)
  | KeyError_model_to_dict      (* [cur_vals[key]] / [new_vals[key]] misses *)
  | KeyError_registration       (* a lookup in [do_regist_tbl] misses *)
  | KeyError_do_dict            (* [do_dict['project.project']] misses *)
  | AttributeError
  | TypeError
  | IndexError
  | IntegrityError.

Inductive outcome (A : Type) :=
  | Return (a : A)
  | Raise (e : exn).
Arguments Return {A} a.
Arguments Raise {A} e.

#[global] Instance outcome_ret : MRet outcome := λ A a, Return a.
#[global] Instance outcome_bind : MBind outcome := λ A B k m,
  match m with
  | Return a => k a
  | Raise e => Raise e
  end.

(** Python's [for x in xs: st = body(st, x)] where the body may raise. *)
Fixpoint for_each {A S} (body : S → A → outcome S) (xs : list A) (st : S)
  : outcome S :=
  match xs with
  | [] => Return st
  | x :: xs' => st' ← body st x; for_each body xs' st'
  end.

(** ** The export view *)

Module ProjectExport.

(** Rows carry the columns the export view reads. *)
Record User := { user_id : Z; is_superuser : bool }.
Record UserProfile := { userprofile_id : Z; userprofile_user_id : Z }.
Record Group := { group_id : Z }.
Record Project := {
  project_id : Z;
  project_pi : Z;               (* pi_id *)
  project_status : string       (* status.name *)
}.
Record ProjectUser := {
  projectuser_id : Z;
  projectuser_project_id : Z;
  projectuser_user_id : Z;
  projectuser_role : string;    (* role.name *)
  projectuser_status : string   (* status.name *)
}.
Record Resource := {
  resource_id : Z;
  parent_resource : option Z;   (* parent_resource_id, nullable *)
  linked_resources : list Z;    (* rows of the self many-to-many table *)
  allowed_users : list Z;
  allowed_groups : list Z
}.
Record Allocation := {
  allocation_id : Z;
  allocation_project_id : Z;
  allocation_resources : list Z (* many-to-many to Resource *)
}.
(** AllocationUser, AllocationAttribute, AllocationChangeRequest *)
Record AllocationChild := { ac_id : Z; ac_allocation_id : Z }.
(** AllocationAdminNote, AllocationUserNote *)
Record AllocationNote := {
  note_id : Z; note_allocation_id : Z; note_author_id : Z
}.
(** Publication, Grant, ProjectAdminComment, ProjectUserMessage,
    ProjectReview, ResearchOutput *)
Record ProjectChild := { pc_id : Z; pc_project_id : Z }.

Record DB := {
  users : list User;
  userprofiles : list UserProfile;
  groups : list Group;
  projects : list Project;
  projectusers : list ProjectUser;
  resources : list Resource;
  allocations : list Allocation;
  allocationusers : list AllocationChild;
  allocationattributes : list AllocationChild;
  allocationchangerequests : list AllocationChild;
  allocationadminnotes : list AllocationNote;
  allocationusernotes : list AllocationNote;
  publications : list ProjectChild;
  grants : list ProjectChild;
  projectadmincomments : list ProjectChild;
  projectusermessages : list ProjectChild;
  projectreviews : list ProjectChild;
  researchoutputs : list ProjectChild
}.

(** [get_object_or_404(Project, pk=pk)] *)
Definition get_object_or_404 (db : DB) (pk : Z) : outcome Project :=
  match filter (λ p, project_id p = pk) (projects db) with
  | p :: _ => Return p
  | [] => Raise Http404
  end.

(** [project_obj.projectuser_set.filter(user=..., role__name='Manager',
    status__name='Active')] *)
Definition manager_rows (db : DB) (project_obj : Project) (user : User)
  : list ProjectUser :=
  filter (λ pu, projectuser_project_id pu = project_id project_obj
                ∧ projectuser_user_id pu = user_id user
                ∧ projectuser_role pu = "Manager"
                ∧ projectuser_status pu = "Active")
         (projectusers db).

(** [.exists()] *)
Definition exists_ {A} (q : list A) : bool :=
  match q with [] => false | _ :: _ => true end.

(** [ProjectExportView.test_func]: a function that falls off its end
    returns [None]. Model instances compare equal when their primary keys
    do. *)
Definition test_func (db : DB) (user : User) (pk : Z) : outcome (option bool) :=
  if is_superuser user then Return (Some true) else
  project_obj ← get_object_or_404 db pk;
  if bool_decide (project_pi project_obj = user_id user) then Return (Some true) else
  if exists_ (manager_rows db project_obj user) then Return (Some true) else
  Return None.

(** [UserPassesTestMixin] lets the request through when [test_func] returns
    a true value. *)
Definition grants_access (r : outcome (option bool)) : Prop :=
  r = Return (Some true).

(** *** [ProjectExportView.dispatch] *)

(** [qs.values_list('id', flat=True)] *)
Definition resource_ids (qs : list Resource) : list Z := resource_id <$> qs.

(** The ids of all rows of the resource table. *)
Definition all_resource_ids (db : DB) : gset Z :=
  list_to_set (resource_ids (resources db)).

(** [Resource.objects.filter(allocation__in=proj_alloc).distinct()] *)
Definition resources_of_allocations (db : DB) (proj_alloc : list Allocation)
  : list Resource :=
  filter (λ r, Exists (λ a, resource_id r ∈ allocation_resources a) proj_alloc)
         (resources db).

(** [resource.linked_resources.all()]: the many-to-many table joined with
    the resource table. *)
Definition linked_resources_all (db : DB) (resource : Resource) : list Resource :=
  filter (λ r, resource_id r ∈ linked_resources resource) (resources db).

(** The lookup [parent_resource__in=all_ids] on one row: its
    [parent_resource_id] column is one of [all_ids]. *)
Definition parent_resource__in (all_ids : gset Z) (r : Resource) : Prop :=
  match parent_resource r with
  | Some p => p ∈ all_ids
  | None => False
  end.

#[global] Instance parent_resource__in_dec all_ids r :
  Decision (parent_resource__in all_ids r).
Proof. unfold parent_resource__in. destruct (parent_resource r); apply _. Defined.

(** [Resource.objects.filter(parent_resource__in=all_ids)] *)
Definition parent_resource_in (db : DB) (all_ids : gset Z) : list Resource :=
  filter (parent_resource__in all_ids) (resources db).

(** [Resource.objects.filter(pk__in=all_ids)] *)
Definition resource_pk_in (db : DB) (all_ids : gset Z) : list Resource :=
  filter (λ r, resource_id r ∈ all_ids) (resources db).

(** Body of [for resource in resource_query]; the value of [resource_query]
    it leaves behind is [resource_pk_in db all_ids] for the [all_ids] it
    returns. *)
Definition for_body (db : DB) (all_ids : gset Z) (resource : Resource) : gset Z :=
  let other_linked_ids : gset Z :=
    list_to_set (resource_ids (linked_resources_all db resource)) in
  let all_ids := all_ids ∪ other_linked_ids in
  let parent_resources := parent_resource_in db all_ids in
  let all_ids := all_ids ∪ list_to_set (resource_ids parent_resources) in
  all_ids.

(** The [while old_resource_set != all_ids] loop. The [for] statement
    iterates the QuerySet bound to [resource_query] when it starts; the name
    is rebound in the body only, so a [for] over an empty QuerySet leaves it
    as it was. [None] stands for a run that needs more iterations than
    [fuel]. *)
Fixpoint while_loop (fuel : nat) (db : DB) (resource_query : list Resource)
    (old_resource_set all_ids : gset Z) : option (list Resource) :=
  if decide (old_resource_set = all_ids) then Some resource_query else
  match fuel with
  | O => None
  | S fuel =>
      let old_resource_set := all_ids in
      let all_ids := foldl (for_body db) all_ids resource_query in
      let resource_query :=
        match resource_query with
        | [] => resource_query
        | _ :: _ => resource_pk_in db all_ids
        end in
      while_loop fuel db resource_query old_resource_set all_ids
  end.

(** The measure that decreases with every pass: the resource ids not yet
    selected, plus one while the exit test has not succeeded. *)
Definition passes_left (db : DB) (old_resource_set all_ids : gset Z) : nat :=
  (size (all_resource_ids db ∖ all_ids)
   + (if decide (old_resource_set = all_ids) then 0 else 1))%nat.

(** [all_ids] is closed under what the loop follows: the linked resources of
    the selected rows, and the rows whose parent is selected. *)
Definition closed (db : DB) (all_ids : gset Z) : Prop :=
  (∀ r x, r ∈ resources db → resource_id r ∈ all_ids →
          x ∈ linked_resources_all db r → resource_id x ∈ all_ids)
  ∧ (∀ x, x ∈ parent_resource_in db all_ids → resource_id x ∈ all_ids).

(** [q] holds exactly the rows whose id is in [all_ids]. *)
Definition selects (db : DB) (q : list Resource) (all_ids : gset Z) : Prop :=
  all_ids ⊆ all_resource_ids db
  ∧ ∀ r, r ∈ q ↔ r ∈ resources db ∧ resource_id r ∈ all_ids.

Definition _get_resource_query_fuel (fuel : nat) (db : DB)
    (proj_alloc : list Allocation) : option (list Resource) :=
  let resource_query := resources_of_allocations db proj_alloc in
  let old_resource_set : gset Z := ∅ in
  let all_ids : gset Z := list_to_set (resource_ids resource_query) in
  while_loop fuel db resource_query old_resource_set all_ids.

(** Every pass of the loop but the last one adds a resource id, so two more
    passes than there are resources always suffice (theorem
    [get_resource_query_terminates]). *)
Definition _get_resource_query (db : DB) (proj_alloc : list Allocation)
  : option (list Resource) :=
  _get_resource_query_fuel (S (S (length (resources db)))) db proj_alloc.

(** The eighteen serialized QuerySets of [serialized_data], in order. *)
Record Document := {
  doc_project : list Project;
  doc_users : list User;
  doc_userprofiles : list UserProfile;
  doc_groups : list Group;
  doc_projectusers : list ProjectUser;
  doc_publications : list ProjectChild;
  doc_grants : list ProjectChild;
  doc_resources : list Resource;
  doc_allocations : list Allocation;
  doc_allocationusers : list AllocationChild;
  doc_allocationattributes : list AllocationChild;
  doc_allocationchangerequests : list AllocationChild;
  doc_allocationadminnotes : list AllocationNote;
  doc_allocationusernotes : list AllocationNote;
  doc_projectadmincomments : list ProjectChild;
  doc_projectusermessages : list ProjectChild;
  doc_projectreviews : list ProjectChild;
  doc_researchoutputs : list ProjectChild
}.

Inductive Response :=
  | HttpResponseRedirect (url : string) (error_message : string)
  | JsonResponse (serialized_data : Document).

(** [X.objects.filter(allocation__in=proj_alloc)] *)
Definition allocation_in {A} (allocation_of : A → Z) (proj_alloc : list Allocation)
    (rows : list A) : list A :=
  filter (λ x, allocation_of x ∈ allocation_id <$> proj_alloc) rows.

(** [X.objects.filter(project_id=p_id)] *)
Definition project_id_is {A} (project_of : A → Z) (p_id : Z) (rows : list A)
  : list A :=
  filter (λ x, project_of x = p_id) rows.

(** [ProjectExportView.dispatch]. [values_list] of a many-to-many column
    yields [None] for a resource without entries; [pk__in] never matches
    [None], so the id sets below leave it out. The outer [option] is [None]
    only if [_get_resource_query] runs out of fuel. *)
Definition dispatch (db : DB) (p_id : Z) : option (outcome Response) :=
  match get_object_or_404 db p_id with
  | Raise e => Some (Raise e)
  | Return project_obj =>
    if bool_decide (project_status project_obj ∉ ["Active"; "New"]) then
      Some (Return (HttpResponseRedirect "project-detail"
                      "You cannot export an archived project."))
    else
      let proj_users := project_id_is projectuser_project_id p_id (projectusers db) in
      let proj_alloc := project_id_is allocation_project_id p_id (allocations db) in
      let alloc_users := allocation_in ac_allocation_id proj_alloc (allocationusers db) in
      proj_resources ← _get_resource_query db proj_alloc;
      let resource_user_ids : gset Z :=
        list_to_set (concat (allowed_users <$> proj_resources)) in
      let resource_group_ids : gset Z :=
        list_to_set (concat (allowed_groups <$> proj_resources)) in
      let alloc_attrs :=
        allocation_in ac_allocation_id proj_alloc (allocationattributes db) in
      let alloc_change_request :=
        allocation_in ac_allocation_id proj_alloc (allocationchangerequests db) in
      let alloc_admin_notes :=
        allocation_in note_allocation_id proj_alloc (allocationadminnotes db) in
      let alloc_user_notes :=
        allocation_in note_allocation_id proj_alloc (allocationusernotes db) in
      let user_ids : gset Z :=
        list_to_set ((projectuser_user_id <$> proj_users)
                     ++ elements resource_user_ids
                     ++ (note_author_id <$> alloc_admin_notes)
                     ++ (note_author_id <$> alloc_user_notes)) in
      Some (Return (JsonResponse {|
        doc_project := filter (λ p, project_id p = p_id) (projects db);
        doc_users := filter (λ u, user_id u ∈ user_ids) (users db);
        doc_userprofiles :=
          filter (λ up, userprofile_user_id up ∈ user_ids) (userprofiles db);
        doc_groups := filter (λ g, group_id g ∈ resource_group_ids) (groups db);
        doc_projectusers := proj_users;
        doc_publications := project_id_is pc_project_id p_id (publications db);
        doc_grants := project_id_is pc_project_id p_id (grants db);
        doc_resources := proj_resources;
        doc_allocations := proj_alloc;
        doc_allocationusers := alloc_users;
        doc_allocationattributes := alloc_attrs;
        doc_allocationchangerequests := alloc_change_request;
        doc_allocationadminnotes := alloc_admin_notes;
        doc_allocationusernotes := alloc_user_notes;
        doc_projectadmincomments :=
          project_id_is pc_project_id p_id (projectadmincomments db);
        doc_projectusermessages :=
          project_id_is pc_project_id p_id (projectusermessages db);
        doc_projectreviews := project_id_is pc_project_id p_id (projectreviews db);
        doc_researchoutputs := project_id_is pc_project_id p_id (researchoutputs db)
      |}))
  end.

End ProjectExport.

Module ExportExamples.
Import ProjectExport.

(** A cluster with one partition under it; the project's only allocation is
    on the partition. *)
Definition cluster : Resource :=
  {| resource_id := 1; parent_resource := None; linked_resources := [];
     allowed_users := []; allowed_groups := [] |}.

Definition partition : Resource :=
  {| resource_id := 2; parent_resource := Some 1; linked_resources := [];
     allowed_users := []; allowed_groups := [] |}.

Definition allocation_1 : Allocation :=
  {| allocation_id := 1; allocation_project_id := 1;
     allocation_resources := [2] |}.

Definition project_1 : Project :=
  {| project_id := 1; project_pi := 1; project_status := "Active" |}.

Definition db : DB :=
  {| users := []; userprofiles := []; groups := [];
     projects := [project_1]; projectusers := [];
     resources := [cluster; partition];
     allocations := [allocation_1];
     allocationusers := []; allocationattributes := [];
     allocationchangerequests := [];
     allocationadminnotes := []; allocationusernotes := [];
     publications := []; grants := []; projectadmincomments := [];
     projectusermessages := []; projectreviews := []; researchoutputs := [] |}.

End ExportExamples.

(** ** The merge view *)

Module ProjectMerge.

(** The models [ProjectMergeView.post] hands to [_combine_objects]: each has
    a [project_id] column. *)
Inductive model :=
  | Grant | Publication | ProjectUser | Allocation
  | ProjectAdminComment | ProjectUserMessage | ProjectReview | ResearchOutput.

#[global] Instance model_eq_dec : EqDecision model.
Proof. solve_decision. Defined.

(** A row of one of these tables, with the columns the merge reads or
    writes; [row_status] (status.name) and [row_end_date] matter for
    allocations only. *)
Record Row := {
  row_pk : Z;
  row_project_id : Z;
  row_status : string;
  row_end_date : option Z
}.

Record Project := {
  project_id : Z;
  project_pi : Z;
  project_status : string;      (* status.name *)
  project_title : string;
  project_description : string
}.

Record DB := {
  projects : list Project;
  table : model → list Row      (* [Model.objects.all()] *)
}.

Definition set_table (m : model) (rows : list Row) (db : DB) : DB :=
  {| projects := projects db;
     table := λ m', if decide (m' = m) then rows else table db m' |}.

(** [row.save()] of a row that carries a primary key: UPDATE the stored row
    with that key, INSERT when there is none. *)
Fixpoint upsert_by {A} (key : A → Z) (row : A) (rows : list A) : list A :=
  match rows with
  | [] => [row]
  | r :: rows' =>
      if decide (key r = key row) then row :: rows'
      else r :: upsert_by key row rows'
  end.

Definition upsert : Row → list Row → list Row := upsert_by row_pk.

(** [row.delete()] *)
Definition delete_pk (pk : Z) (rows : list Row) : list Row :=
  filter (λ r, row_pk r ≠ pk) rows.

Definition upsert_project : Project → list Project → list Project :=
  upsert_by project_id.

Definition set_project_id (to_id : Z) (r : Row) : Row :=
  {| row_pk := row_pk r; row_project_id := to_id;
     row_status := row_status r; row_end_date := row_end_date r |}.

Definition set_status_end_date (status : string) (end_date : Z) (r : Row) : Row :=
  {| row_pk := row_pk r; row_project_id := row_project_id r;
     row_status := status; row_end_date := Some end_date |}.

Definition set_project_status (status : string) (p : Project) : Project :=
  {| project_id := project_id p; project_pi := project_pi p;
     project_status := status; project_title := project_title p;
     project_description := project_description p |}.

(** The primary key the database gives a created project: one it has not
    used. *)
Definition next_project_id (db : DB) : Z :=
  1 + foldr Z.max 0 (project_id <$> projects db).




Record Request := {
  request_user : Z;                 (* request.user, by primary key *)
  request_selected : list bool;     (* form['selected'].data, for every form
                                       of the formset *)
  request_title : string;           (* request.POST['title'] *)
  request_description : string      (* request.POST['description'] *)
}.

Section WithConstraints.

(** Whether the database rejects writing [row] into the table of [m] with
    an [IntegrityError] (unique constraints and the like live in the model
    declarations and the database). *)
Variable violates : model → DB → Row → bool.

(** Current time, for [datetime.datetime.now()]. *)
Variable now : Z.

(** One turn of the [for member in members] loop of [_combine_objects]. *)
Definition combine_member (objects : model) (to_id : Z) (db : DB) (member : Row)
  : DB :=
  let member := set_project_id to_id member in
  if violates objects db member then
    (* except IntegrityError: member.delete() *)
    set_table objects (delete_pk (row_pk member) (table db objects)) db
  else
    set_table objects (upsert member (table db objects)) db.

(** [_combine_objects(from_ids, to_id, objects)] *)
Definition _combine_objects (from_ids : list Z) (to_id : Z) (objects : model)
    (db : DB) : DB :=
  let members := filter (λ r, row_project_id r ∈ from_ids) (table db objects) in
  foldl (combine_member objects to_id) db members.

(** [archive_project(project)]. Its saves sit outside any [try]; they are
    taken to succeed. *)
Definition archive_project (project : Project) (db : DB) : DB :=
  let end_date := now in
  let project := set_project_status "Archived" project in
  let db := {| projects := upsert_project project (projects db);
               table := table db |} in
  let allocation_set :=
    filter (λ a, row_project_id a = project_id project ∧ row_status a = "Active")
           (table db Allocation) in
  foldl (λ db allocation,
           let allocation := set_status_end_date "Expired" end_date allocation in
           set_table Allocation (upsert allocation (table db Allocation)) db)
        db allocation_set.

(** [get_proj_list]: the projects whose status is not Archived. *)
Definition get_proj_list (db : DB) : list Project :=
  filter (λ p, project_status p ≠ "Archived") (projects db).

(** [Project.objects.get(id=id)] *)
Definition get_project (db : DB) (id : Z) : option Project :=
  head (filter (λ p, project_id p = id) (projects db)).

(** The [for form in formset] loop. The formset has one form for every
    entry of [selected], the submitted check boxes: as many forms as the
    request declares, which can be more than [proj_list] has projects. Form
    number [i] has [proj_list[i]] as its initial data, and no initial data
    when [proj_list] is that short: there [form.initial['id']] raises
    [KeyError]. The result is [projs_to_merge]; [proj_ids] is the list of
    its ids. [None] stands for a loop that raises: that [KeyError] at a
    ticked form without initial data, or the [DoesNotExist] of a [get] that
    finds no row. *)
Fixpoint selected_projects (db : DB) (proj_list : list Project)
    (selected : list bool) : option (list Project) :=
  match selected with
  | [] => Some []
  | sel :: selected' =>
      if sel then
        match proj_list with
        | initial :: _ =>
            proj ← get_project db (project_id initial);
            rest ← selected_projects db (tail proj_list) selected';
            Some (proj :: rest)
        | [] => None                      (* [KeyError: 'id'] *)
        end
      else selected_projects db (tail proj_list) selected'
  end.

(** [ProjectMergeView.post]; the response is always the redirect to the
    project list, so the result is the new database state, and [None] when
    the loop over the forms raises, which is before anything is written. *)
Definition post (request : Request) (db : DB) : option DB :=
  let proj_list := get_proj_list db in
  projs_to_merge ← selected_projects db proj_list (request_selected request);
  let proj_ids := project_id <$> projs_to_merge in
  match projs_to_merge with
  | [] => Some db
  | first :: _ =>
      let merged_proj := {|
        project_id := next_project_id db;
        project_pi := request_user request;
        project_status := project_status first;
        project_title := request_title request;
        project_description := request_description request |} in
      let db := {| projects := projects db ++ [merged_proj]; table := table db |} in
      let to_id := project_id merged_proj in
      let db := _combine_objects proj_ids to_id Grant db in
      let db := _combine_objects proj_ids to_id Publication db in
      let db := _combine_objects proj_ids to_id ProjectUser db in
      let db := _combine_objects proj_ids to_id Allocation db in
      let db := _combine_objects proj_ids to_id ProjectAdminComment db in
      let db := _combine_objects proj_ids to_id ProjectUserMessage db in
      let db := _combine_objects proj_ids to_id ProjectReview db in
      let db := _combine_objects proj_ids to_id ResearchOutput db in
      Some (foldl (λ db proj, archive_project proj db) db projs_to_merge)
  end.


End WithConstraints.

End ProjectMerge.

Module MergeExamples.
Import ProjectMerge.

(** One active project with one active allocation. *)
Definition allocation_5 : Row :=
  {| row_pk := 5; row_project_id := 1; row_status := "Active";
     row_end_date := None |}.

Definition project_1 : Project :=
  {| project_id := 1; project_pi := 10; project_status := "Active";
     project_title := "old"; project_description := "" |}.

Definition db : DB :=
  {| projects := [project_1];
     table := λ m, match m with Allocation => [allocation_5] | _ => [] end |}.

Definition request : Request :=
  {| request_user := 20; request_selected := [true];
     request_title := "merged"; request_description := "" |}.

(** A database that rejects no write. *)
Definition no_constraints : model → DB → Row → bool := λ _ _ _, false.

End MergeExamples.

(** ** The import view *)

Module ProjectImport.

(** Field values of model instances, compared with Python's [==]. *)
Inductive value :=
  | VNone
  | VInt (z : Z)
  | VStr (s : string).

#[global] Instance value_eq_dec : EqDecision value.
Proof. solve_decision. Defined.

(** A model instance. [model_label] is its class ([type(obj)]), written as
    the serializer writes it ("app.model"); primary keys are the integers of
    Django's [AutoField]; [attrs] holds the other attributes, foreign keys
    under their [_id] names. *)
Record Model := {
  model_label : string;
  pk : Z;
  attrs : gmap string value
}.

(** [django.core.serializers.base.DeserializedObject]: the instance under
    [.object], and the lists of primary keys of its many-to-many fields
    under [.m2m_data]. Stored rows have the same shape. *)
Record DeserializedObject := {
  object : Model;
  m2m_data : gmap string (list Z)
}.

Definition set_pk (new_pk : Z) (obj : DeserializedObject) : DeserializedObject :=
  {| object := {| model_label := model_label (object obj); pk := new_pk;
                  attrs := attrs (object obj) |};
     m2m_data := m2m_data obj |}.

(** [getattr(des_obj.object, field_name)] *)
Definition getattr (des_obj : DeserializedObject) (field_name : string)
  : outcome value :=
  match attrs (object des_obj) !! field_name with
  | Some v => Return v
  | None => Raise AttributeError
  end.

(** [setattr(des_obj.object, field_name, v)] *)
Definition setattr (des_obj : DeserializedObject) (field_name : string) (v : value)
  : DeserializedObject :=
  {| object := {| model_label := model_label (object des_obj);
                  pk := pk (object des_obj);
                  attrs := <[field_name := v]> (attrs (object des_obj)) |};
     m2m_data := m2m_data des_obj |}.

Definition set_m2m (des_obj : DeserializedObject) (m2m_name : string)
    (pks : list Z) : DeserializedObject :=
  {| object := object des_obj;
     m2m_data := <[m2m_name := pks]> (m2m_data des_obj) |}.

(** The database: for each model, its rows in the order [objects.all()]
    yields them. *)
Definition DB := gmap string (list DeserializedObject).

Definition rows (db : DB) (label : string) : list DeserializedObject :=
  default [] (db !! label).

(** [Model.objects.all()] *)
Definition objects_all (db : DB) (label : string) : list Model :=
  object <$> rows db label.

(** Python dictionaries whose iteration order the code relies on
    ([do_dict]): association lists with one entry per key, in insertion
    order. *)
Fixpoint dict_get {V} (k : string) (d : list (string * V)) : option V :=
  match d with
  | [] => None
  | (k', v) :: d' => if decide (k' = k) then Some v else dict_get k d'
  end.

Fixpoint dict_set {V} (k : string) (v : V) (d : list (string * V))
  : list (string * V) :=
  match d with
  | [] => [(k, v)]
  | (k', v') :: d' =>
      if decide (k' = k) then (k, v) :: d' else (k', v') :: dict_set k v d'
  end.

(** One element of [grouped_data]: what [re.search] finds as the model name
    in the member's text, and the objects [serializers.deserialize] yields
    for it. *)
Record member := {
  member_name : option string;
  member_objects : list DeserializedObject
}.

(** Step 1: gather all deserialized objects into [do_dict]. *)
Definition step1 (grouped_data : list member)
  : list (string * list DeserializedObject) :=
  foldl (λ do_dict m,
           match member_name m with
           | Some name => dict_set name (member_objects m) do_dict
           | None => do_dict
           end)
        [] grouped_data.

Definition duplicate_model_keys : list string :=
  ["project.projectuser"; "allocation.allocationuser"].

(** A field of [Model._meta.fields]. *)
Record Field := { name : string; unique : bool }.

(** [trans_tbl[from_name][index]] *)
Definition translate (trans_tbl : gmap string (gmap Z Z)) (from_name : string)
    (index : value) : outcome Z :=
  match trans_tbl !! from_name with
  | None => Raise KeyError_translation
  | Some tbl =>
      match index with
      | VInt i =>
          match tbl !! i with
          | Some new => Return new
          | None => Raise KeyError_translation
          end
      | _ => Raise KeyError_translation
      end
  end.

(** [[f(x) for x in xs]] where [f] may raise. *)
Fixpoint comprehension {A B} (f : A → outcome B) (xs : list A) : outcome (list B) :=
  match xs with
  | [] => Return []
  | x :: xs' => y ← f x; ys ← comprehension f xs'; Return (y :: ys)
  end.

(** An entry of the registration table [do_regist_tbl]: a translated
    many-to-many list ([_register_m2m]) or a field value
    ([_register_field]). *)
Inductive registered :=
  | RegisteredM2M (pks : list Z)
  | RegisteredField (v : value).

Section WithFramework.

(** [django.forms.models.model_to_dict] and [Model._meta.fields]. *)
Variable model_to_dict : Model → gmap string value.
Variable meta_fields : Model → list Field.

(** [cur_vals[key] == new_vals[key]] for the first [key] of [unique_keys]
    where it holds. *)
Fixpoint any_equal (cur_vals new_vals : gmap string value)
    (unique_keys : list string) : outcome bool :=
  match unique_keys with
  | [] => Return false
  | key :: unique_keys' =>
      match cur_vals !! key, new_vals !! key with
      | Some c, Some n =>
          if decide (c = n) then Return true
          else any_equal cur_vals new_vals unique_keys'
      | _, _ => Raise KeyError_model_to_dict
      end
  end.

(** [_same_obj_exists(cur_obj, new_obj)] *)
Definition _same_obj_exists (cur_obj new_obj : Model) : outcome bool :=
  let cur_vals := model_to_dict cur_obj in
  let new_vals := model_to_dict new_obj in
  let unique_keys :=
    name <$> (filter (λ key, unique key = true ∧ name key ≠ "id")
                     (meta_fields cur_obj)) in
  any_equal cur_vals new_vals unique_keys.

(** *** Step 2: assign unique pks and build the translation table *)

(** The variables the loops of Step 2 carry for one [key]: [new_pk] and
    [pk_translation_table[key]]. *)
Record pk_state := {
  new_pk : Z;
  translations : gmap Z Z
}.

(** One turn of [for cur_obj in type(obj.object).objects.all()]; the
    boolean is [abort_import]. *)
Definition scan_cur_obj (key : string) (obj : DeserializedObject)
    (st : bool * pk_state) (cur_obj : Model) : outcome (bool * pk_state) :=
  let '(abort_import, ps) := st in
  same ← (if bool_decide (key ∉ duplicate_model_keys)
          then _same_obj_exists cur_obj (object obj)
          else Return false);
  if (same : bool) then
    Return (true,
            {| new_pk := new_pk ps;
               translations := <[pk (object obj) := pk cur_obj]> (translations ps) |})
  else if bool_decide (pk cur_obj > new_pk ps) then
    Return (abort_import, {| new_pk := pk cur_obj; translations := translations ps |})
  else Return (abort_import, ps).

(** One turn of [for obj in do_dict[key]]. *)
Definition assign_pk (db : DB) (key : string) (ps : pk_state)
    (obj : DeserializedObject) : outcome (pk_state * DeserializedObject) :=
  '(abort_import, ps) ←
     for_each (scan_cur_obj key obj)
              (objects_all db (model_label (object obj))) (false, ps);
  if (abort_import : bool) then Return (ps, obj)
  else
    let new_pk := new_pk ps + 1 in
    Return ({| new_pk := new_pk;
               translations := <[pk (object obj) := new_pk]> (translations ps) |},
            set_pk new_pk obj).

Fixpoint assign_pks (db : DB) (key : string) (ps : pk_state)
    (objs : list DeserializedObject)
  : outcome (pk_state * list DeserializedObject) :=
  match objs with
  | [] => Return (ps, [])
  | obj :: objs' =>
      '(ps, obj') ← assign_pk db key ps obj;
      '(ps, objs'') ← assign_pks db key ps objs';
      Return (ps, obj' :: objs'')
  end.

(** [for key in do_dict]: returns [pk_translation_table] and [do_dict] with
    the reassigned objects. *)
Fixpoint step2_from (db : DB) (pk_translation_table : gmap string (gmap Z Z))
    (do_dict : list (string * list DeserializedObject))
  : outcome (gmap string (gmap Z Z) * list (string * list DeserializedObject)) :=
  match do_dict with
  | [] => Return (pk_translation_table, [])
  | (key, objs) :: do_dict' =>
      '(ps, objs') ← assign_pks db key {| new_pk := 0; translations := ∅ |} objs;
      '(tbl, do_dict'') ←
         step2_from db (<[key := translations ps]> pk_translation_table) do_dict';
      Return (tbl, (key, objs') :: do_dict'')
  end.

Definition step2 (db : DB) (do_dict : list (string * list DeserializedObject)) :=
  step2_from db ∅ do_dict.

(** The test of the inner loop of Step 2 succeeds for some existing record:
    [key] is not one of [duplicate_model_keys] and [_same_obj_exists] holds
    for a row of [type(obj.object).objects.all()]. *)
Definition deduplicated (db : DB) (key : string) (obj : DeserializedObject)
  : Prop :=
  (key ∉ duplicate_model_keys)
  ∧ ∃ cur_obj, cur_obj ∈ objects_all db (model_label (object obj))
               ∧ _same_obj_exists cur_obj (object obj) = Return true.

(** No object after position [i] of [objs] carries the imported primary key
    of [obj]. *)
Definition last_with_pk (objs : list DeserializedObject) (i : nat)
    (obj : DeserializedObject) : Prop :=
  ∀ j o, (i < j)%nat → objs !! j = Some o → pk (object o) ≠ pk (object obj).

(** What Step 2 has done with the object [obj] at position [i] of the
    objects [objs] of [key], given the value [new_pk0] of [new_pk] before
    the group, the translations [tbl] after it, and the object [obj'] now at
    that position: either [obj] is deduplicated, keeps its primary key and,
    if it is the last object with that key, [tbl] sends the key to the
    primary key of an existing row of its model; or it is not deduplicated,
    has a new primary key above [new_pk0] and above the primary keys of all
    existing rows of its model and, if it is the last object with its
    imported key, [tbl] sends the imported key to the new one. *)
Definition assigned (db : DB) (key : string) (objs : list DeserializedObject)
    (new_pk0 : Z) (tbl : gmap Z Z) (i : nat) (obj obj' : DeserializedObject)
  : Prop :=
  (deduplicated db key obj
   ∧ obj' = obj
   ∧ (last_with_pk objs i obj →
      ∃ cur_obj, cur_obj ∈ objects_all db (model_label (object obj))
                 ∧ tbl !! pk (object obj) = Some (pk cur_obj)))
  ∨ (¬ deduplicated db key obj
     ∧ obj' = set_pk (pk (object obj')) obj
     ∧ new_pk0 < pk (object obj')
     ∧ (∀ cur_obj, cur_obj ∈ objects_all db (model_label (object obj)) →
                   pk cur_obj < pk (object obj'))
     ∧ (last_with_pk objs i obj →
        tbl !! pk (object obj) = Some (pk (object obj')))).

(** What Step 2 has done with the objects [objs] of [key]: [tbl] is
    [pk_translation_table[key]] and [objs'] are the objects afterwards. The
    table has an entry exactly for the imported primary keys; every object
    is [assigned]; only primary keys change; and the new primary keys of
    the objects that are not deduplicated grow along the list. *)
Definition group_assigned (db : DB) (key : string)
    (objs : list DeserializedObject) (tbl : gmap Z Z)
    (objs' : list DeserializedObject) : Prop :=
  length objs' = length objs
  ∧ (∀ k, is_Some (tbl !! k) ↔ k ∈ (λ o, pk (object o)) <$> objs)
  ∧ (∀ i obj, objs !! i = Some obj →
       ∃ obj', objs' !! i = Some obj'
               ∧ assigned db key objs 0 tbl i obj obj'
               ∧ attrs (object obj') = attrs (object obj)
               ∧ m2m_data obj' = m2m_data obj)
  ∧ (∀ i j oi oj oi' oj',
       (i < j)%nat →
       objs !! i = Some oi → objs !! j = Some oj →
       objs' !! i = Some oi' → objs' !! j = Some oj' →
       ¬ deduplicated db key oi → ¬ deduplicated db key oj →
       pk (object oi') < pk (object oj')).

(** In the words of the specification: the existing record [cur_obj] has a
    value equal to the imported record's value on at least one unique field
    other than id. *)
Definition shares_unique_value (cur_obj new_obj : Model) : Prop :=
  ∃ f v, f ∈ meta_fields cur_obj ∧ unique f = true ∧ name f ≠ "id"
         ∧ model_to_dict cur_obj !! name f = Some v
         ∧ model_to_dict new_obj !! name f = Some v.

(** [model_to_dict] has an entry for every unique field that
    [_same_obj_exists] compares, for the objects of [do_dict] and the rows
    they are compared with. *)
Definition comparable (db : DB)
    (do_dict : list (string * list DeserializedObject)) : Prop :=
  ∀ key objs obj cur_obj f,
    (key, objs) ∈ do_dict → obj ∈ objs →
    cur_obj ∈ objects_all db (model_label (object obj)) →
    f ∈ meta_fields cur_obj → unique f = true → name f ≠ "id" →
    is_Some (model_to_dict cur_obj !! name f)
    ∧ is_Some (model_to_dict (object obj) !! name f).

End WithFramework.

(** *** Step 3: match fields *)

(** The body of the loop of [_update_field]. *)
Definition update_field_of (from_name field_name : string)
    (trans_tbl : gmap string (gmap Z Z)) (des_obj : DeserializedObject)
  : outcome DeserializedObject :=
  index ← getattr des_obj field_name;
  new ← translate trans_tbl from_name index;
  Return (setattr des_obj field_name (VInt new)).

(** [_update_field(to_name, from_name, field_name, trans_tbl)] *)
Definition _update_field (to_name from_name field_name : string)
    (trans_tbl : gmap string (gmap Z Z))
    (do_dict : list (string * list DeserializedObject))
  : outcome (list (string * list DeserializedObject)) :=
  match dict_get to_name do_dict with
  | None => Return do_dict
  | Some objs =>
      objs' ← comprehension (update_field_of from_name field_name trans_tbl) objs;
      Return (dict_set to_name objs' do_dict)
  end.

(** [_batch_update_field(to_names, from_name, field_name, trans_tbl)] *)
Definition _batch_update_field (to_names : list string)
    (from_name field_name : string) (trans_tbl : gmap string (gmap Z Z))
    (do_dict : list (string * list DeserializedObject))
  : outcome (list (string * list DeserializedObject)) :=
  for_each (λ do_dict to_name,
              _update_field to_name from_name field_name trans_tbl do_dict)
           to_names do_dict.

(** [[trans_tbl[from_name][ln] for ln in des_obj.m2m_data[m2m_name]]] *)
Definition translate_m2m (from_name m2m_name : string)
    (trans_tbl : gmap string (gmap Z Z)) (des_obj : DeserializedObject)
  : outcome (list Z) :=
  match m2m_data des_obj !! m2m_name with
  | None => Raise KeyError_m2m_data
  | Some lns => comprehension (λ ln, translate trans_tbl from_name (VInt ln)) lns
  end.

(** [_update_m2m(to_name, from_name, m2m_name, trans_tbl)] *)
Definition _update_m2m (to_name from_name m2m_name : string)
    (trans_tbl : gmap string (gmap Z Z))
    (do_dict : list (string * list DeserializedObject))
  : outcome (list (string * list DeserializedObject)) :=
  match dict_get to_name do_dict, trans_tbl !! from_name with
  | Some objs, Some _ =>
      objs' ← comprehension
                (λ des_obj,
                   trans ← translate_m2m from_name m2m_name trans_tbl des_obj;
                   Return (set_m2m des_obj m2m_name trans))
                objs;
      Return (dict_set to_name objs' do_dict)
  | _, _ => Return do_dict
  end.

(** [if from_name not in regist_tbl: ...; if name not in
    regist_tbl[from_name]: ...] *)
Definition ensure_entry (from_name entry_name : string)
    (regist_tbl : gmap string (gmap string (gmap Z registered)))
  : gmap string (gmap string (gmap Z registered)) :=
  let inner := default ∅ (regist_tbl !! from_name) in
  match inner !! entry_name with
  | Some _ => <[from_name := inner]> regist_tbl
  | None => <[from_name := <[entry_name := ∅]> inner]> regist_tbl
  end.

(** [regist_tbl[from_name][entry_name][pk] = v] *)
Definition register (from_name entry_name : string) (pk : Z) (v : registered)
    (regist_tbl : gmap string (gmap string (gmap Z registered)))
  : gmap string (gmap string (gmap Z registered)) :=
  alter (alter (insert pk v) entry_name) from_name regist_tbl.

(** The loops of [_register_m2m] and [_register_field]: the registration
    table is threaded through, the changed objects are collected. *)
Fixpoint register_each
    (body : DeserializedObject → outcome (registered * DeserializedObject))
    (from_name entry_name : string)
    (regist_tbl : gmap string (gmap string (gmap Z registered)))
    (objs : list DeserializedObject)
  : outcome (gmap string (gmap string (gmap Z registered))
             * list DeserializedObject) :=
  match objs with
  | [] => Return (regist_tbl, [])
  | des_obj :: objs' =>
      '(v, des_obj') ← body des_obj;
      let regist_tbl :=
        register from_name entry_name (pk (object des_obj)) v regist_tbl in
      '(regist_tbl, objs'') ←
         register_each body from_name entry_name regist_tbl objs';
      Return (regist_tbl, des_obj' :: objs'')
  end.

(** [_register_m2m(to_name, from_name, m2m_name, regist_tbl, trans_tbl)] *)
Definition _register_m2m (to_name from_name m2m_name : string)
    (trans_tbl : gmap string (gmap Z Z))
    (st : gmap string (gmap string (gmap Z registered))
          * list (string * list DeserializedObject))
  : outcome (gmap string (gmap string (gmap Z registered))
             * list (string * list DeserializedObject)) :=
  let '(regist_tbl, do_dict) := st in
  match dict_get to_name do_dict with
  | None => Return st
  | Some objs =>
      let regist_tbl := ensure_entry from_name m2m_name regist_tbl in
      '(regist_tbl, objs') ←
         register_each
           (λ des_obj,
              trans ← translate_m2m from_name m2m_name trans_tbl des_obj;
              Return (RegisteredM2M trans, set_m2m des_obj m2m_name []))
           from_name m2m_name regist_tbl objs;
      Return (regist_tbl, dict_set to_name objs' do_dict)
  end.

(** [_register_field(to_name, from_name, field_name, regist_tbl, trans_tbl)] *)
Definition _register_field (to_name from_name field_name : string)
    (trans_tbl : gmap string (gmap Z Z))
    (st : gmap string (gmap string (gmap Z registered))
          * list (string * list DeserializedObject))
  : outcome (gmap string (gmap string (gmap Z registered))
             * list (string * list DeserializedObject)) :=
  let '(regist_tbl, do_dict) := st in
  match dict_get to_name do_dict with
  | None => Return st
  | Some objs =>
      let regist_tbl := ensure_entry from_name field_name regist_tbl in
      '(regist_tbl, objs') ←
         register_each
           (λ des_obj,
              trans ← getattr des_obj field_name;
              Return (RegisteredField trans, setattr des_obj field_name VNone))
           from_name field_name regist_tbl objs;
      Return (regist_tbl, dict_set to_name objs' do_dict)
  end.

(** The calls between the helper definitions and Step 4, in order. *)
Definition step3 (pk_translation_table : gmap string (gmap Z Z))
    (do_dict : list (string * list DeserializedObject))
  : outcome (gmap string (gmap string (gmap Z registered))
             * list (string * list DeserializedObject)) :=
  let t := pk_translation_table in
  let do_regist_tbl : gmap string (gmap string (gmap Z registered)) := ∅ in
  d ← _update_field "project.project" "auth.user" "pi_id" t do_dict;
  '(do_regist_tbl, d) ←
     _register_field "resource.resource" "resource.resource"
                     "parent_resource_id" t (do_regist_tbl, d);
  '(do_regist_tbl, d) ←
     _register_m2m "resource.resource" "resource.resource"
                   "linked_resources" t (do_regist_tbl, d);
  d ← _update_m2m "auth.user" "auth.group" "groups" t d;
  d ← _update_field "user.userprofile" "auth.user" "user_id" t d;
  d ← _update_m2m "resource.resource" "auth.user" "allowed_users" t d;
  d ← _update_m2m "resource.resource" "auth.group" "allowed_groups" t d;
  d ← _update_m2m "allocation.allocation" "resource.resource" "resources" t d;
  d ← _update_field "allocation.allocationuser" "auth.user" "user_id" t d;
  d ← _update_field "allocation.allocationuser" "allocation.allocation"
                    "allocation_id" t d;
  d ← _batch_update_field
        ["allocation.allocationchangerequest"; "allocation.allocationattribute";
         "allocation.allocationadminnote"; "allocation.allocationusernote"]
        "allocation.allocation" "allocation_id" t d;
  d ← _batch_update_field
        ["allocation.allocationadminnote"; "allocation.allocationusernote"]
        "auth.user" "author_id" t d;
  d ← _batch_update_field
        ["project.projectuser";
         "allocation.allocation";
         "publication.publication";
         "grant.grant";
         "project.projectadmincomment";
         "project.projectusermessage";
         "project.projectreview";
         "research_output.researchoutput"]
        "project.project" "project_id" t d;
  Return (do_regist_tbl, d).

(** The calls of Step 3 as data, with what one call does to one object of
    the model name [k]; the proofs follow the objects through the calls. *)
Inductive call :=
  | UpdateField (to_name from_name field_name : string)
  | RegisterField (to_name from_name field_name : string)
  | RegisterM2M (to_name from_name m2m_name : string)
  | UpdateM2M (to_name from_name m2m_name : string).

#[global] Instance call_eq_dec : EqDecision call.
Proof. solve_decision. Defined.

Definition step3_calls : list call :=
  [UpdateField "project.project" "auth.user" "pi_id";
   RegisterField "resource.resource" "resource.resource" "parent_resource_id";
   RegisterM2M "resource.resource" "resource.resource" "linked_resources";
   UpdateM2M "auth.user" "auth.group" "groups";
   UpdateField "user.userprofile" "auth.user" "user_id";
   UpdateM2M "resource.resource" "auth.user" "allowed_users";
   UpdateM2M "resource.resource" "auth.group" "allowed_groups";
   UpdateM2M "allocation.allocation" "resource.resource" "resources";
   UpdateField "allocation.allocationuser" "auth.user" "user_id";
   UpdateField "allocation.allocationuser" "allocation.allocation" "allocation_id";
   UpdateField "allocation.allocationchangerequest" "allocation.allocation" "allocation_id";
   UpdateField "allocation.allocationattribute" "allocation.allocation" "allocation_id";
   UpdateField "allocation.allocationadminnote" "allocation.allocation" "allocation_id";
   UpdateField "allocation.allocationusernote" "allocation.allocation" "allocation_id";
   UpdateField "allocation.allocationadminnote" "auth.user" "author_id";
   UpdateField "allocation.allocationusernote" "auth.user" "author_id";
   UpdateField "project.projectuser" "project.project" "project_id";
   UpdateField "allocation.allocation" "project.project" "project_id";
   UpdateField "publication.publication" "project.project" "project_id";
   UpdateField "grant.grant" "project.project" "project_id";
   UpdateField "project.projectadmincomment" "project.project" "project_id";
   UpdateField "project.projectusermessage" "project.project" "project_id";
   UpdateField "project.projectreview" "project.project" "project_id";
   UpdateField "research_output.researchoutput" "project.project" "project_id"].

Definition exec_call (trans_tbl : gmap string (gmap Z Z)) (c : call)
    (st : gmap string (gmap string (gmap Z registered))
          * list (string * list DeserializedObject))
  : outcome (gmap string (gmap string (gmap Z registered))
             * list (string * list DeserializedObject)) :=
  match c with
  | UpdateField to_name from_name field_name =>
      d ← _update_field to_name from_name field_name trans_tbl st.2;
      Return (st.1, d)
  | RegisterField to_name from_name field_name =>
      _register_field to_name from_name field_name trans_tbl st
  | RegisterM2M to_name from_name m2m_name =>
      _register_m2m to_name from_name m2m_name trans_tbl st
  | UpdateM2M to_name from_name m2m_name =>
      d ← _update_m2m to_name from_name m2m_name trans_tbl st.2;
      Return (st.1, d)
  end.

(** The attribute or many-to-many list a call writes: the model name, whether
    it is a many-to-many list, and its name. *)
Definition touch (c : call) : string * bool * string :=
  match c with
  | UpdateField to_name _ field_name => (to_name, false, field_name)
  | RegisterField to_name _ field_name => (to_name, false, field_name)
  | RegisterM2M to_name _ m2m_name => (to_name, true, m2m_name)
  | UpdateM2M to_name _ m2m_name => (to_name, true, m2m_name)
  end.

(** What the call [c] does to the object [des_obj] of [do_dict[k]]. *)
Definition apply_call (trans_tbl : gmap string (gmap Z Z)) (k : string)
    (des_obj : DeserializedObject) (c : call) : outcome DeserializedObject :=
  if decide ((touch c).1.1 = k) then
    match c with
    | UpdateField _ from_name field_name =>
        update_field_of from_name field_name trans_tbl des_obj
    | RegisterField _ _ field_name =>
        _ ← getattr des_obj field_name;
        Return (setattr des_obj field_name VNone)
    | RegisterM2M _ from_name m2m_name =>
        _ ← translate_m2m from_name m2m_name trans_tbl des_obj;
        Return (set_m2m des_obj m2m_name [])
    | UpdateM2M _ from_name m2m_name =>
        match trans_tbl !! from_name with
        | Some _ =>
            trans ← translate_m2m from_name m2m_name trans_tbl des_obj;
            Return (set_m2m des_obj m2m_name trans)
        | None => Return des_obj
        end
    end
  else Return des_obj.

(** The calls [calls], one after the other, on one object. *)
Definition apply_calls (trans_tbl : gmap string (gmap Z Z)) (k : string)
    (calls : list call) (des_obj : DeserializedObject)
  : outcome DeserializedObject :=
  for_each (apply_call trans_tbl k) calls des_obj.

(** Two states of [do_dict] with the same keys whose objects are related by
    [R], key by key and position by position. *)
Definition related
    (R : string → DeserializedObject → DeserializedObject → Prop)
    (d d' : list (string * list DeserializedObject)) : Prop :=
  ∀ k, match dict_get k d, dict_get k d' with
       | Some objs, Some objs' => Forall2 (R k) objs objs'
       | None, None => True
       | _, _ => False
       end.

(** The foreign keys Step 3 rewrites: the model that carries the field, the
    model it refers to, and the field. *)
Definition foreign_keys : list (string * string * string) :=
  [("project.project", "auth.user", "pi_id");
   ("user.userprofile", "auth.user", "user_id");
   ("allocation.allocationuser", "auth.user", "user_id");
   ("allocation.allocationuser", "allocation.allocation", "allocation_id");
   ("allocation.allocationchangerequest", "allocation.allocation", "allocation_id");
   ("allocation.allocationattribute", "allocation.allocation", "allocation_id");
   ("allocation.allocationadminnote", "allocation.allocation", "allocation_id");
   ("allocation.allocationusernote", "allocation.allocation", "allocation_id");
   ("allocation.allocationadminnote", "auth.user", "author_id");
   ("allocation.allocationusernote", "auth.user", "author_id");
   ("project.projectuser", "project.project", "project_id");
   ("allocation.allocation", "project.project", "project_id");
   ("publication.publication", "project.project", "project_id");
   ("grant.grant", "project.project", "project_id");
   ("project.projectadmincomment", "project.project", "project_id");
   ("project.projectusermessage", "project.project", "project_id");
   ("project.projectreview", "project.project", "project_id");
   ("research_output.researchoutput", "project.project", "project_id")].

(** The many-to-many lists [_update_m2m] rewrites, in the same form. *)
Definition many_to_many : list (string * string * string) :=
  [("auth.user", "auth.group", "groups");
   ("resource.resource", "auth.user", "allowed_users");
   ("resource.resource", "auth.group", "allowed_groups");
   ("allocation.allocation", "resource.resource", "resources")].

(** The list [_register_m2m] moves to the registration table. *)
Definition registered_many_to_many : string * string * string :=
  ("resource.resource", "resource.resource", "linked_resources").

(** [news] is [lns] mapped elementwise through [trans_tbl[from_name]]. *)
Definition mapped_through (trans_tbl : gmap string (gmap Z Z))
    (from_name : string) (lns news : list Z) : Prop :=
  Forall2 (λ ln new, translate trans_tbl from_name (VInt ln) = Return new)
          lns news.

(** Every foreign key and every many-to-many entry of the objects of
    [do_dict] is the primary key of an object of [do_dict] of the model it
    refers to. *)
Definition refs_resolve (do_dict : list (string * list DeserializedObject))
  : Prop :=
  (∀ to_name from_name field_name objs o x,
     (to_name, from_name, field_name) ∈ foreign_keys →
     dict_get to_name do_dict = Some objs → o ∈ objs →
     attrs (object o) !! field_name = Some x →
     ∃ v objs_from o_from,
       x = VInt v ∧ dict_get from_name do_dict = Some objs_from
       ∧ o_from ∈ objs_from ∧ pk (object o_from) = v)
  ∧ (∀ to_name from_name m2m_name objs o lns ln,
       (to_name, from_name, m2m_name) ∈ registered_many_to_many :: many_to_many →
       dict_get to_name do_dict = Some objs → o ∈ objs →
       m2m_data o !! m2m_name = Some lns → ln ∈ lns →
       ∃ objs_from o_from,
         dict_get from_name do_dict = Some objs_from
         ∧ o_from ∈ objs_from ∧ pk (object o_from) = ln).

(** *** Step 4: save *)

(** The Python values [save] is called on and [isinstance] is asked about:
    the wrapper the deserializer yields, or a model instance. *)
Inductive pyvalue :=
  | Deserialized (obj : DeserializedObject)
  | Instance (m : Model).

(** [isinstance(v, cls)] for a model class [cls], named by its label.
    [DeserializedObject] is not a model class and has no subclasses. *)
Definition isinstance (v : pyvalue) (cls : string) : bool :=
  match v with
  | Deserialized _ => false
  | Instance m => bool_decide (model_label m = cls)
  end.

(** Writing a row: UPDATE the stored row with the same primary key, INSERT
    when there is none. *)
Fixpoint upsert (row : DeserializedObject) (stored : list DeserializedObject)
  : list DeserializedObject :=
  match stored with
  | [] => [row]
  | r :: stored' =>
      if decide (pk (object r) = pk (object row)) then row :: stored'
      else r :: upsert row stored'
  end.

(** [Model.save()]: the columns of the instance are written, the
    many-to-many lists of a stored row stay. *)
Fixpoint upsert_instance (m : Model) (stored : list DeserializedObject)
  : list DeserializedObject :=
  match stored with
  | [] => [{| object := m; m2m_data := ∅ |}]
  | r :: stored' =>
      if decide (pk (object r) = pk m)
      then {| object := m; m2m_data := m2m_data r |} :: stored'
      else r :: upsert_instance m stored'
  end.

Definition write (v : pyvalue) (db : DB) : DB :=
  match v with
  | Deserialized obj =>
      <[model_label (object obj) :=
          upsert obj (rows db (model_label (object obj)))]> db
  | Instance m =>
      <[model_label m := upsert_instance m (rows db (model_label m))]> db
  end.

(** The database together with the log of the calls to [save], oldest
    first; the log is there to state how often an object is saved. *)
Record world := {
  db : DB;
  save_log : list pyvalue
}.

(** [getattr(obj, m2m_name).add(x)] on the stored row [pk] of [label]. *)
Definition add_m2m (label : string) (row_pk : Z) (m2m_name : string) (x : Z)
    (db : DB) : DB :=
  <[label :=
      fmap (λ r, if decide (pk (object r) = row_pk)
                then let old := default [] (m2m_data r !! m2m_name) in
                     if decide (x ∈ old) then r
                     else set_m2m r m2m_name (old ++ [x])
                else r)
          (rows db label)]> db.

Section WithDatabase.

(** Whether the database rejects a write with an [IntegrityError]
    (constraints live in the model declarations and the database). *)
Variable violates : DB → pyvalue → bool.

(** [v.save()]: the new state and whether [IntegrityError] was raised. *)
Definition save (v : pyvalue) (w : world) : world * bool :=
  let log := save_log w ++ [v] in
  if violates (db w) v then ({| db := db w; save_log := log |}, true)
  else ({| db := write v (db w); save_log := log |}, false).

(** [v.save()] outside a [try]. *)
Definition save_or_raise (v : pyvalue) (w : world) : outcome world :=
  let '(w, raised) := save v w in
  if (raised : bool) then Raise IntegrityError else Return w.

(** The body of the save loop; the boolean is [resave_proj]. *)
Definition save_obj (st : world * bool) (obj : DeserializedObject) : world * bool :=
  let '(w, resave_proj) := st in
  let '(w, raised) := save (Deserialized obj) w in
  if (raised : bool) then
    if isinstance (Deserialized obj) "project.project" then (w, true)
    else (w, resave_proj)
  else (w, resave_proj).

(** [for key in do_dict: for obj in do_dict[key]: ...], starting from
    [resave_proj = False]. *)
Definition save_all (do_dict : list (string * list DeserializedObject))
    (w : world) : world * bool :=
  foldl (λ st entry, foldl save_obj st entry.2) (w, false) do_dict.

(** [trans_tbl[name][entry_name]] of [_reassign_m2m] and [_reassign_field],
    which receive [do_regist_tbl] as [trans_tbl]. *)
Definition registration (trans_tbl : gmap string (gmap string (gmap Z registered)))
    (name entry_name : string) : outcome (gmap Z registered) :=
  match trans_tbl !! name with
  | None => Raise KeyError_registration
  | Some inner =>
      match inner !! entry_name with
      | None => Raise KeyError_registration
      | Some entries => Return entries
      end
  end.

(** [_reassign_m2m(name, query, m2m_name, regist_tbl, trans_tbl)] for
    [query = Model.objects.all()] of the model labelled [name]; the call
    site passes [do_dict] as [regist_tbl] and [do_regist_tbl] as
    [trans_tbl]. *)
Definition _reassign_m2m (name m2m_name : string)
    (regist_tbl : list (string * list DeserializedObject))
    (trans_tbl : gmap string (gmap string (gmap Z registered)))
    (w : world) : outcome world :=
  match dict_get name regist_tbl with
  | None => Return w
  | Some _ =>
      for_each
        (λ w obj,
           entries ← registration trans_tbl name m2m_name;
           match entries !! pk (object obj) with
           | None => Return w
           | Some (RegisteredField _) => Raise TypeError
           | Some (RegisteredM2M ids) =>
               for_each
                 (λ w id,
                    match filter (λ r, pk (object r) = id) (rows (db w) name) with
                    | [] => Raise IndexError
                    | x :: _ =>
                        Return {| db := add_m2m name (pk (object obj)) m2m_name
                                                (pk (object x)) (db w);
                                  save_log := save_log w |}
                    end)
                 ids w
           end)
        (rows (db w) name) w
  end.

(** [_reassign_field(name, query, field_name, regist_tbl, trans_tbl)], with
    the same arguments as [_reassign_m2m]. *)
Definition _reassign_field (name field_name : string)
    (regist_tbl : list (string * list DeserializedObject))
    (trans_tbl : gmap string (gmap string (gmap Z registered)))
    (w : world) : outcome world :=
  match dict_get name regist_tbl with
  | None => Return w
  | Some _ =>
      for_each
        (λ w obj,
           entries ← registration trans_tbl name field_name;
           match entries !! pk (object obj) with
           | None => Return w
           | Some (RegisteredM2M _) => Raise TypeError
           | Some (RegisteredField v) =>
               save_or_raise (Instance (object (setattr obj field_name v))) w
           end)
        (rows (db w) name) w
  end.

(** [do_dict['project.project'][0].object.save()] *)
Definition resave_project (do_dict : list (string * list DeserializedObject))
    (w : world) : outcome world :=
  match dict_get "project.project" do_dict with
  | None => Raise KeyError_do_dict
  | Some [] => Raise IndexError
  | Some (obj :: _) => save_or_raise (Instance (object obj)) w
  end.

(** Step 4 with the two reassignments and the conditional retry. *)
Definition step4 (do_dict : list (string * list DeserializedObject))
    (do_regist_tbl : gmap string (gmap string (gmap Z registered)))
    (w : world) : outcome world :=
  let '(w, resave_proj) := save_all do_dict w in
  w ← _reassign_m2m "resource.resource" "linked_resources" do_dict do_regist_tbl w;
  w ← _reassign_field "resource.resource" "parent_resource_id"
                      do_dict do_regist_tbl w;
  if (resave_proj : bool) then resave_project do_dict w else Return w.

(** *** [ProjectImportView.post] *)

(** [json.loads(file_content)] followed, member by member, by the
    deserializer and the search for the model name. *)
Inductive loads_result :=
  | Loaded (grouped_data : list member)
  | JSONDecodeError
  | UnicodeDecodeError.

Variable json_loads : string → loads_result.
Variable model_to_dict : Model → gmap string value.
Variable meta_fields : Model → list Field.

Record Request := {
  form_is_valid : bool;         (* form.is_valid() *)
  file_upload : string          (* request.FILES['file_upload'].read() *)
}.

(** What a request leaves behind: the state of the database, the messages
    given to [messages.error], and the target of the redirect. *)
Record Response := {
  world_after : world;
  error_messages : list string;
  redirect_to : string
}.

Definition post (request : Request) (w : world) : outcome Response :=
  if form_is_valid request then
    match json_loads (file_upload request) with
    | JSONDecodeError =>
        Return {| world_after := w;
                  error_messages :=
                    ["JSON Decode Error: The project file you have selected is corrupted "
                     +:+ "or is in a format ColdFront does not recognise."];
                  redirect_to := "project-list" |}
    | UnicodeDecodeError =>
        Return {| world_after := w;
                  error_messages :=
                    ["Unicode Decode Error: Please upload a JSON document."];
                  redirect_to := "project-list" |}
    | Loaded grouped_data =>
        let do_dict := step1 grouped_data in
        '(pk_translation_table, do_dict) ←
           step2 model_to_dict meta_fields (db w) do_dict;
        '(do_regist_tbl, do_dict) ← step3 pk_translation_table do_dict;
        w ← step4 do_dict do_regist_tbl w;
        Return {| world_after := w; error_messages := [];
                  redirect_to := "project-list" |}
    end
  else
    Return {| world_after := w; error_messages := [];
              redirect_to := "project-list" |}.

End WithDatabase.

End ProjectImport.

Module ImportExamples.
Import ProjectImport.

(** A framework in which every attribute is an editable field and the only
    unique fields besides [id] are the user's [username], the group's
    [name] and the resource's [name]. *)
Definition model_to_dict (m : Model) : gmap string value :=
  <["id" := VInt (pk m)]> (attrs m).

Definition meta_fields (m : Model) : list Field :=
  if decide (model_label m = "auth.user") then
    [{| name := "id"; unique := true |}; {| name := "username"; unique := true |}]
  else if decide (model_label m ∈ ["auth.group"; "resource.resource"]) then
    [{| name := "id"; unique := true |}; {| name := "name"; unique := true |}]
  else [{| name := "id"; unique := true |}].

Definition instance (label : string) (k : Z) (fields : list (string * value))
  : DeserializedObject :=
  {| object := {| model_label := label; pk := k; attrs := list_to_map fields |};
     m2m_data := ∅ |}.

(** Two grants that carry the same primary key; an empty database. *)
Definition grant_a := instance "grant.grant" 1 [("title", VStr "a"); ("project_id", VInt 1)].
Definition grant_b := instance "grant.grant" 1 [("title", VStr "b"); ("project_id", VInt 1)].
Definition twin_grants : list member :=
  [{| member_name := Some "grant.grant"; member_objects := [grant_a; grant_b] |}].
Definition empty_db : DB := ∅.

(** Two users that carry the same primary key, the first of which is
    already in the database under another key. *)
Definition alice_stored := instance "auth.user" 7 [("username", VStr "alice")].
Definition alice := instance "auth.user" 1 [("username", VStr "alice")].
Definition bob := instance "auth.user" 1 [("username", VStr "bob")].
Definition twin_users : list member :=
  [{| member_name := Some "auth.user"; member_objects := [alice; bob] |}].
Definition alice_db : DB := {[ "auth.user" := [alice_stored] ]}.

(** A user that belongs to group 5, exported without its group: the export
    view serializes only the groups allowed on an exported resource. *)
Definition carol_in_group :=
  set_m2m (instance "auth.user" 1 [("username", VStr "carol")]) "groups" [5].
Definition lone_user : list member :=
  [{| member_name := Some "auth.user"; member_objects := [carol_in_group] |}].

(** A project and the user who is its PI, in the order of the exported
    document: the project comes first. *)
Definition project_1 := instance "project.project" 1 [("title", VStr "p"); ("pi_id", VInt 1)].
Definition carol :=
  set_m2m (instance "auth.user" 1 [("username", VStr "carol")]) "groups" [].
Definition small_project : list member :=
  [{| member_name := Some "project.project"; member_objects := [project_1] |};
   {| member_name := Some "auth.user"; member_objects := [carol] |}].

(** A database that enforces one constraint: a project row needs a stored
    user row for its [pi_id]. *)
Definition pi_missing (db : DB) (m : Model) : bool :=
  bool_decide (model_label m = "project.project")
  && match attrs m !! "pi_id" with
     | Some (VInt u) =>
         bool_decide (u ∉ (λ r, pk (object r)) <$> rows db "auth.user")
     | _ => false
     end.

Definition pi_constraint (db : DB) (v : pyvalue) : bool :=
  match v with
  | Deserialized obj => pi_missing db (object obj)
  | Instance m => pi_missing db m
  end.

Definition empty_world : world := {| db := ∅; save_log := [] |}.

Definition upload : Request := {| form_is_valid := true; file_upload := "" |}.

End ImportExamples.

Module ImportResourceExamples.
Import ProjectImport ImportExamples.

(** A cluster and a partition under it, linked to it; the database holds
    one resource already, under the primary key 10. *)
Definition resource (k : Z) (name : string) (parent : value) (linked : list Z)
  : DeserializedObject :=
  {| object := {| model_label := "resource.resource"; pk := k;
                  attrs := {[ "name" := VStr name;
                              "parent_resource_id" := parent ]} |};
     m2m_data := {[ "linked_resources" := linked;
                    "allowed_users" := [];
                    "allowed_groups" := [] ]} |}.

Definition cluster := resource 1 "cluster" VNone [].
Definition partition := resource 2 "partition" (VInt 1) [1].
Definition two_resources : list member :=
  [{| member_name := Some "resource.resource";
      member_objects := [cluster; partition] |}].
Definition stored_resource := resource 10 "old" VNone [].
Definition resource_db : DB := {[ "resource.resource" := [stored_resource] ]}.

(** The translation table and [do_dict] Step 2 leaves for this document. *)
Definition resource_table : gmap string (gmap Z Z) :=
  {[ "resource.resource" := {[ 1 := 11; 2 := 12 ]} ]}.
Definition resource_dict : list (string * list DeserializedObject) :=
  [("resource.resource", [set_pk 11 cluster; set_pk 12 partition])].

End ImportResourceExamples.

(** ** The archive view *)

Module ProjectArchive.
Import ProjectMerge.

Section WithClock.

(** Current time, for [datetime.datetime.now()] in [archive_project]. *)
Variable now : Z.

(** [get_object_or_404(Project, pk=pk)] *)
Definition get_object_or_404 (db : DB) (pk : Z) : outcome Project :=
  match filter (λ p, project_id p = pk) (projects db) with
  | p :: _ => Return p
  | [] => Raise Http404
  end.

(** [ProjectArchiveProjectView.post]: the new state of the database and the
    primary key in the redirect to [project-detail]. *)
Definition post (pk : Z) (db : DB) : outcome (DB * Z) :=
  project ← get_object_or_404 db pk;
  let db := archive_project now project db in
  Return (db, project_id project).

End WithClock.

End ProjectArchive.

Module ArchiveExamples.
Import ProjectMerge.

(** A project with an active and a pending allocation, and an active
    allocation of another project. *)
Definition project_1 : Project :=
  {| project_id := 1; project_pi := 10; project_status := "Active";
     project_title := "one"; project_description := "" |}.
Definition project_2 : Project :=
  {| project_id := 2; project_pi := 10; project_status := "Active";
     project_title := "two"; project_description := "" |}.
Definition row (k p : Z) (status : string) : Row :=
  {| row_pk := k; row_project_id := p; row_status := status;
     row_end_date := None |}.
Definition db : DB :=
  {| projects := [project_1; project_2];
     table := λ m, match m with
                   | Allocation => [row 5 1 "Active"; row 6 1 "Pending";
                                    row 7 2 "Active"]
                   | Grant => [row 1 1 "Active"; row 2 2 "Active"]
                   | _ => []
                   end |}.

(** A merge request that selects nothing, and one that selects the first
    project. *)
Definition select_none : Request :=
  {| request_user := 20; request_selected := [false; false];
     request_title := "merged"; request_description := "" |}.

End ArchiveExamples.

(** ** Resources reachable from the allocations of a project *)

Module ExportReachability.
Import ProjectExport.

(** The resource ids reached from the ids [init] by following, any number of
    times, the [linked_resources] of a stored resource whose id is reached,
    or the [parent_resource] column backwards: a stored resource whose
    parent is reached is reached. *)
Inductive reachable (db : DB) (init : gset Z) : Z → Prop :=
  | reach_init id :
      id ∈ init → reachable db init id
  | reach_linked r x :
      r ∈ resources db → reachable db init (resource_id r) →
      x ∈ resources db → resource_id x ∈ linked_resources r →
      reachable db init (resource_id x)
  | reach_child x p :
      x ∈ resources db → parent_resource x = Some p → reachable db init p →
      reachable db init (resource_id x).

(** The ids of the resources of the allocations of project [p_id]. *)
Definition allocated_resource_ids (db : DB) (p_id : Z) : gset Z :=
  list_to_set
    (resource_ids
       (resources_of_allocations db
          (project_id_is allocation_project_id p_id (allocations db)))).

End ExportReachability.

(** ** The email notification switch of a project user *)

Module EmailNotification.

Record User := { user_id : Z; is_superuser : bool }.
Record Project := { project_id : Z; project_pi : Z (* pi_id *) }.
Record ProjectUser := {
  projectuser_id : Z;
  projectuser_project_id : Z;
  projectuser_user_id : Z;
  projectuser_role : string;    (* role.name *)
  projectuser_status : string;  (* status.name *)
  enable_notifications : bool
}.

Record DB := { projects : list Project; projectusers : list ProjectUser }.

(** A request: its method, its user ([None] when nobody is logged in) and
    [request.POST]. *)
Record Request := {
  method : string;
  user : option User;
  POST : gmap string string
}.

Inductive error := Http404 | ValueError | DoesNotExist.

(** What the view answers: a response, the redirect of [login_required]
    to the login page, or an error. *)
Inductive answer :=
  | HttpResponse (content : string) (status : Z)
  | RedirectToLogin
  | Raised (e : error).

Definition set_enable_notifications (b : bool) (pu : ProjectUser) : ProjectUser :=
  {| projectuser_id := projectuser_id pu;
     projectuser_project_id := projectuser_project_id pu;
     projectuser_user_id := projectuser_user_id pu;
     projectuser_role := projectuser_role pu;
     projectuser_status := projectuser_status pu;
     enable_notifications := b |}.

(** [obj.save()]: the row with the primary key of [obj] takes the columns
    of [obj]; a row is added when there is none. *)
Definition save (obj : ProjectUser) (db : DB) : DB :=
  {| projects := projects db;
     projectusers :=
       if decide (projectuser_id obj ∈ projectuser_id <$> projectusers db)
       then (λ row, if decide (projectuser_id row = projectuser_id obj)
                    then obj else row) <$> projectusers db
       else projectusers db ++ [obj] |}.

(** [q.exists()] *)
Definition exists_ {A} (q : list A) : bool :=
  match q with [] => false | _ :: _ => true end.

Section WithField.

(** The conversion of a value of the request to a primary key, [None] where
    the field raises [ValueError]. *)
Variable to_python : string → option Z.

(** [get_object_or_404(ProjectUser, pk=value)]; no row has the primary key
    [None]. *)
Definition get_object_or_404 (db : DB) (value : option string)
  : error + ProjectUser :=
  match value with
  | Some s =>
      match to_python s with
      | Some pk =>
          match filter (λ pu, projectuser_id pu = pk) (projectusers db) with
          | pu :: _ => inr pu
          | [] => inl Http404
          end
      | None => inl ValueError
      end
  | None => inl Http404
  end.

(** [project_user_obj.project] *)
Definition project_of (db : DB) (project_user_obj : ProjectUser)
  : error + Project :=
  match filter (λ p, project_id p = projectuser_project_id project_user_obj)
               (projects db) with
  | p :: _ => inr p
  | [] => inl DoesNotExist
  end.

(** [project_update_email_notification] under [login_required]: the state
    of the database it leaves, and its answer. *)
Definition project_update_email_notification (request : Request) (db : DB)
  : DB * answer :=
  match user request with
  | None => (db, RedirectToLogin)
  | Some request_user =>
      if decide (method request = "POST") then
        let data := POST request in
        match get_object_or_404 db (data !! "user_project_id") with
        | inl e => (db, Raised e)
        | inr project_user_obj =>
            match project_of db project_user_obj with
            | inl e => (db, Raised e)
            | inr project_obj =>
                let allowed := false in
                let allowed :=
                  if decide (project_pi project_obj = user_id request_user)
                  then true else allowed in
                let allowed :=
                  if exists_
                       (filter (λ pu,
                                  projectuser_project_id pu = project_id project_obj
                                  ∧ projectuser_user_id pu = user_id request_user
                                  ∧ projectuser_role pu = "Manager"
                                  ∧ projectuser_status pu = "Active")
                               (projectusers db))
                  then true else allowed in
                let allowed :=
                  if decide (projectuser_user_id project_user_obj
                             = user_id request_user)
                  then true else allowed in
                let allowed :=
                  if is_superuser request_user then true else allowed in
                if negb allowed then (db, HttpResponse "not allowed" 403)
                else
                  let checked := data !! "checked" in
                  if decide (checked = Some "true") then
                    let project_user_obj :=
                      set_enable_notifications true project_user_obj in
                    (save project_user_obj db, HttpResponse "checked" 200)
                  else if decide (checked = Some "false") then
                    let project_user_obj :=
                      set_enable_notifications false project_user_obj in
                    (save project_user_obj db, HttpResponse "unchecked" 200)
                  else (db, HttpResponse "no checked" 400)
            end
        end
      else (db, HttpResponse "no POST" 400)
  end.

End WithField.

(** Who may switch the notifications of [project_user_obj]: the PI of its
    project, an active manager of that project, the user of the row, and a
    superuser. *)
Definition may_switch (db : DB) (request_user : User)
    (project_user_obj : ProjectUser) : Prop :=
  (∃ project_obj, project_obj ∈ projects db
      ∧ project_id project_obj = projectuser_project_id project_user_obj
      ∧ project_pi project_obj = user_id request_user)
  ∨ (∃ pu, pu ∈ projectusers db
       ∧ projectuser_project_id pu = projectuser_project_id project_user_obj
       ∧ projectuser_user_id pu = user_id request_user
       ∧ projectuser_role pu = "Manager"
       ∧ projectuser_status pu = "Active")
  ∨ projectuser_user_id project_user_obj = user_id request_user
  ∨ is_superuser request_user = true.

End EmailNotification.

Module EmailNotificationExamples.
Import EmailNotification.

(** A project of the PI 10 with the users 11 and 12; user 11 switches her
    own notifications off. *)
Definition project_1 : Project := {| project_id := 1; project_pi := 10 |}.

Definition row_5 : ProjectUser :=
  {| projectuser_id := 5; projectuser_project_id := 1;
     projectuser_user_id := 11; projectuser_role := "User";
     projectuser_status := "Active"; enable_notifications := true |}.

Definition row_6 : ProjectUser :=
  {| projectuser_id := 6; projectuser_project_id := 1;
     projectuser_user_id := 12; projectuser_role := "User";
     projectuser_status := "Active"; enable_notifications := true |}.

Definition db : DB :=
  {| projects := [project_1]; projectusers := [row_5; row_6] |}.

Definition user_11 : User := {| user_id := 11; is_superuser := false |}.

Definition request : Request :=
  {| method := "POST";
     user := Some user_11;
     POST := {[ "user_project_id" := "5"; "checked" := "false" ]} |}.

(** The conversion of a string of digits. *)
Definition to_python (s : string) : option Z :=
  (λ d, Z.of_N (N.of_uint d)) <$> NilEmpty.uint_of_string s.

End EmailNotificationExamples.

(** ** User search

    Shallow embedding of [UserSearch], [LocalUserSearch] and
    [CombinedUserSearch] in [coldfront/core/user/utils.py]. A value that is
    a [str] or [None] is an [option string]; the dictionaries of a search
    result map strings to strings. *)

Module UserSearch.

Abbreviation dict := (gmap string string).

(** The whitespace [str.split()] splits at, among the characters with code
    points below 256. *)
Definition is_whitespace (c : ascii) : bool :=
  bool_decide (nat_of_ascii c ∈ [9; 10; 11; 12; 13; 28; 29; 30; 31; 32; 133; 160]%nat).

(** [s.split()], with the word that is being read in [word]. *)
Fixpoint split_from (word : string) (s : string) : list string :=
  match s with
  | String c s' =>
      if is_whitespace c
      then (if decide (word = "") then [] else [word]) ++ split_from "" s'
      else split_from (word +:+ String c "") s'
  | "" => if decide (word = "") then [] else [word]
  end.

Definition split (s : string) : list string := split_from "" s.

(** [sorted(list(set(words)))]: strings compare by their code points, and
    the order in which the set is listed does not matter to the result. *)
Definition sorted_set (words : list string) : list string :=
  merge_sort String.le (elements (list_to_set words : gset string)).

(** A subclass of [UserSearch] is given by its [search_a_user], taken to be
    a function of its arguments: it returns, and returns the same users for
    the same arguments. *)
Record UserSearchClass := {
  search_a_user : option string → option string → list dict
}.

(** [UserSearch.search] *)
Definition search (cls : UserSearchClass)
    (user_search_string search_by : option string) : outcome (list dict) :=
  match user_search_string with
  | Some q =>
      if decide (1 < length (split q))%nat then
        let search_by := Some "username_only" in
        let matches := [] in
        let user_search_string := sorted_set (split q) in
        Return
          (foldl (λ matches username,
                    let match_ := search_a_user cls (Some username) search_by in
                    if decide (match_ ≠ []) then matches ++ match_ else matches)
                 matches user_search_string)
      else Return (search_a_user cls user_search_string search_by)
  | None => Raise AttributeError        (* [None.split()] *)
  end.

End UserSearch.

Module LocalUserSearch.
Import UserSearch.

(** A row of the table of users. *)
Record User := {
  username : string;
  first_name : string;
  last_name : string;
  email : string;
  is_active : bool
}.

Definition search_source : string := "local".

(** Truth of a value that is a [str] or [None]. *)
Definition truthy (s : option string) : bool :=
  match s with
  | Some s => bool_decide (s ≠ "")
  | None => false
  end.

(** The dictionary [search_a_user] makes of a user. *)
Definition user_dict (user : User) : dict :=
  {[ "last_name" := last_name user;
     "first_name" := first_name user;
     "username" := username user;
     "email" := email user;
     "source" := search_source ]}.

Section WithDatabase.

(** The lookups [field__icontains=pattern] and [field=pattern] as the
    database evaluates them on a field and a pattern: their case sensitivity
    is that of its collation. *)
Variable icontains : string → string → bool.
Variable exact : string → string → bool.

(** [User.objects.all()], in the order of the database. *)
Variable users : list User.

(** [LocalUserSearch.search_a_user]; a model instance is always true, and
    [distinct()] removes nothing from a query on one table. *)
Definition search_a_user (user_search_string search_by : option string)
  : list dict :=
  let size_limit := 50%nat in
  let pattern := default "" user_search_string in
  let entries :=
    if truthy user_search_string && bool_decide (search_by = Some "all_fields")
    then
      take size_limit
        (filter (λ user, is_active user = true)
           (filter (λ user,
                      icontains (username user) pattern
                      || icontains (first_name user) pattern
                      || icontains (last_name user) pattern
                      || icontains (email user) pattern = true)
              users))
    else if truthy user_search_string
            && bool_decide (search_by = Some "username_only")
    then
      filter (λ user, exact (username user) pattern = true
                      ∧ is_active user = true) users
    else take size_limit users in
  user_dict <$> entries.

Definition LocalUserSearch : UserSearchClass :=
  {| UserSearch.search_a_user := search_a_user |}.

End WithDatabase.

End LocalUserSearch.

Module CombinedUserSearch.
Import UserSearch.

(** The context [search] returns. The list of the usernames not found is in
    the order of [elements]: Python fixes no order for [list(set)]. *)
Record context := {
  matches : list dict;
  number_of_usernames_searched : option nat;
  number_of_usernames_found : option nat;
  usernames_not_found : option (list (option string))
}.

(** The inner loop of [search], over the users a search class has found. *)
Definition add_users (usernames_names_to_exclude : list string)
    (found : list (option string) * list dict) (users : list dict)
  : list (option string) * list dict :=
  foldl (λ '(usernames_found, matches) user,
           let username := user !! "username" in
           if decide ((username ∉ usernames_found)
                      ∧ (username ∉ Some <$> usernames_names_to_exclude))
           then (usernames_found ++ [username], matches ++ [user])
           else (usernames_found, matches))
        found users.

(** [CombinedUserSearch.search] on the search classes the constructor has
    set up. *)
Definition search (USER_SEARCH_CLASSES : list UserSearchClass)
    (user_search_string search_by : option string)
    (usernames_names_to_exclude : list string) : outcome context :=
  '(usernames_found, matches) ←
    for_each (λ found cls,
                users ← UserSearch.search cls user_search_string search_by;
                Return (add_users usernames_names_to_exclude found users))
             USER_SEARCH_CLASSES ([], []);
  match user_search_string with
  | Some q =>
      if decide (1 < length (split q))%nat then
        Return
          {| matches := matches;
             number_of_usernames_searched := Some (length (split q));
             number_of_usernames_found := Some (length usernames_found);
             usernames_not_found :=
               Some (elements
                       ((list_to_set (Some <$> split q)
                         ∖ list_to_set usernames_found)
                        ∖ list_to_set (Some <$> usernames_names_to_exclude)
                        : gset (option string))) |}
      else
        Return
          {| matches := matches;
             number_of_usernames_searched := None;
             number_of_usernames_found := None;
             usernames_not_found := None |}
  | None => Raise AttributeError        (* [None.split()] *)
  end.

(** The search classes of a [CombinedUserSearch]: the constructor puts the
    local search before the classes of the setting
    [ADDITIONAL_USER_SEARCH_CLASSES]. *)
Definition USER_SEARCH_CLASSES (local : UserSearchClass)
    (ADDITIONAL_USER_SEARCH_CLASSES : list UserSearchClass)
  : list UserSearchClass :=
  local :: ADDITIONAL_USER_SEARCH_CLASSES.

End CombinedUserSearch.

Module UserSearchExamples.
Import UserSearch LocalUserSearch.

(** A table of three users, the second of them inactive, in a database
    that compares strings exactly. *)
Definition user (name first last : string) (active : bool) : User :=
  {| username := name; first_name := first; last_name := last;
     email := name +:+ "@example.org"; is_active := active |}.

Definition alice : User := user "alice" "Alice" "Adams" true.
Definition bob : User := user "bob" "Bob" "Brown" false.
Definition carol : User := user "carol" "Carol" "Clark" true.

Definition users : list User := [alice; bob; carol].

Fixpoint contains (field pattern : string) : bool :=
  String.prefix pattern field
  || match field with
     | String _ field' => contains field' pattern
     | "" => false
     end.

Definition local : UserSearchClass := LocalUserSearch contains String.eqb users.

End UserSearchExamples.

(** ** Usernames inferred from email addresses

    Shallow embedding of [InferUsernameFromEmail] in
    [coldfront/core/user/utils.py]. A Python [str] is the list of its
    characters, with code points below 256: among these the decimal digits
    of the pattern [\d] are the characters 0 to 9. *)

Module InferUsername.

Abbreviation pystr := (list ascii).

Definition digits : list ascii :=
  ["0"; "1"; "2"; "3"; "4"; "5"; "6"; "7"; "8"; "9"]%char.
Definition is_digit (c : ascii) : bool := bool_decide (c ∈ digits).
Arguments is_digit : simpl never.
Definition newline : ascii := "010"%char.

Inductive error := ValueError | UnboundLocalError.

Inductive result (A : Type) :=
  | Value (a : A)
  | Error (e : error).
Arguments Value {A} a.
Arguments Error {A} e.

(** The longest run of digits that [s] starts with, and what follows it. *)
Fixpoint digits_at (s : pystr) : pystr * pystr :=
  match s with
  | c :: s' =>
      if is_digit c then let '(m, rest) := digits_at s' in (c :: m, rest)
      else ([], s)
  | [] => ([], [])
  end.

(** A match of [\d+$] that starts where [s] starts: [\d+] takes the longest
    run of digits, which must not be empty, and [$] holds where the string
    ends or where only a newline is left. A shorter run is followed by a
    digit, so that backtracking finds no other match. *)
Definition match_here (s : pystr) : option (pystr * pystr) :=
  let '(m, rest) := digits_at s in
  if decide (m ≠ [] ∧ (rest = [] ∨ rest = [newline])) then Some (m, rest)
  else None.

(** [re.search("\d+$", s)]: the leftmost match, as what precedes it,
    [match[0]], and what follows it. *)
Fixpoint re_search (s : pystr) : option (pystr * pystr * pystr) :=
  match match_here s with
  | Some (m, rest) => Some ([], m, rest)
  | None =>
      match s with
      | c :: s' => (λ '(before, m, rest), (c :: before, m, rest)) <$> re_search s'
      | [] => None
      end
  end.

(** [re.sub("\d+$", repl, s)] for a replacement [repl] without backslashes:
    what follows the leftmost match is empty or a newline and has no match
    of its own. *)
Definition re_sub (repl s : pystr) : pystr :=
  match re_search s with
  | Some (before, _, rest) => before ++ repl ++ rest
  | None => s
  end.

(** The decimal numeral of [n], and the number a string of digits stands
    for. *)
Definition decimal (n : N) : pystr :=
  list_ascii_of_string (NilEmpty.string_of_uint (N.to_uint n)).

Definition digits_value (s : pystr) : option N :=
  N.of_uint <$> NilEmpty.uint_of_string (string_of_list_ascii s).

Section WithLimit.

(** [sys.get_int_max_str_digits()]: 4300 unless the interpreter is configured
    otherwise, 0 when it has no limit on the digits of a conversion between
    [int] and [str]. *)
Variable max_str_digits : nat.

Definition over_limit (digits : nat) : bool :=
  bool_decide (0 < max_str_digits < digits)%nat.

(** [int(s)] for a string of digits, which [match[0]] is. *)
Definition int (s : pystr) : result N :=
  match digits_value s with
  | Some n => if over_limit (length s) then Error ValueError else Value n
  | None => Error ValueError
  end.

(** [str(n)] for an integer that is not negative. *)
Definition str (n : N) : result pystr :=
  if over_limit (length (decimal n)) then Error ValueError
  else Value (decimal n).

(** [InferUsernameFromEmail.next_username]; [None] when the loop has not
    ended after [fuel] rounds. *)
Fixpoint next_username_fuel (fuel : nat) (username : pystr)
    (used_usernames : gset pystr) : option (result pystr) :=
  if decide (username ∈ used_usernames) then
    match fuel with
    | S fuel =>
        match re_search username with
        | None =>
            next_username_fuel fuel (username ++ ["0"%char]) used_usernames
        | Some (_, match_0, _) =>
            match int match_0 with
            | Value n =>
                let next := (n + 1)%N in
                match str next with
                | Value s =>
                    next_username_fuel fuel (re_sub s username) used_usernames
                | Error e => Some (Error e)
                end
            | Error e => Some (Error e)
            end
        end
    | O => None
    end
  else Some (Value username).

(** The loop needs no more rounds than there are used names. *)
Definition next_username (username : pystr) (used_usernames : gset pystr)
  : option (result pystr) :=
  next_username_fuel (size used_usernames) username used_usernames.

Record User := { user_pk : Z; user_username : pystr; user_email : pystr }.

Inductive KeyOption := ID | ORIGINAL_USERNAME | EMAIL.

(** The key of an entry of the context: a primary key or a string. *)
Inductive key := KeyInt (k : Z) | KeyStr (s : pystr).

(** [s.split('@')[0]] *)
Fixpoint split_at_0 (s : pystr) : pystr :=
  match s with
  | c :: s' => if decide (c = "@"%char) then [] else c :: split_at_0 s'
  | [] => []
  end.

(** The local variable [used_usernames] of [search] is [None] while it is
    not bound. *)
Definition read_local {A} (local : option A) : result A :=
  match local with
  | Some a => Value a
  | None => Error UnboundLocalError
  end.

(** One round of the loop of [search], on the local variables
    [used_usernames] and [context]; every dictionary appended to [context]
    has one entry. *)
Definition search_body (key_option : KeyOption) (unique_names : bool)
    (used_usernames : option (gset pystr)) (context : list (key * pystr))
    (user : User)
  : option (result (option (gset pystr) * list (key * pystr))) :=
  let username := split_at_0 (user_email user) in
  let renamed :=
    if unique_names then
      match read_local used_usernames with
      | Value used =>
          if decide (username ∈ used) then next_username username used
          else Some (Value username)
      | Error e => Some (Error e)
      end
    else Some (Value username) in
  match renamed with
  | Some (Value username) =>
      match read_local used_usernames with
      | Value used =>
          let used := used ∪ {[ username ]} in
          let data :=
            match key_option with
            | ID => (KeyInt (user_pk user), username)
            | EMAIL => (KeyStr (user_email user), username)
            | ORIGINAL_USERNAME => (KeyStr (user_username user), username)
            end in
          Some (Value (Some used, context ++ [data]))
      | Error e => Some (Error e)
      end
  | Some (Error e) => Some (Error e)
  | None => None
  end.

Fixpoint search_loop (key_option : KeyOption) (unique_names : bool)
    (users : list User) (used_usernames : option (gset pystr))
    (context : list (key * pystr)) : option (result (list (key * pystr))) :=
  match users with
  | user :: users =>
      match search_body key_option unique_names used_usernames context user with
      | Some (Value (used_usernames, context)) =>
          search_loop key_option unique_names users used_usernames context
      | Some (Error e) => Some (Error e)
      | None => None
      end
  | [] => Some (Value context)
  end.

(** [InferUsernameFromEmail.search] *)
Definition search (users : list User) (key_option : KeyOption)
    (unique_names : bool) : option (result (list (key * pystr))) :=
  let context := [] in
  let used_usernames := if unique_names then Some ∅ else None in
  search_loop key_option unique_names users used_usernames context.

End WithLimit.

(** The names [next_username] tries for a [username] that is taken: the
    username with its number replaced by [k], or with [k] appended when it
    has no number; and the first number it tries. *)
Definition numbered (username : pystr) (k : N) : pystr :=
  match re_search username with
  | Some (before, _, rest) => before ++ decimal k ++ rest
  | None => username ++ decimal k
  end.

Definition first_number (username : pystr) : N :=
  match re_search username with
  | Some (_, match_0, _) => from_option (λ n, n + 1)%N 0%N (digits_value match_0)
  | None => 0
  end.

End InferUsername.

Module InferUsernameExamples.
Import InferUsername.

(** Three users whose addresses start alike, the third with a number that
    the second is given before. *)
Definition alice : pystr := list_ascii_of_string "alice".
Definition alice0 : pystr := list_ascii_of_string "alice0".
Definition alice1 : pystr := list_ascii_of_string "alice1".
Definition alice9 : pystr := list_ascii_of_string "alice9".
Definition alice10 : pystr := list_ascii_of_string "alice10".
Definition alice11 : pystr := list_ascii_of_string "alice11".

Definition user (k : Z) (name address : string) : User :=
  {| user_pk := k; user_username := list_ascii_of_string name;
     user_email := list_ascii_of_string address |}.

Definition three_users : list User :=
  [user 1 "a.smith" "alice@example.org";
   user 2 "asmith" "alice@example.com";
   user 3 "alice.s" "alice0@example.org"].

End InferUsernameExamples.

(** * Properties *)

(** ** The export permission test *)

Section ExportPermission.
Import ProjectExport.

Lemma get_object_or_404_Return db pk p :
  get_object_or_404 db pk = Return p → p ∈ projects db ∧ project_id p = pk.
Proof.
  unfold get_object_or_404.
  destruct (filter _ _) as [|q qs] eqn:Hf; [done|].
  intros [= ->].
  assert (Hin : p ∈ filter (λ p, project_id p = pk) (projects db))
    by (rewrite Hf; left).
  apply list_elem_of_filter in Hin. tauto.
Qed.

Lemma exists_true {A} (q : list A) : exists_ q = true ↔ ∃ x, x ∈ q.
Proof.
  destruct q as [|x q]; simpl; split; try done.
  - intros [x Hx]. by apply not_elem_of_nil in Hx.
  - intros _. exists x. left.
Qed.

(** C10. [ProjectExportView.test_func] grants access exactly when the
    requesting user is a superuser, or is the PI of the project being
    exported, or has a project-user row of that project with role Manager
    and status Active; for every other user it does not grant access. *)
Theorem test_func_grants_iff (db : DB) (user : User) (pk : Z) :
  grants_access (test_func db user pk) ↔
    is_superuser user = true
    ∨ ∃ project_obj, get_object_or_404 db pk = Return project_obj
        ∧ (project_pi project_obj = user_id user
           ∨ ∃ pu, pu ∈ projectusers db
               ∧ projectuser_project_id pu = project_id project_obj
               ∧ projectuser_user_id pu = user_id user
               ∧ projectuser_role pu = "Manager"
               ∧ projectuser_status pu = "Active").
Proof.
  unfold grants_access, test_func.
  destruct (is_superuser user) eqn:Hsu; [by split; [left|]|].
  destruct (get_object_or_404 db pk) as [p|e] eqn:Hget; simpl.
  - case_bool_decide as Hpi.
    { split; [|done]. intros _. right. exists p. by split; [|left]. }
    destruct (exists_ (manager_rows db p user)) eqn:Hex.
    + split; [|done]. intros _. right. exists p. split; [done|right].
      apply exists_true in Hex as [pu Hpu].
      apply list_elem_of_filter in Hpu. exists pu. tauto.
    + split; [done|]. intros [?|(q & [= <-] & [?|(pu & Hin & Hpu)])]; try done.
      assert (exists_ (manager_rows db p user) = true); [|congruence].
      apply exists_true. exists pu. apply list_elem_of_filter. tauto.
  - split; [done|]. by intros [?|(q & ? & _)].
Qed.

End ExportPermission.

(** ** Termination of the resource closure *)

Section ResourceClosure.
Import ProjectExport.
Implicit Types (db : DB) (all_ids : gset Z) (q : list Resource).

Lemma elem_of_resource_ids q id :
  id ∈ resource_ids q ↔ ∃ r, r ∈ q ∧ resource_id r = id.
Proof.
  unfold resource_ids. rewrite list_elem_of_fmap. naive_solver.
Qed.

Lemma filtered_ids_bounded db (P : Resource → Prop) `{!∀ r, Decision (P r)} :
  list_to_set (resource_ids (filter P (resources db))) ⊆ all_resource_ids db.
Proof.
  intros id. unfold all_resource_ids.
  rewrite !elem_of_list_to_set, !elem_of_resource_ids.
  intros (r & Hr & <-). apply list_elem_of_filter in Hr. naive_solver.
Qed.

Lemma for_body_grows db all_ids resource :
  all_ids ⊆ for_body db all_ids resource.
Proof. unfold for_body. set_solver. Qed.

Lemma for_body_bounded db all_ids resource :
  for_body db all_ids resource ⊆ all_ids ∪ all_resource_ids db.
Proof.
  unfold for_body, linked_resources_all, parent_resource_in.
  pose proof (filtered_ids_bounded db
                (λ r, resource_id r ∈ linked_resources resource)).
  pose proof (filtered_ids_bounded db
    (parent_resource__in
       (all_ids ∪ list_to_set
          (resource_ids (filter (λ r, resource_id r ∈ linked_resources resource)
                                (resources db)))))).
  set_solver.
Qed.

Lemma for_loop_grows db q all_ids :
  all_ids ⊆ foldl (for_body db) all_ids q.
Proof.
  revert all_ids. induction q as [|r q IH]; intros all_ids; simpl; [done|].
  etrans; [apply (for_body_grows db all_ids r)|apply IH].
Qed.

Lemma for_loop_bounded db q all_ids :
  foldl (for_body db) all_ids q ⊆ all_ids ∪ all_resource_ids db.
Proof.
  revert all_ids. induction q as [|r q IH]; intros all_ids; simpl; [set_solver|].
  pose proof (IH (for_body db all_ids r)).
  pose proof (for_body_bounded db all_ids r). set_solver.
Qed.

Lemma while_loop_enough_fuel db fuel q old_resource_set all_ids :
  all_ids ⊆ all_resource_ids db →
  (passes_left db old_resource_set all_ids ≤ fuel)%nat →
  is_Some (while_loop fuel db q old_resource_set all_ids).
Proof.
  revert q old_resource_set all_ids.
  induction fuel as [|fuel IH]; intros q old all_ids Hbound Hfuel;
    unfold passes_left in Hfuel; simpl; destruct (decide (old = all_ids)); eauto.
  - lia.
  - apply IH.
    + pose proof (for_loop_bounded db q all_ids). set_solver.
    + unfold passes_left. case_decide as Heq.
      * rewrite <-Heq. lia.
      * assert (all_resource_ids db ∖ foldl (for_body db) all_ids q
                ⊂ all_resource_ids db ∖ all_ids) as Hlt%subset_size; [|lia].
        pose proof (for_loop_grows db q all_ids) as Hgrow.
        pose proof (for_loop_bounded db q all_ids) as Hb.
        apply strict_spec_alt. split; [set_solver|].
        intros Heq'. apply Heq. apply set_eq. intros x. split; [set_solver|].
        intros Hx. destruct (decide (x ∈ all_ids)); [done|].
        assert (x ∈ all_resource_ids db ∖ all_ids) as Hx' by set_solver.
        rewrite <-Heq' in Hx'. set_solver.
Qed.

Lemma while_loop_more_fuel db fuel extra q old_resource_set all_ids res :
  while_loop fuel db q old_resource_set all_ids = Some res →
  while_loop (extra + fuel) db q old_resource_set all_ids = Some res.
Proof.
  revert q old_resource_set all_ids.
  induction fuel as [|fuel IH]; intros q old all_ids; simpl.
  - destruct (decide (old = all_ids)) as [Heq|]; [|done].
    intros <-. destruct extra; simpl; by rewrite decide_True.
  - replace (extra + S fuel)%nat with (S (extra + fuel)) by lia. simpl.
    destruct (decide (old = all_ids)); [done|]. apply IH.
Qed.

Lemma size_list_to_set_le (l : list Z) :
  (size (list_to_set l : gset Z) ≤ length l)%nat.
Proof.
  induction l as [|x l IH].
  - by rewrite list_to_set_nil, size_empty.
  - rewrite list_to_set_cons, size_union_alt, size_singleton. simpl.
    assert (size (list_to_set l ∖ {[x]} : gset Z) ≤ size (list_to_set l : gset Z))%nat
      by (apply subseteq_size; set_solver).
    lia.
Qed.

Lemma size_all_resource_ids db :
  (size (all_resource_ids db) ≤ length (resources db))%nat.
Proof.
  unfold all_resource_ids, resource_ids.
  etrans; [apply size_list_to_set_le|]. by rewrite length_fmap.
Qed.

Lemma initial_ids_bounded db proj_alloc :
  list_to_set (resource_ids (resources_of_allocations db proj_alloc))
    ⊆ all_resource_ids db.
Proof. apply filtered_ids_bounded. Qed.

Lemma get_resource_query_Some db proj_alloc :
  ∃ resource_query,
    _get_resource_query db proj_alloc = Some resource_query
    ∧ ∀ extra : nat,
        _get_resource_query_fuel (extra + S (S (length (resources db))))
                                 db proj_alloc
        = Some resource_query.
Proof.
  unfold _get_resource_query, _get_resource_query_fuel.
  destruct (while_loop_enough_fuel db (S (S (length (resources db))))
              (resources_of_allocations db proj_alloc) ∅
              (list_to_set (resource_ids (resources_of_allocations db proj_alloc))))
    as [res Hres].
  - apply initial_ids_bounded.
  - unfold passes_left.
    pose proof (size_all_resource_ids db).
    pose proof (subseteq_size
                  (all_resource_ids db
                     ∖ list_to_set (resource_ids
                                      (resources_of_allocations db proj_alloc)))
                  (all_resource_ids db)) as Hsz.
    assert (all_resource_ids db
              ∖ list_to_set (resource_ids (resources_of_allocations db proj_alloc))
            ⊆ all_resource_ids db) as Hsub%Hsz by set_solver.
    case_decide; lia.
  - exists res. split; [done|]. intros extra.
    by apply while_loop_more_fuel.
Qed.

(** C7. The [while] loop of [_get_resource_query] terminates for every
    database state: a pass of the [for] loop only adds ids to [all_ids], the
    ids it adds are ids of resource rows, the initial [all_ids] are ids of
    resource rows, and the loop reaches its exit test
    ([old_resource_set == all_ids]) within two more passes than there are
    resources, whatever further number of passes is allowed. *)
Theorem get_resource_query_terminates (db : DB) (proj_alloc : list Allocation) :
  (∀ all_ids q,
      all_ids ⊆ foldl (for_body db) all_ids q
      ∧ foldl (for_body db) all_ids q ⊆ all_ids ∪ all_resource_ids db)
  ∧ list_to_set (resource_ids (resources_of_allocations db proj_alloc))
      ⊆ all_resource_ids db
  ∧ ∃ resource_query,
      _get_resource_query db proj_alloc = Some resource_query
      ∧ ∀ extra : nat,
          _get_resource_query_fuel (extra + S (S (length (resources db))))
                                   db proj_alloc
          = Some resource_query.
Proof.
  split; [|split].
  - intros all_ids q. split; [apply for_loop_grows|apply for_loop_bounded].
  - apply initial_ids_bounded.
  - apply get_resource_query_Some.
Qed.

End ResourceClosure.

(** ** What the export view serializes *)

Section ExportClosure.
Import ProjectExport.
Implicit Types (db : DB) (all_ids : gset Z) (q : list Resource).

Lemma elem_of_all_ids_of q id :
  id ∈ (list_to_set (resource_ids q) : gset Z) ↔ ∃ r, r ∈ q ∧ resource_id r = id.
Proof. by rewrite elem_of_list_to_set, elem_of_resource_ids. Qed.

Lemma NoDup_resource_eq db r r' :
  NoDup (resource_ids (resources db)) →
  r ∈ resources db → r' ∈ resources db → resource_id r = resource_id r' → r = r'.
Proof.
  unfold resource_ids. induction (resources db) as [|y T IH]; simpl;
    [by intros _ ?%not_elem_of_nil|].
  rewrite NoDup_cons, !elem_of_cons. intros [Hy HT] [->|Hx] [->|Hx'] Hk; auto.
  - exfalso. apply Hy. rewrite Hk. apply list_elem_of_fmap. eauto.
  - exfalso. apply Hy. rewrite <-Hk. apply list_elem_of_fmap. eauto.
Qed.

Lemma parent_resource_in_mono db all_ids all_ids' x :
  all_ids ⊆ all_ids' → x ∈ parent_resource_in db all_ids →
  x ∈ parent_resource_in db all_ids'.
Proof.
  unfold parent_resource_in. rewrite !list_elem_of_filter.
  unfold parent_resource__in. destruct (parent_resource x); set_solver.
Qed.

(** One pass of the [for] loop adds the linked resources of the rows it
    visits and, if it visits any row, the rows whose parent was selected
    when the pass began. *)
Lemma for_loop_adds db q all_ids :
  (∀ r x, r ∈ q → x ∈ linked_resources_all db r →
          resource_id x ∈ foldl (for_body db) all_ids q)
  ∧ (q ≠ [] → ∀ x, x ∈ parent_resource_in db all_ids →
               resource_id x ∈ foldl (for_body db) all_ids q).
Proof.
  revert all_ids. induction q as [|r0 q IH]; intros all_ids.
  { split; [by intros r x ?%not_elem_of_nil|done]. }
  simpl. destruct (IH (for_body db all_ids r0)) as [IH1 IH2].
  pose proof (for_loop_grows db q (for_body db all_ids r0)) as Hgrow.
  split.
  - intros r x [->|Hr]%elem_of_cons Hx; [|by eapply IH1].
    apply Hgrow. unfold for_body. rewrite !elem_of_union, !elem_of_all_ids_of.
    left. right. eauto.
  - intros _ x Hx. apply Hgrow. unfold for_body.
    rewrite elem_of_union, !elem_of_all_ids_of. right. exists x. split; [|done].
    eapply parent_resource_in_mono; [|done]. set_solver.
Qed.

Lemma selects_nil db all_ids : selects db [] all_ids → all_ids = ∅.
Proof.
  intros [Hb Hq]. apply set_eq. intros id. split; [|set_solver].
  intros Hid. pose proof (Hb id Hid) as (r & Hr & <-)%elem_of_all_ids_of.
  assert (r ∈ ([] : list Resource)) as ?%not_elem_of_nil by (by apply Hq). done.
Qed.

Lemma while_loop_closed db fuel q old_resource_set all_ids res :
  selects db q all_ids →
  (old_resource_set = all_ids → closed db all_ids) →
  while_loop fuel db q old_resource_set all_ids = Some res →
  ∃ all_ids', all_ids ⊆ all_ids' ∧ selects db res all_ids' ∧ closed db all_ids'.
Proof.
  revert q old_resource_set all_ids.
  induction fuel as [|fuel IH]; intros q old all_ids Hsel Hclosed; simpl;
    destruct (decide (old = all_ids)) as [Heq|Hne]; try done.
  - intros [= <-]. exists all_ids. auto.
  - intros [= <-]. exists all_ids. auto.
  - set (all_ids' := foldl (for_body db) all_ids q).
    pose proof (for_loop_grows db q all_ids) as Hgrow.
    pose proof (for_loop_bounded db q all_ids) as Hbound.
    destruct (for_loop_adds db q all_ids) as [Hlinked Hchildren].
    fold all_ids' in Hgrow, Hbound, Hlinked, Hchildren.
    destruct Hsel as [Hb Hq].
    intros Hrun. apply IH in Hrun as (fin & Hsub & Hres & Hfin).
    + exists fin. split; [set_solver|done].
    + destruct q as [|r0 q'] eqn:Hqeq.
      * simpl in all_ids'. subst all_ids'. by split.
      * split; [set_solver|]. intros r. unfold resource_pk_in.
        rewrite list_elem_of_filter. tauto.
    + intros Hfix. split.
      * intros r x Hr Hid Hx. rewrite <-Hfix in Hid.
        eapply Hlinked; [|done]. apply Hq. done.
      * intros x Hx. destruct q as [|r0 q'] eqn:Hqeq.
        { assert (all_ids = ∅) as Hempty by (by apply (selects_nil db)).
          simpl in all_ids'. subst all_ids'. rewrite Hempty in Hx.
          unfold parent_resource_in, parent_resource__in in Hx.
          apply list_elem_of_filter in Hx as [Hx _].
          destruct (parent_resource x); set_solver. }
        apply Hchildren; [done|]. by rewrite Hfix.
Qed.

(** The resources [_get_resource_query] returns: the rows whose id is in a
    set that holds the ids of the resources of [proj_alloc] and is closed
    under linked resources and under rows whose parent is in the set. *)
Lemma get_resource_query_closed db proj_alloc :
  NoDup (resource_ids (resources db)) →
  ∃ proj_resources all_ids,
    _get_resource_query db proj_alloc = Some proj_resources
    ∧ selects db proj_resources all_ids
    ∧ closed db all_ids
    ∧ ∀ r, r ∈ resources_of_allocations db proj_alloc → r ∈ proj_resources.
Proof.
  intros Hnd.
  destruct (get_resource_query_Some db proj_alloc) as (res & Hres & _).
  pose proof Hres as Hrun.
  unfold _get_resource_query, _get_resource_query_fuel in Hrun.
  apply while_loop_closed in Hrun as (fin & Hsub & Hsel & Hclosed).
  - exists res, fin. split; [done|]. split; [done|]. split; [done|].
    intros r Hr. apply Hsel.
    split; [by apply list_elem_of_filter in Hr as [_ ?]|].
    apply Hsub, elem_of_all_ids_of. eauto.
  - split; [apply initial_ids_bounded|]. intros r. rewrite elem_of_all_ids_of. split.
    + intros Hr. split; [by apply list_elem_of_filter in Hr as [_ ?]|eauto].
    + intros [Hr (r' & Hr' & Hid)].
      assert (r' = r) as <-; [|done].
      apply (NoDup_resource_eq db); [done| |done|done].
      by apply list_elem_of_filter in Hr' as [_ ?].
  - intros Hempty. split.
    + intros r x _ Hid. rewrite <-Hempty in Hid. set_solver.
    + intros x Hx. rewrite <-Hempty in Hx.
      unfold parent_resource_in, parent_resource__in in Hx.
      apply list_elem_of_filter in Hx as [Hx _].
      destruct (parent_resource x); set_solver.
Qed.

End ExportClosure.

Section ExportDocument.
Import ProjectExport.

Lemma elem_of_allocation_in {A} (allocation_of : A → Z) proj_alloc (rows : list A) x :
  x ∈ allocation_in allocation_of proj_alloc rows
  ↔ x ∈ rows ∧ ∃ a, a ∈ proj_alloc ∧ allocation_of x = allocation_id a.
Proof.
  unfold allocation_in. rewrite list_elem_of_filter, list_elem_of_fmap. naive_solver.
Qed.

Lemma elem_of_project_id_is {A} (project_of : A → Z) p_id (rows : list A) x :
  x ∈ project_id_is project_of p_id rows ↔ x ∈ rows ∧ project_of x = p_id.
Proof. unfold project_id_is. rewrite list_elem_of_filter. naive_solver. Qed.

Lemma elem_of_concat_fmap {A} (f : A → list Z) (l : list A) (z : Z) :
  z ∈ concat (f <$> l) ↔ ∃ x, x ∈ l ∧ z ∈ f x.
Proof.
  rewrite list_elem_of_In, in_concat. split.
  - intros (zs & Hzs%list_elem_of_In%list_elem_of_fmap & Hz%list_elem_of_In).
    destruct Hzs as (x & -> & ?). eauto.
  - intros (x & Hx & Hz). exists (f x). split.
    + apply list_elem_of_In, list_elem_of_fmap. eauto.
    + by apply list_elem_of_In.
Qed.

(** What [ProjectExportView.dispatch] serializes for a project whose status
    is Active or New, in a database whose resource ids are unique: the
    project; its allocations with their users, attributes, change requests
    and notes; its project users, publications, grants, admin comments, user
    messages, reviews and research outputs; the users who are project users,
    allowed users of an exported resource or authors of an exported note,
    with their profiles; the groups allowed on an exported resource; and
    resources that include those of the allocations, the resources linked
    to an exported resource, and the resources whose parent is an exported
    resource. *)
Lemma dispatch_exports db p_id project_obj :
  NoDup (resource_ids (resources db)) →
  get_object_or_404 db p_id = Return project_obj →
  project_status project_obj ∈ ["Active"; "New"] →
  ∃ doc,
    dispatch db p_id = Some (Return (JsonResponse doc))
    ∧ (∀ p, p ∈ projects db → project_id p = p_id → p ∈ doc_project doc)
    ∧ (∀ a, a ∈ allocations db → allocation_project_id a = p_id →
            a ∈ doc_allocations doc)
    ∧ (∀ a x, a ∈ doc_allocations doc → ac_allocation_id x = allocation_id a →
         (x ∈ allocationusers db → x ∈ doc_allocationusers doc)
         ∧ (x ∈ allocationattributes db → x ∈ doc_allocationattributes doc)
         ∧ (x ∈ allocationchangerequests db →
            x ∈ doc_allocationchangerequests doc))
    ∧ (∀ a n, a ∈ doc_allocations doc → note_allocation_id n = allocation_id a →
         (n ∈ allocationadminnotes db → n ∈ doc_allocationadminnotes doc)
         ∧ (n ∈ allocationusernotes db → n ∈ doc_allocationusernotes doc))
    ∧ (∀ pu, pu ∈ projectusers db → projectuser_project_id pu = p_id →
             pu ∈ doc_projectusers doc)
    ∧ (∀ x, pc_project_id x = p_id →
         (x ∈ publications db → x ∈ doc_publications doc)
         ∧ (x ∈ grants db → x ∈ doc_grants doc)
         ∧ (x ∈ projectadmincomments db → x ∈ doc_projectadmincomments doc)
         ∧ (x ∈ projectusermessages db → x ∈ doc_projectusermessages doc)
         ∧ (x ∈ projectreviews db → x ∈ doc_projectreviews doc)
         ∧ (x ∈ researchoutputs db → x ∈ doc_researchoutputs doc))
    ∧ (∀ u, u ∈ users db →
         (∃ pu, pu ∈ doc_projectusers doc ∧ projectuser_user_id pu = user_id u)
         ∨ (∃ r, r ∈ doc_resources doc ∧ user_id u ∈ allowed_users r)
         ∨ (∃ n, (n ∈ doc_allocationadminnotes doc
                  ∨ n ∈ doc_allocationusernotes doc)
                 ∧ note_author_id n = user_id u) →
         u ∈ doc_users doc)
    ∧ (∀ up u, up ∈ userprofiles db → u ∈ doc_users doc →
               userprofile_user_id up = user_id u → up ∈ doc_userprofiles doc)
    ∧ (∀ g r, g ∈ groups db → r ∈ doc_resources doc →
              group_id g ∈ allowed_groups r → g ∈ doc_groups doc)
    ∧ (∀ a r, a ∈ doc_allocations doc → r ∈ resources db →
              resource_id r ∈ allocation_resources a → r ∈ doc_resources doc)
    ∧ (∀ r x, r ∈ doc_resources doc → x ∈ resources db →
              resource_id x ∈ linked_resources r → x ∈ doc_resources doc)
    ∧ (∀ r x, r ∈ doc_resources doc → x ∈ resources db →
              parent_resource x = Some (resource_id r) → x ∈ doc_resources doc).
Proof.
  intros Hnd Hget Hstatus. unfold dispatch. rewrite Hget.
  rewrite bool_decide_false by (by intros ?).
  set (proj_alloc := project_id_is allocation_project_id p_id (allocations db)).
  destruct (get_resource_query_closed db proj_alloc Hnd)
    as (res & all_ids & -> & [Hb Hsel] & [Hlinked Hchildren] & Hinit).
  eexists. split; [reflexivity|]. cbn [doc_project doc_users doc_userprofiles
    doc_groups doc_projectusers doc_publications doc_grants doc_resources
    doc_allocations doc_allocationusers doc_allocationattributes
    doc_allocationchangerequests doc_allocationadminnotes
    doc_allocationusernotes doc_projectadmincomments doc_projectusermessages
    doc_projectreviews doc_researchoutputs].
  split_and!.
  - intros p ? ?. by apply list_elem_of_filter.
  - intros a ? ?. by apply elem_of_project_id_is.
  - intros a x Ha Hx. split_and!; intros ?; apply elem_of_allocation_in; eauto.
  - intros a n Ha Hn. split_and!; intros ?; apply elem_of_allocation_in; eauto.
  - intros pu ? ?. by apply elem_of_project_id_is.
  - intros x Hx. split_and!; intros ?; by apply elem_of_project_id_is.
  - intros u Hu Hcase. apply list_elem_of_filter. split; [|done].
    rewrite elem_of_list_to_set, !elem_of_app, elem_of_elements,
      elem_of_list_to_set, elem_of_concat_fmap, !list_elem_of_fmap.
    destruct Hcase as [(pu & ? & ?)|[(r & ? & ?)|(n & [?|?] & ?)]]; eauto 10.
  - intros up u Hup Hu Heq. apply list_elem_of_filter. split; [|done].
    rewrite Heq. by apply list_elem_of_filter in Hu as [? _].
  - intros g r Hg Hr Hin. apply list_elem_of_filter. split; [|done].
    rewrite elem_of_list_to_set, elem_of_concat_fmap. eauto.
  - intros a r Ha Hr Hin. apply Hinit. unfold resources_of_allocations.
    apply list_elem_of_filter. split; [|done]. apply Exists_exists. eauto.
  - intros r x Hr Hx Hin. apply Hsel in Hr as [Hr Hid]. apply Hsel.
    split; [done|]. apply (Hlinked r x Hr Hid). unfold linked_resources_all.
    by apply list_elem_of_filter.
  - intros r x Hr Hx Hparent. apply Hsel in Hr as [Hr Hid]. apply Hsel.
    split; [done|]. apply Hchildren. unfold parent_resource_in.
    apply list_elem_of_filter. split; [|done].
    unfold parent_resource__in. by rewrite Hparent.
Qed.

End ExportDocument.

Section ExportContents.
Import ProjectExport ExportExamples.

(** C5, evaluated on a project whose allocation uses a resource that has a
    parent: the exported document holds the allocation and its resource,
    but not the parent resource the exported resource points to. The loop
    of [_get_resource_query] adds the rows whose [parent_resource] is
    already selected (the children), not the parents. *)
Theorem export_omits_parent_resource :
  ∃ doc, dispatch db 1 = Some (Return (JsonResponse doc))
         ∧ doc_allocations doc = [allocation_1]
         ∧ doc_resources doc = [partition]
         ∧ parent_resource partition = Some (resource_id cluster)
         ∧ cluster ∈ resources db
         ∧ cluster ∉ doc_resources doc.
Proof.
  eexists. split; [vm_compute; reflexivity|].
  split; [reflexivity|]. split; [reflexivity|]. split; [reflexivity|].
  split; [left|]. cbn [doc_resources].
  intros Hin. apply list_elem_of_singleton in Hin. discriminate Hin.
Qed.

End ExportContents.

(** ** The merge view *)

Section Upsert.
Import ProjectMerge.
Context {A : Type} (key : A → Z).
Implicit Types (row x : A) (T : list A).






Lemma NoDup_key_eq T x y :
  NoDup (key <$> T) → x ∈ T → y ∈ T → key x = key y → x = y.
Proof.
  induction T as [|z T IH]; simpl; [by intros _ ?%not_elem_of_nil|].
  rewrite NoDup_cons, !elem_of_cons. intros [Hz HT] [->|Hx] [->|Hy] Hk; auto.
  - exfalso. apply Hz. rewrite Hk. apply list_elem_of_fmap. eauto.
  - exfalso. apply Hz. rewrite <-Hk. apply list_elem_of_fmap. eauto.
Qed.

End Upsert.

Section Merge.
Import ProjectMerge.
Variable violates : model → DB → Row → bool.
Variable now : Z.
Implicit Types (db : DB) (m : model) (r x : Row) (T : list Row).




















End Merge.


Section MergeEx.
Import ProjectMerge MergeExamples.


End MergeEx.

(** ** The import view: Step 2 *)

Section ImportStep2.
Import ProjectImport.
Variable model_to_dict : Model → gmap string value.
Variable meta_fields : Model → list Field.
Local Abbreviation _same_obj_exists := (_same_obj_exists model_to_dict meta_fields).
Local Abbreviation scan_cur_obj := (scan_cur_obj model_to_dict meta_fields).
Local Abbreviation assign_pk := (assign_pk model_to_dict meta_fields).
Local Abbreviation assign_pks := (assign_pks model_to_dict meta_fields).
Local Abbreviation deduplicated := (deduplicated model_to_dict meta_fields).
Local Abbreviation shares_unique_value := (shares_unique_value model_to_dict meta_fields).
Local Abbreviation assigned := (assigned model_to_dict meta_fields).
Local Abbreviation group_assigned := (group_assigned model_to_dict meta_fields).
Local Abbreviation step2_from := (step2_from model_to_dict meta_fields).
Local Abbreviation step2 := (step2 model_to_dict meta_fields).
Local Abbreviation comparable := (comparable model_to_dict meta_fields).
Implicit Types (db : DB) (key : string) (obj : DeserializedObject)
  (cur : Model) (ps : pk_state).

Lemma any_equal_true cur_vals new_vals keys :
  any_equal cur_vals new_vals keys = Return true →
  ∃ key v, key ∈ keys ∧ cur_vals !! key = Some v ∧ new_vals !! key = Some v.
Proof.
  induction keys as [|key keys IH]; simpl; [done|].
  destruct (cur_vals !! key) as [c|] eqn:Hc, (new_vals !! key) as [n|] eqn:Hn;
    try done.
  destruct (decide (c = n)) as [->|Hne].
  - intros _. exists key, n. split; [left|done].
  - intros (k & v & Hk & ?)%IH. exists k, v. split; [by right|done].
Qed.

Lemma any_equal_complete cur_vals new_vals keys :
  (∀ key, key ∈ keys → is_Some (cur_vals !! key) ∧ is_Some (new_vals !! key)) →
  ∃ b, any_equal cur_vals new_vals keys = Return b
       ∧ ((∃ key v, key ∈ keys ∧ cur_vals !! key = Some v
                    ∧ new_vals !! key = Some v) → b = true).
Proof.
  induction keys as [|key keys IH]; intros Hkeys; simpl.
  { exists false. split; [done|]. intros (k & v & ?%not_elem_of_nil & _). done. }
  destruct (Hkeys key) as [[c Hc] [n Hn]]; [left|]. rewrite Hc, Hn.
  destruct (decide (c = n)) as [->|Hne]; [by exists true|].
  destruct IH as (b & Hb & Htrue); [by intros; apply Hkeys; right|].
  exists b. split; [done|].
  intros (k & v & [->|Hk]%elem_of_cons & Hck & Hnk); [congruence|].
  apply Htrue. eauto.
Qed.

(** [_same_obj_exists] answers [True] exactly when the two records share a
    value on a unique field other than id, provided [model_to_dict] covers
    those fields. *)
Lemma same_obj_exists_spec cur new :
  (∀ f, f ∈ meta_fields cur → unique f = true → name f ≠ "id" →
        is_Some (model_to_dict cur !! name f)
        ∧ is_Some (model_to_dict new !! name f)) →
  ∃ b, _same_obj_exists cur new = Return b
       ∧ (b = true ↔ shares_unique_value cur new).
Proof.
  intros Hcov. unfold ProjectImport._same_obj_exists, ProjectImport.shares_unique_value.
  set (keys := name <$> filter _ (meta_fields cur)).
  assert (Hkeys : ∀ key, key ∈ keys ↔ ∃ f, f ∈ meta_fields cur ∧ unique f = true
                                          ∧ name f ≠ "id" ∧ key = name f).
  { intros key. unfold keys. rewrite list_elem_of_fmap.
    split; intros (f & Hf1 & Hf2).
    - apply list_elem_of_filter in Hf2. exists f. tauto.
    - exists f. split; [tauto|]. apply list_elem_of_filter. tauto. }
  destruct (any_equal_complete (model_to_dict cur) (model_to_dict new) keys)
    as (b & Hb & Htrue).
  { intros key (f & ? & ? & ? & ->)%Hkeys. by apply Hcov. }
  exists b. split; [done|]. split.
  - intros ->. apply any_equal_true in Hb as (key & v & (f & ? & ? & ? & ->)%Hkeys & ? & ?).
    exists f, v. done.
  - intros (f & v & ? & ? & ? & ? & ?). apply Htrue. exists (name f), v.
    split; [|done]. apply Hkeys. exists f. done.
Qed.

(** One turn of the inner loop of Step 2. *)
Lemma scan_cur_obj_spec key obj ab ps cur :
  ((key ∉ duplicate_model_keys) →
   ∃ b, _same_obj_exists cur (object obj) = Return b) →
  ((key ∉ duplicate_model_keys)
   ∧ _same_obj_exists cur (object obj) = Return true
   ∧ scan_cur_obj key obj (ab, ps) cur
     = Return (true,
               {| new_pk := new_pk ps;
                  translations := <[pk (object obj) := pk cur]> (translations ps) |}))
  ∨ (¬ ((key ∉ duplicate_model_keys)
        ∧ _same_obj_exists cur (object obj) = Return true)
     ∧ ∃ ps1, scan_cur_obj key obj (ab, ps) cur = Return (ab, ps1)
              ∧ new_pk ps ≤ new_pk ps1 ∧ pk cur ≤ new_pk ps1
              ∧ translations ps1 = translations ps).
Proof.
  intros Hret. unfold ProjectImport.scan_cur_obj.
  destruct (bool_decide_reflect (key ∉ duplicate_model_keys)) as [Hkey|Hkey].
  - destruct (Hret Hkey) as [[] Hb]; rewrite Hb; simpl.
    + by left.
    + right. split; [by intros [_ [=]]|].
      case_bool_decide; eexists; (split; [reflexivity|]); simpl; repeat split; lia.
  - simpl. right. split; [by intros [? _]|].
    case_bool_decide; eexists; (split; [reflexivity|]); simpl; repeat split; lia.
Qed.

(** The inner loop of Step 2 over the existing rows [curs]. *)
Lemma scan_spec key obj curs ab ps :
  ((key ∉ duplicate_model_keys) →
   ∀ cur, cur ∈ curs → ∃ b, _same_obj_exists cur (object obj) = Return b) →
  ∃ ab' ps',
    for_each (scan_cur_obj key obj) curs (ab, ps) = Return (ab', ps')
    ∧ new_pk ps ≤ new_pk ps'
    ∧ ((((key ∉ duplicate_model_keys)
         ∧ ∃ cur, cur ∈ curs ∧ _same_obj_exists cur (object obj) = Return true)
        ∧ ab' = true
        ∧ ∃ cur, cur ∈ curs
            ∧ translations ps'
              = <[pk (object obj) := pk cur]> (translations ps))
       ∨ (¬ ((key ∉ duplicate_model_keys)
             ∧ ∃ cur, cur ∈ curs
                 ∧ _same_obj_exists cur (object obj) = Return true)
          ∧ ab' = ab
          ∧ translations ps' = translations ps
          ∧ ∀ cur, cur ∈ curs → pk cur ≤ new_pk ps')).
Proof.
  revert ab ps. induction curs as [|cur curs IH]; intros ab ps Hret.
  { exists ab, ps. split; [done|]. split; [lia|]. right.
    split; [by intros (_ & c & ?%not_elem_of_nil & _)|].
    split; [done|]. split; [done|]. by intros c ?%not_elem_of_nil. }
  cbn [for_each].
  assert (Htail : (key ∉ duplicate_model_keys) →
                  ∀ c, c ∈ curs → ∃ b, _same_obj_exists c (object obj) = Return b)
    by (intros ? c ?; apply Hret; [done|by right]).
  destruct (scan_cur_obj_spec key obj ab ps cur) as
    [(Hkey & Hcur & ->)|(Hno & ps1 & -> & Hle1 & Hmax1 & Htr1)].
  { intros ?. apply Hret; [done|left]. }
  - simpl.
    destruct (IH true {| new_pk := new_pk ps;
                         translations := <[pk (object obj) := pk cur]> (translations ps) |}
                Htail)
      as (ab' & ps' & Hfor & Hle & Hcase).
    exists ab', ps'. split; [done|]. split; [done|]. left. simpl in *.
    split; [split; [done|]; exists cur; split; [left|done]|].
    destruct Hcase as [(_ & -> & c & Hc & ->)|(_ & -> & -> & _)].
    + split; [done|]. exists c. split; [by right|]. by rewrite insert_insert_eq.
    + split; [done|]. exists cur. split; [left|done].
  - simpl.
    destruct (IH ab ps1 Htail) as (ab' & ps' & Hfor & Hle & Hcase).
    exists ab', ps'. split; [done|]. split; [lia|].
    destruct Hcase as [((Hkey & c & Hc & Hcs) & -> & c' & Hc' & ->)
                      |(Hnone & -> & -> & Hmax)].
    + left. split; [split; [done|]; exists c; split; [by right|done]|].
      split; [done|]. exists c'. split; [by right|]. by rewrite Htr1.
    + right. split.
      { intros (Hkey & c & [->|Hc]%elem_of_cons & Hcs); [by apply Hno|].
        apply Hnone. eauto. }
      split; [done|]. split; [done|].
      intros c [->|Hc]%elem_of_cons; [lia|by apply Hmax].
Qed.

(** One turn of the loop over the objects of [key]. *)
Lemma assign_pk_spec db key ps obj :
  ((key ∉ duplicate_model_keys) →
   ∀ cur, cur ∈ objects_all db (model_label (object obj)) →
          ∃ b, _same_obj_exists cur (object obj) = Return b) →
  (deduplicated db key obj
   ∧ ∃ cur ps', cur ∈ objects_all db (model_label (object obj))
       ∧ assign_pk db key ps obj = Return (ps', obj)
       ∧ new_pk ps ≤ new_pk ps'
       ∧ translations ps' = <[pk (object obj) := pk cur]> (translations ps))
  ∨ (¬ deduplicated db key obj
     ∧ ∃ new,
         assign_pk db key ps obj
         = Return ({| new_pk := new;
                      translations := <[pk (object obj) := new]> (translations ps) |},
                   set_pk new obj)
         ∧ new_pk ps < new
         ∧ ∀ cur, cur ∈ objects_all db (model_label (object obj)) → pk cur < new).
Proof.
  intros Hret. unfold ProjectImport.assign_pk.
  destruct (scan_spec key obj (objects_all db (model_label (object obj))) false ps Hret)
    as (ab' & ps' & -> & Hle & [(Hded & -> & cur & Hcur & Htr)|(Hno & -> & Htr & Hmax)]);
    simpl.
  - left. split; [done|]. exists cur, ps'. done.
  - right. split; [done|]. exists (new_pk ps' + 1). rewrite Htr.
    split; [done|]. split; [lia|]. intros cur Hcur. specialize (Hmax cur Hcur). lia.
Qed.

Lemma last_with_pk_head obj objs :
  last_with_pk (obj :: objs) 0 obj →
  pk (object obj) ∉ (λ o, pk (object o)) <$> objs.
Proof.
  intros Hlast (o & Ho & [j Hj]%list_elem_of_lookup)%list_elem_of_fmap.
  apply (Hlast (S j) o); [lia|done|done].
Qed.

Lemma last_with_pk_tail obj0 objs i obj :
  last_with_pk (obj0 :: objs) (S i) obj → last_with_pk objs i obj.
Proof. intros Hlast j o Hj Ho. apply (Hlast (S j) o); [lia|done]. Qed.

Lemma assigned_tail db key obj0 objs new_pk0 new_pk1 tbl i obj obj' :
  new_pk0 ≤ new_pk1 →
  assigned db key objs new_pk1 tbl i obj obj' →
  assigned db key (obj0 :: objs) new_pk0 tbl (S i) obj obj'.
Proof.
  intros Hle [(Hded & -> & Htbl)|(Hno & Hobj' & Hnew & Hmax & Htbl)].
  - left. split; [done|]. split; [done|]. intros ?%last_with_pk_tail. auto.
  - right. split; [done|]. split; [done|]. split; [lia|]. split; [done|].
    intros ?%last_with_pk_tail. auto.
Qed.

(** The loop over the objects of [key]: it ends, and every object has been
    dealt with as [assigned] says. *)
Lemma assign_pks_spec db key objs ps :
  (∀ obj, obj ∈ objs → (key ∉ duplicate_model_keys) →
     ∀ cur, cur ∈ objects_all db (model_label (object obj)) →
            ∃ b, _same_obj_exists cur (object obj) = Return b) →
  ∃ ps' objs',
    assign_pks db key ps objs = Return (ps', objs')
    ∧ new_pk ps ≤ new_pk ps'
    ∧ length objs' = length objs
    ∧ (∀ k, k ∉ (λ o, pk (object o)) <$> objs →
            translations ps' !! k = translations ps !! k)
    ∧ (∀ k, k ∈ (λ o, pk (object o)) <$> objs → is_Some (translations ps' !! k))
    ∧ (∀ i obj, objs !! i = Some obj →
         ∃ obj', objs' !! i = Some obj'
                 ∧ assigned db key objs (new_pk ps) (translations ps') i obj obj'
                 ∧ attrs (object obj') = attrs (object obj)
                 ∧ m2m_data obj' = m2m_data obj
                 ∧ (¬ deduplicated db key obj → pk (object obj') ≤ new_pk ps')).
Proof.
  revert ps. induction objs as [|obj objs IH]; intros ps Hret.
  { exists ps, []. split; [done|]. split; [lia|]. split; [done|]. split; [done|].
    split; [by intros k ?%not_elem_of_nil|]. by intros i o ?. }
  cbn [ProjectImport.assign_pks].
  assert (Hret' : ∀ o, o ∈ objs → (key ∉ duplicate_model_keys) →
            ∀ cur, cur ∈ objects_all db (model_label (object o)) →
                   ∃ b, _same_obj_exists cur (object o) = Return b)
    by (intros o ?; apply Hret; by right).
  destruct (assign_pk_spec db key ps obj) as
    [(Hded & cur & ps1 & Hcur & -> & Hle1 & Htr1)|(Hno & new & -> & Hnew & Hmax)];
    [by apply Hret; left| |]; simpl.
  - destruct (IH ps1 Hret') as (ps' & objs' & -> & Hle & Hlen & Hframe & Hdom & Hidx).
    simpl. exists ps', (obj :: objs'). split; [done|]. split; [lia|].
    split; [simpl; by rewrite Hlen|].
    assert (Hhead : pk (object obj) ∉ (λ o, pk (object o)) <$> objs →
                    translations ps' !! pk (object obj) = Some (pk cur)).
    { intros Hnotin. by rewrite Hframe, Htr1, lookup_insert_eq. }
    split; [|split].
    + intros k [Hk1 Hk2]%not_elem_of_cons.
      by rewrite Hframe, Htr1, lookup_insert_ne.
    + intros k Hk.
      destruct (decide (k ∈ (λ o, pk (object o)) <$> objs)) as [|Hnotin]; [by apply Hdom|].
      apply elem_of_cons in Hk as [->|?]; [|done]. rewrite Hhead; eauto.
    + intros [|i] o Ho; simplify_eq/=.
      * exists o. split; [done|]. split; [|done]. left. split; [done|]. split; [done|].
        intros Hlast%last_with_pk_head. eauto.
      * destruct (Hidx i o Ho) as (o' & Ho' & Hass & ? & ? & ?).
        exists o'. split; [done|]. split; [|done]. by eapply assigned_tail.
  - destruct (IH {| new_pk := new;
                    translations := <[pk (object obj) := new]> (translations ps) |}
                Hret')
      as (ps' & objs' & -> & Hle & Hlen & Hframe & Hdom & Hidx).
    simpl in *. exists ps', (set_pk new obj :: objs'). split; [done|]. split; [lia|].
    split; [simpl; by rewrite Hlen|].
    assert (Hhead : pk (object obj) ∉ (λ o, pk (object o)) <$> objs →
                    translations ps' !! pk (object obj) = Some new).
    { intros Hnotin. by rewrite Hframe, lookup_insert_eq. }
    split; [|split].
    + intros k [Hk1 Hk2]%not_elem_of_cons.
      by rewrite Hframe, lookup_insert_ne.
    + intros k Hk.
      destruct (decide (k ∈ (λ o, pk (object o)) <$> objs)) as [|Hnotin]; [by apply Hdom|].
      apply elem_of_cons in Hk as [->|?]; [|done]. rewrite Hhead; eauto.
    + intros [|i] o Ho; simplify_eq/=.
      * exists (set_pk new o). split; [done|]. split; [|split_and!; [done..|intros _; simpl; lia]].
        right. split; [done|]. split; [done|]. split; [simpl; lia|]. split; [done|].
        intros Hlast%last_with_pk_head. simpl. eauto.
      * destruct (Hidx i o Ho) as (o' & Ho' & Hass & ? & ? & ?).
        exists o'. split; [done|]. split; [|done].
        eapply assigned_tail; [|done]. simpl. lia.
Qed.

(** New primary keys grow along the list. *)
Lemma assign_pks_increasing db key objs ps ps' objs' :
  assign_pks db key ps objs = Return (ps', objs') →
  (∀ obj, obj ∈ objs → (key ∉ duplicate_model_keys) →
     ∀ cur, cur ∈ objects_all db (model_label (object obj)) →
            ∃ b, _same_obj_exists cur (object obj) = Return b) →
  ∀ i j oi oj oi' oj',
    (i < j)%nat →
    objs !! i = Some oi → objs !! j = Some oj →
    objs' !! i = Some oi' → objs' !! j = Some oj' →
    ¬ deduplicated db key oi → ¬ deduplicated db key oj →
    pk (object oi') < pk (object oj').
Proof.
  revert ps ps' objs'. induction objs as [|obj objs IH]; intros ps ps' objs' Hrun Hret;
    [by intros i j ???? _ ?|].
  assert (Hret' : ∀ o, o ∈ objs → (key ∉ duplicate_model_keys) →
            ∀ cur, cur ∈ objects_all db (model_label (object o)) →
                   ∃ b, _same_obj_exists cur (object o) = Return b)
    by (intros o ?; apply Hret; by right).
  cbn [ProjectImport.assign_pks] in Hrun.
  destruct (assign_pk_spec db key ps obj) as
    [(Hded & cur & ps1 & Hcur & Heq & Hle1 & Htr1)|(Hno & new & Heq & Hnew & Hmax)];
    [by apply Hret; left| |]; rewrite Heq in Hrun; simpl in Hrun.
  - destruct (assign_pks_spec db key objs ps1 Hret')
      as (ps2 & objs2 & Hrun2 & _).
    rewrite Hrun2 in Hrun. simpl in Hrun. simplify_eq.
    intros i j oi oj oi' oj' Hij Hi Hj Hi' Hj' Hni Hnj.
    destruct j as [|j]; [lia|]. destruct i as [|i]; simpl in Hi, Hj, Hi', Hj'.
    + by simplify_eq.
    + eapply (IH _ _ _ Hrun2 Hret' i j); eauto. lia.
  - destruct (assign_pks_spec db key objs
                {| new_pk := new;
                   translations := <[pk (object obj) := new]> (translations ps) |} Hret')
      as (ps2 & objs2 & Hrun2 & _ & _ & _ & _ & Hidx).
    rewrite Hrun2 in Hrun. simpl in Hrun. simplify_eq.
    intros i j oi oj oi' oj' Hij Hi Hj Hi' Hj' Hni Hnj.
    destruct j as [|j]; [lia|]. destruct i as [|i]; simpl in Hi, Hj, Hi', Hj'.
    + destruct (Hidx j oj Hj) as (o' & Ho' & [(? & _)|(_ & _ & Hlt & _)] & _);
        [done|]. simplify_eq. simpl in Hlt. done.
    + eapply (IH _ _ _ Hrun2 Hret' i j); eauto. lia.
Qed.

Lemma assign_pks_group db key objs :
  (∀ obj, obj ∈ objs → (key ∉ duplicate_model_keys) →
     ∀ cur, cur ∈ objects_all db (model_label (object obj)) →
            ∃ b, _same_obj_exists cur (object obj) = Return b) →
  ∃ ps' objs',
    assign_pks db key {| new_pk := 0; translations := ∅ |} objs = Return (ps', objs')
    ∧ group_assigned db key objs (translations ps') objs'.
Proof.
  intros Hret.
  destruct (assign_pks_spec db key objs {| new_pk := 0; translations := ∅ |} Hret)
    as (ps' & objs' & Hrun & _ & Hlen & Hframe & Hdom & Hidx).
  exists ps', objs'. split; [done|]. split; [done|]. split; [|split].
  - intros k. split; [|by apply Hdom]. intros Hsome.
    destruct (decide (k ∈ (λ o, pk (object o)) <$> objs)) as [|Hnotin]; [done|].
    rewrite (Hframe k Hnotin) in Hsome. simpl in Hsome.
    rewrite lookup_empty in Hsome. by destruct Hsome.
  - intros i obj Hobj. destruct (Hidx i obj Hobj) as (obj' & ? & ? & ? & ? & _).
    exists obj'. done.
  - by eapply assign_pks_increasing.
Qed.

Lemma dict_get_elem_of {V} (k : string) (v : V) (d : list (string * V)) :
  dict_get k d = Some v → (k, v) ∈ d.
Proof.
  induction d as [|[k' v'] d IH]; simpl; [done|].
  case_decide as Hk; [intros [= ->]; subst; left|]. intros ?%IH. by right.
Qed.

Lemma dict_get_NoDup {V} (k : string) (v : V) (d : list (string * V)) :
  NoDup d.*1 → (k, v) ∈ d → dict_get k d = Some v.
Proof.
  induction d as [|[k' v'] d IH]; simpl; [by intros _ ?%not_elem_of_nil|].
  rewrite NoDup_cons. intros [Hk' Hd] [[= -> ->]|Hin]%elem_of_cons.
  - by rewrite decide_True.
  - rewrite decide_False; [by apply IH|]. intros ->. apply Hk'.
    apply list_elem_of_fmap. by exists (k, v).
Qed.

Lemma dict_get_None {V} (k : string) (d : list (string * V)) :
  dict_get k d = None ↔ k ∉ d.*1.
Proof.
  induction d as [|[k' v'] d IH]; simpl.
  - split; [intros _; apply not_elem_of_nil|done].
  - rewrite not_elem_of_cons. case_decide; [naive_solver|]. rewrite IH. naive_solver.
Qed.

(** A loop that returns has returned from every turn. *)
Lemma for_each_Return {A S} (body : S → A → outcome S) xs st st' :
  for_each body xs st = Return st' →
  ∀ x, x ∈ xs → ∃ st1 st2, body st1 x = Return st2.
Proof.
  revert st. induction xs as [|x0 xs IH]; intros st Hrun x Hx;
    [by apply not_elem_of_nil in Hx|].
  cbn [for_each] in Hrun. destruct (body st x0) as [st1|e] eqn:Hbody;
    simpl in Hrun; [|done]. apply elem_of_cons in Hx as [->|Hx]; eauto.
Qed.

Lemma scan_cur_obj_Return key obj st cur st' :
  scan_cur_obj key obj st cur = Return st' →
  (key ∉ duplicate_model_keys) →
  ∃ b, _same_obj_exists cur (object obj) = Return b.
Proof.
  unfold ProjectImport.scan_cur_obj. destruct st as [ab ps]. intros Hrun Hkey.
  destruct (bool_decide_reflect (key ∉ duplicate_model_keys)); [|done].
  destruct (_same_obj_exists cur (object obj)) as [b|e]; [eauto|by simpl in Hrun].
Qed.

Lemma assign_pks_Return db key objs ps ps' objs' :
  assign_pks db key ps objs = Return (ps', objs') →
  ∀ obj, obj ∈ objs → (key ∉ duplicate_model_keys) →
    ∀ cur, cur ∈ objects_all db (model_label (object obj)) →
           ∃ b, _same_obj_exists cur (object obj) = Return b.
Proof.
  revert ps ps' objs'. induction objs as [|obj0 objs IH]; intros ps ps' objs' Hrun obj Hobj;
    [by apply not_elem_of_nil in Hobj|].
  cbn [ProjectImport.assign_pks] in Hrun.
  destruct (assign_pk db key ps obj0) as [[ps1 obj1]|e] eqn:Hone;
    simpl in Hrun; [|done].
  destruct (assign_pks db key ps1 objs) as [[ps2 objs2]|e] eqn:Hrest;
    simpl in Hrun; [|done].
  apply elem_of_cons in Hobj as [->|Hobj]; [|by eapply IH].
  intros Hkey cur Hcur. unfold ProjectImport.assign_pk in Hone.
  destruct (for_each (scan_cur_obj key obj0)
              (objects_all db (model_label (object obj0))) (false, ps))
    as [st|e] eqn:Hscan; simpl in Hone; [|done].
  destruct (for_each_Return _ _ _ _ Hscan cur Hcur) as (st1 & st2 & Hturn).
  by eapply scan_cur_obj_Return.
Qed.

(** Step 2 as a whole, when every comparison it makes returns: it ends,
    keeps the keys of [do_dict], and deals with the objects of every key as
    [group_assigned] says. *)
Lemma step2_from_runs db do_dict tbl0 :
  NoDup do_dict.*1 →
  (∀ key objs obj cur, (key, objs) ∈ do_dict → obj ∈ objs →
     (key ∉ duplicate_model_keys) →
     cur ∈ objects_all db (model_label (object obj)) →
     ∃ b, _same_obj_exists cur (object obj) = Return b) →
  ∃ tbl do_dict',
    step2_from db tbl0 do_dict = Return (tbl, do_dict')
    ∧ do_dict'.*1 = do_dict.*1
    ∧ (∀ k, k ∉ do_dict.*1 → tbl !! k = tbl0 !! k)
    ∧ ∀ key objs, dict_get key do_dict = Some objs →
        ∃ t objs', tbl !! key = Some t
                   ∧ dict_get key do_dict' = Some objs'
                   ∧ group_assigned db key objs t objs'.
Proof.
  revert tbl0. induction do_dict as [|[key objs] d IH]; intros tbl0 Hnd Hret.
  { exists tbl0, []. done. }
  cbn [ProjectImport.step2_from].
  apply NoDup_cons in Hnd as [Hkey Hnd].
  destruct (assign_pks_group db key objs) as (ps' & objs' & -> & Hgroup).
  { intros obj Hobj ? cur Hcur. eapply (Hret key objs obj cur); eauto. left. }
  simpl.
  destruct (IH (<[key := translations ps']> tbl0) Hnd)
    as (tbl & d' & -> & Hkeys & Hframe & Hgroups).
  { intros k os o cur Hin. apply (Hret k os o cur). by right. }
  simpl. exists tbl, ((key, objs') :: d'). split; [done|].
  split; [rewrite !fmap_cons; by rewrite Hkeys|]. split.
  - intros k [Hk1 Hk2]%not_elem_of_cons. simpl in *.
    by rewrite Hframe, lookup_insert_ne.
  - intros k os Hget. simpl in Hget. simpl. case_decide as Hk.
    + simplify_eq. exists (translations ps'), objs'. split; [|done].
      by rewrite Hframe, lookup_insert_eq.
    + by apply Hgroups.
Qed.

(** Step 2 ends when [model_to_dict] covers the compared fields. *)
Lemma step2_from_spec db do_dict tbl0 :
  NoDup do_dict.*1 →
  comparable db do_dict →
  ∃ tbl do_dict',
    step2_from db tbl0 do_dict = Return (tbl, do_dict')
    ∧ do_dict'.*1 = do_dict.*1
    ∧ (∀ k, k ∉ do_dict.*1 → tbl !! k = tbl0 !! k)
    ∧ ∀ key objs, dict_get key do_dict = Some objs →
        ∃ t objs', tbl !! key = Some t
                   ∧ dict_get key do_dict' = Some objs'
                   ∧ group_assigned db key objs t objs'.
Proof.
  intros Hnd Hcmp. apply step2_from_runs; [done|].
  intros key objs obj cur Hin Hobj _ Hcur.
  destruct (same_obj_exists_spec cur (object obj)) as (b & ? & _); [|by eauto].
  intros f ???. by eapply (Hcmp key objs obj cur f).
Qed.

(** When Step 2 has returned, every comparison it made had returned. *)
Lemma step2_from_Return db do_dict tbl0 tbl do_dict' :
  step2_from db tbl0 do_dict = Return (tbl, do_dict') →
  ∀ key objs obj cur, (key, objs) ∈ do_dict → obj ∈ objs →
    (key ∉ duplicate_model_keys) →
    cur ∈ objects_all db (model_label (object obj)) →
    ∃ b, _same_obj_exists cur (object obj) = Return b.
Proof.
  revert tbl0 tbl do_dict'.
  induction do_dict as [|[key0 objs0] d IH]; intros tbl0 tbl d' Hrun key objs obj cur Hin;
    [by apply not_elem_of_nil in Hin|].
  cbn [ProjectImport.step2_from] in Hrun.
  destruct (assign_pks db key0 {| new_pk := 0; translations := ∅ |} objs0)
    as [[ps1 objs1]|e] eqn:Hgroup; simpl in Hrun; [|done].
  destruct (step2_from db (<[key0 := translations ps1]> tbl0) d)
    as [[tbl1 d1]|e] eqn:Hrest; simpl in Hrun; [|done].
  apply elem_of_cons in Hin as [[= -> ->]|Hin].
  - intros Hobj Hkey Hcur. by eapply assign_pks_Return.
  - by eapply IH.
Qed.

(** What Step 2 has done when it has returned. *)
Lemma step2_from_Return_spec db do_dict tbl0 tbl do_dict' :
  NoDup do_dict.*1 →
  step2_from db tbl0 do_dict = Return (tbl, do_dict') →
  do_dict'.*1 = do_dict.*1
  ∧ (∀ k, k ∉ do_dict.*1 → tbl !! k = tbl0 !! k)
  ∧ ∀ key objs, dict_get key do_dict = Some objs →
      ∃ t objs', tbl !! key = Some t
                 ∧ dict_get key do_dict' = Some objs'
                 ∧ group_assigned db key objs t objs'.
Proof.
  intros Hnd Hrun.
  destruct (step2_from_runs db do_dict tbl0 Hnd (step2_from_Return _ _ _ _ _ Hrun))
    as (tbl1 & d1 & Hrun1 & Hspec).
  rewrite Hrun in Hrun1. by simplify_eq.
Qed.

Lemma dict_set_keys {V} (k : string) (v : V) (d : list (string * V)) :
  (dict_set k v d).*1 = if decide (k ∈ d.*1) then d.*1 else d.*1 ++ [k].
Proof.
  induction d as [|[k' v'] d IH].
  - rewrite decide_False; [done|]. apply not_elem_of_nil.
  - cbn [dict_set]. destruct (decide (k' = k)) as [->|Hne].
    + rewrite decide_True; [done|]. left.
    + rewrite fmap_cons, IH. simpl. destruct (decide (k ∈ d.*1)).
      * rewrite decide_True; [done|]. by right.
      * rewrite decide_False; [done|]. rewrite elem_of_cons. naive_solver.
Qed.

Lemma dict_set_NoDup {V} (k : string) (v : V) (d : list (string * V)) :
  NoDup d.*1 → NoDup (dict_set k v d).*1.
Proof.
  intros Hd. rewrite dict_set_keys. case_decide; [done|].
  apply NoDup_app. split; [done|]. split; [|apply NoDup_singleton].
  by intros y Hy ->%list_elem_of_singleton.
Qed.

Lemma step1_NoDup grouped_data : NoDup (step1 grouped_data).*1.
Proof.
  unfold step1.
  assert (∀ d0 : list (string * list DeserializedObject), NoDup d0.*1 →
            NoDup (foldl (λ do_dict m,
                            match member_name m with
                            | Some name => dict_set name (member_objects m) do_dict
                            | None => do_dict
                            end) d0 grouped_data).*1) as Hgen.
  { induction grouped_data as [|m ms IH]; intros d0 Hd0; simpl; [done|].
    apply IH. destruct (member_name m); [by apply dict_set_NoDup|done]. }
  apply Hgen. apply NoDup_nil_2.
Qed.

(** C1 (amended). When [model_to_dict] has an entry for every unique field
    that [_same_obj_exists] compares, Step 2 ends and, for every model name
    [key] of the uploaded document and every deserialized object [obj] of
    [key] that is not deduplicated, the object has a new primary key that is
    greater than the primary key of every existing row of its model and
    differs from the new primary key of every other object of [key] that is
    not deduplicated; and, provided no later object of [key] carries the
    same imported primary key, the translation table maps the imported
    primary key to the new one. *)
Theorem step2_assigns_new_keys db grouped_data key objs :
  comparable db (step1 grouped_data) →
  dict_get key (step1 grouped_data) = Some objs →
  ∃ pk_translation_table do_dict' tbl objs',
    step2 db (step1 grouped_data) = Return (pk_translation_table, do_dict')
    ∧ pk_translation_table !! key = Some tbl
    ∧ dict_get key do_dict' = Some objs'
    ∧ ∀ i obj, objs !! i = Some obj → ¬ deduplicated db key obj →
        ∃ obj', objs' !! i = Some obj'
          ∧ obj' = set_pk (pk (object obj')) obj
          ∧ (∀ cur_obj, cur_obj ∈ objects_all db (model_label (object obj)) →
                        pk cur_obj < pk (object obj'))
          ∧ (∀ j o o', j ≠ i → objs !! j = Some o → ¬ deduplicated db key o →
                       objs' !! j = Some o' → pk (object o') ≠ pk (object obj'))
          ∧ (last_with_pk objs i obj →
             tbl !! pk (object obj) = Some (pk (object obj'))).
Proof.
  intros Hcmp Hget.
  destruct (step2_from_spec db (step1 grouped_data) ∅ (step1_NoDup _) Hcmp)
    as (tbl_all & d' & Hrun & _ & _ & Hgroups).
  destruct (Hgroups key objs Hget) as (tbl & objs' & Htbl & Hget' & Hgroup).
  exists tbl_all, d', tbl, objs'. split; [done|]. split; [done|]. split; [done|].
  destruct Hgroup as (Hlen & Hdom & Hidx & Hinc).
  intros i obj Hobj Hno.
  destruct (Hidx i obj Hobj) as (obj' & Hobj' & [(? & _)|(_ & Hset & _ & Hmax & Hlast)] & _);
    [done|].
  exists obj'. split; [done|]. split; [done|]. split; [done|]. split; [|done].
  intros j o o' Hji Ho Hno' Ho' Heq.
  destruct (decide (i < j)%nat).
  - assert (pk (object obj') < pk (object o'))
      by (eapply (Hinc i j); eauto). lia.
  - assert (pk (object o') < pk (object obj'))
      by (eapply (Hinc j i); eauto; lia). lia.
Qed.

(** C2 (amended). When [model_to_dict] has an entry for every unique field
    that [_same_obj_exists] compares, Step 2 ends and, for an imported
    record [obj] of the model name [key] that is the last of [key] with its
    imported primary key: the record keeps its primary key and the
    translation table maps it to the primary key of an existing row of the
    same model if and only if [key] is neither project.projectuser nor
    allocation.allocationuser and some existing row of that model has a
    value equal to the record's on at least one unique field other than
    id. *)
Theorem step2_deduplicates_iff db grouped_data key objs i obj :
  comparable db (step1 grouped_data) →
  dict_get key (step1 grouped_data) = Some objs →
  objs !! i = Some obj →
  last_with_pk objs i obj →
  ∃ pk_translation_table do_dict' tbl objs',
    step2 db (step1 grouped_data) = Return (pk_translation_table, do_dict')
    ∧ pk_translation_table !! key = Some tbl
    ∧ dict_get key do_dict' = Some objs'
    ∧ ((objs' !! i = Some obj
        ∧ ∃ cur_obj, cur_obj ∈ objects_all db (model_label (object obj))
                     ∧ tbl !! pk (object obj) = Some (pk cur_obj))
       ↔ ((key ∉ ["project.projectuser"; "allocation.allocationuser"])
          ∧ ∃ cur_obj, cur_obj ∈ objects_all db (model_label (object obj))
                       ∧ shares_unique_value cur_obj (object obj))).
Proof.
  intros Hcmp Hget Hobj Hlast.
  destruct (step2_from_spec db (step1 grouped_data) ∅ (step1_NoDup _) Hcmp)
    as (tbl_all & d' & Hrun & _ & _ & Hgroups).
  destruct (Hgroups key objs Hget) as (tbl & objs' & Htbl & Hget' & Hgroup).
  exists tbl_all, d', tbl, objs'. split; [done|]. split; [done|]. split; [done|].
  destruct Hgroup as (_ & _ & Hidx & _).
  assert (Hspec : ∀ cur, cur ∈ objects_all db (model_label (object obj)) →
            (_same_obj_exists cur (object obj) = Return true
             ↔ shares_unique_value cur (object obj))).
  { intros cur Hcur.
    destruct (same_obj_exists_spec cur (object obj)) as (b & Hb & Hiff).
    - intros f ???. eapply (Hcmp key objs obj cur f); eauto.
      + by apply dict_get_elem_of.
      + by eapply list_elem_of_lookup_2.
    - rewrite Hb, <-Hiff. split; [by intros [= ->]|by intros ->]. }
  assert (Hded : deduplicated db key obj
                 ↔ (key ∉ ["project.projectuser"; "allocation.allocationuser"])
                   ∧ ∃ cur, cur ∈ objects_all db (model_label (object obj))
                            ∧ shares_unique_value cur (object obj)).
  { unfold ProjectImport.deduplicated, duplicate_model_keys.
    split; intros (Hkey & cur & Hcur & Hsame); (split; [done|]);
      exists cur; (split; [done|]); by apply Hspec. }
  rewrite <-Hded.
  destruct (Hidx i obj Hobj) as (obj' & Hobj' & [(Hd & -> & Hmap)|(Hno & Hset & _ & Hmax & Hmap)] & _).
  - split; [done|]. intros _. split; [done|]. by apply Hmap.
  - split; [|done]. intros (_ & cur & Hcur & Hcurmap).
    rewrite (Hmap Hlast) in Hcurmap. specialize (Hmax cur Hcur).
    injection Hcurmap as Heq. lia.
Qed.

End ImportStep2.

Section ImportStep2Examples.
Import ProjectImport ImportExamples.

Lemma twin_users_comparable :
  comparable model_to_dict meta_fields alice_db (step1 twin_users).
Proof.
  intros key objs obj cur f Hin Hobj Hcur Hf Hu Hname.
  apply list_elem_of_singleton in Hin. simplify_eq.
  assert (model_label (object obj) = "auth.user") as Hlabel.
  { apply elem_of_cons in Hobj as [->|Hobj]; [done|].
    by apply list_elem_of_singleton in Hobj as ->. }
  rewrite Hlabel in Hcur.
  apply list_elem_of_singleton in Hcur as ->.
  assert (f = {| name := "username"; unique := true |}) as ->.
  { apply elem_of_cons in Hf as [->|Hf]; [done|].
    by apply list_elem_of_singleton in Hf. }
  apply elem_of_cons in Hobj as [->|Hobj]; [by split; eexists|].
  apply list_elem_of_singleton in Hobj as ->. by split; eexists.
Qed.

Lemma twin_grants_comparable :
  comparable model_to_dict meta_fields empty_db (step1 twin_grants).
Proof.
  intros key objs obj cur f _ _ Hcur.
  change (objects_all empty_db (model_label (object obj))) with (@nil Model) in Hcur.
  by apply not_elem_of_nil in Hcur.
Qed.

(** Two grants with the same imported primary key, neither deduplicated:
    the first gets the new key 1, the second the new key 2, and the
    translation table sends the shared imported key to 2 only. *)
Lemma step2_twin_keys_overwritten :
  step2 model_to_dict meta_fields empty_db (step1 twin_grants)
  = Return ({[ "grant.grant" := {[ 1 := 2 ]} ]},
            [("grant.grant", [set_pk 1 grant_a; set_pk 2 grant_b])])
  ∧ dict_get "grant.grant" (step1 twin_grants) = Some [grant_a; grant_b]
  ∧ ¬ deduplicated model_to_dict meta_fields empty_db "grant.grant" grant_a
  ∧ ({[ 1 := 2 ]} : gmap Z Z) !! pk (object grant_a)
    ≠ Some (pk (object (set_pk 1 grant_a))).
Proof.
  split; [vm_compute; reflexivity|]. split; [reflexivity|]. split; [|by vm_compute].
  intros (_ & cur & Hcur & _). by apply not_elem_of_nil in Hcur.
Qed.

(** A user that matches a stored user on [username], followed by a user with
    the same imported primary key that matches nobody: the translation
    table sends the shared key to the new key of the second user, which is
    the primary key of no stored user. *)
Lemma step2_twin_of_deduplicated :
  step2 model_to_dict meta_fields alice_db (step1 twin_users)
  = Return ({[ "auth.user" := {[ 1 := 8 ]} ]},
            [("auth.user", [alice; set_pk 8 bob])])
  ∧ dict_get "auth.user" (step1 twin_users) = Some [alice; bob]
  ∧ ("auth.user" ∉ ["project.projectuser"; "allocation.allocationuser"])
  ∧ (∃ cur_obj, cur_obj ∈ objects_all alice_db (model_label (object alice))
                ∧ shares_unique_value model_to_dict meta_fields cur_obj (object alice))
  ∧ ¬ ∃ cur_obj, cur_obj ∈ objects_all alice_db (model_label (object alice))
                 ∧ ({[ 1 := 8 ]} : gmap Z Z) !! pk (object alice) = Some (pk cur_obj).
Proof.
  split; [vm_compute; reflexivity|]. split; [reflexivity|].
  split; [apply (bool_decide_unpack _); by vm_compute|]. split.
  - exists (object alice_stored). split; [left|].
    exists {| name := "username"; unique := true |}, (VStr "alice").
    split; [right; left|]. done.
  - intros (cur & Hcur & Hmap). apply list_elem_of_singleton in Hcur as ->.
    vm_compute in Hmap. discriminate Hmap.
Qed.

Lemma step2_assigns_new_keys_witness :
  comparable model_to_dict meta_fields alice_db (step1 twin_users)
  ∧ dict_get "auth.user" (step1 twin_users) = Some [alice; bob]
  ∧ ∃ pk_translation_table do_dict',
      step2 model_to_dict meta_fields alice_db (step1 twin_users)
      = Return (pk_translation_table, do_dict').
Proof.
  split; [exact twin_users_comparable|]. split; [reflexivity|].
  destruct (step2_assigns_new_keys model_to_dict meta_fields alice_db twin_users
              "auth.user" [alice; bob] twin_users_comparable eq_refl)
    as (t & d & _ & _ & Hrun & _).
  exists t, d. exact Hrun.
Defined.

Lemma step2_deduplicates_iff_witness :
  comparable model_to_dict meta_fields alice_db (step1 twin_users)
  ∧ dict_get "auth.user" (step1 twin_users) = Some [alice; bob]
  ∧ [alice; bob] !! 1%nat = Some bob
  ∧ last_with_pk [alice; bob] 1 bob
  ∧ ∃ pk_translation_table do_dict',
      step2 model_to_dict meta_fields alice_db (step1 twin_users)
      = Return (pk_translation_table, do_dict').
Proof.
  assert (Hlast : last_with_pk [alice; bob] 1 bob).
  { intros j o Hj Ho. destruct j as [|[|j]]; [lia|lia|done]. }
  split; [exact twin_users_comparable|]. split; [reflexivity|].
  split; [reflexivity|]. split; [exact Hlast|].
  destruct (step2_deduplicates_iff model_to_dict meta_fields alice_db twin_users
              "auth.user" [alice; bob] 1 bob twin_users_comparable eq_refl eq_refl Hlast)
    as (t & d & _ & _ & Hrun & _).
  exists t, d. exact Hrun.
Defined.

End ImportStep2Examples.

(** ** The import view: Step 3 *)

Section ImportStep3.
Import ProjectImport.
Implicit Types (t : gmap string (gmap Z Z)) (k : string)
  (o : DeserializedObject) (d : list (string * list DeserializedObject))
  (r : gmap string (gmap string (gmap Z registered))) (c : call).

Lemma comprehension_Return {A B} (f : A → outcome B) xs ys :
  comprehension f xs = Return ys → Forall2 (λ x y, f x = Return y) xs ys.
Proof.
  revert ys. induction xs as [|x xs IH]; intros ys; simpl.
  - intros [= <-]. constructor.
  - destruct (f x) as [y|e] eqn:Hx; simpl; [|done].
    destruct (comprehension f xs) as [ys'|e]; simpl; [|done].
    intros [= <-]. constructor; auto.
Qed.

Lemma comprehension_Raise {A B} (f : A → outcome B) xs e :
  comprehension f xs = Raise e → ∃ x, x ∈ xs ∧ f x = Raise e.
Proof.
  induction xs as [|x xs IH]; simpl; [done|].
  destruct (f x) as [y|e'] eqn:Hx; simpl.
  - destruct (comprehension f xs) as [ys'|e']; simpl; [done|].
    intros [= ->]. destruct IH as (x' & ? & ?); [done|]. exists x'. split; [by right|done].
  - intros [= ->]. exists x. split; [left|done].
Qed.

Lemma comprehension_total {A B} (f : A → outcome B) xs :
  (∀ x, x ∈ xs → ∃ y, f x = Return y) → ∃ ys, comprehension f xs = Return ys.
Proof.
  induction xs as [|x xs IH]; intros Hxs; simpl; [by eexists|].
  destruct (Hxs x) as [y ->]; [left|]. simpl.
  destruct IH as [ys ->]; [by intros; apply Hxs; right|]. by eexists.
Qed.

Lemma register_each_Return body from_name entry_name r objs r' objs' :
  register_each body from_name entry_name r objs = Return (r', objs') →
  Forall2 (λ o o', ∃ v, body o = Return (v, o')) objs objs'.
Proof.
  revert r r' objs'. induction objs as [|o objs IH]; intros r r' objs'; simpl.
  - intros [= <- <-]. constructor.
  - destruct (body o) as [[v o1]|e] eqn:Ho; simpl; [|done].
    destruct (register_each _ _ _ _ objs) as [[r2 objs2]|e] eqn:Hrest; simpl; [|done].
    intros [= <- <-]. constructor; eauto.
Qed.

Lemma register_each_Raise body from_name entry_name r objs e :
  register_each body from_name entry_name r objs = Raise e →
  ∃ o, o ∈ objs ∧ body o = Raise e.
Proof.
  revert r. induction objs as [|o objs IH]; intros r; simpl; [done|].
  destruct (body o) as [[v o1]|e'] eqn:Ho; simpl.
  - destruct (register_each _ _ _ _ objs) as [[r2 objs2]|e'] eqn:Hrest; simpl; [done|].
    intros [= ->]. destruct (IH _ Hrest) as (o' & ? & ?). exists o'. split; [by right|done].
  - intros [= ->]. exists o. split; [left|done].
Qed.

Lemma dict_get_set {V} (k to : string) (v : V) (d : list (string * V)) :
  dict_get k (dict_set to v d) = if decide (k = to) then Some v else dict_get k d.
Proof.
  induction d as [|[k' v'] d IH]; simpl.
  - destruct (decide (to = k)), (decide (k = to)); congruence.
  - destruct (decide (k' = to)) as [->|Hne]; simpl.
    + destruct (decide (to = k)), (decide (k = to)); congruence.
    + rewrite IH. destruct (decide (k' = k)) as [->|]; [|done].
      by rewrite decide_False.
Qed.

(** A call relates [do_dict] before and after, object by object, through
    [apply_call]. *)
Lemma related_set to d objs objs' (R : string → DeserializedObject → DeserializedObject → Prop) :
  dict_get to d = Some objs →
  Forall2 (R to) objs objs' →
  (∀ k o, k ≠ to → R k o o) →
  related R d (dict_set to objs' d).
Proof.
  intros Hget Hall Hrefl k. rewrite dict_get_set.
  destruct (decide (k = to)) as [->|Hne]; [by rewrite Hget|].
  destruct (dict_get k d) as [os|]; [|done].
  apply Forall2_same_length_lookup. split; [done|].
  intros i x y Hx Hy. simplify_eq. by apply Hrefl.
Qed.

Lemma related_refl d (R : string → DeserializedObject → DeserializedObject → Prop) :
  (∀ k o, is_Some (dict_get k d) → R k o o) → related R d d.
Proof.
  intros Hrefl k. destruct (dict_get k d) as [os|] eqn:Hget; [|done].
  apply Forall2_same_length_lookup. split; [done|].
  intros i x y Hx Hy. simplify_eq. apply Hrefl. by rewrite Hget.
Qed.

Lemma apply_call_other t k o c : (touch c).1.1 ≠ k → apply_call t k o c = Return o.
Proof. intros Hne. unfold apply_call. by rewrite decide_False. Qed.

Lemma related_absent t c d :
  dict_get (touch c).1.1 d = None →
  related (λ k o o', apply_call t k o c = Return o') d d.
Proof.
  intros Hnone. apply related_refl. intros k o [os Hos].
  apply apply_call_other. intros <-. congruence.
Qed.

Lemma exec_call_Return t c r d r' d' :
  exec_call t c (r, d) = Return (r', d') →
  related (λ k o o', apply_call t k o c = Return o') d d'.
Proof.
  assert (Hother : ∀ k o, k ≠ (touch c).1.1 → apply_call t k o c = Return o)
    by (intros k o ?; by apply apply_call_other).
  pose proof (related_absent t c d) as Habsent.
  destruct c as [to from f|to from f|to from m|to from m]; simpl in *.
  - unfold _update_field. destruct (dict_get to d) as [objs|] eqn:Hget; simpl.
    + destruct (comprehension _ objs) as [objs'|e] eqn:Hc; simpl; [|done].
      intros [= <- <-]. apply (related_set to d objs objs'); [done| |done].
      apply comprehension_Return in Hc. eapply Forall2_impl; [done|].
      intros o o' Ho. unfold apply_call. simpl. by rewrite decide_True.
    + intros [= <- <-]. by apply Habsent.
  - destruct (dict_get to d) as [objs|] eqn:Hget; simpl.
    + destruct (register_each _ _ _ _ objs) as [[r1 objs']|e] eqn:Hc; simpl; [|done].
      intros [= <- <-]. apply (related_set to d objs objs'); [done| |done].
      apply register_each_Return in Hc. eapply Forall2_impl; [done|].
      intros o o' [v Ho]. unfold apply_call. simpl. rewrite decide_True by done.
      destruct (getattr o f); simpl in *; by simplify_eq.
    + intros [= <- <-]. by apply Habsent.
  - destruct (dict_get to d) as [objs|] eqn:Hget; simpl.
    + destruct (register_each _ _ _ _ objs) as [[r1 objs']|e] eqn:Hc; simpl; [|done].
      intros [= <- <-]. apply (related_set to d objs objs'); [done| |done].
      apply register_each_Return in Hc. eapply Forall2_impl; [done|].
      intros o o' [v Ho]. unfold apply_call. simpl. rewrite decide_True by done.
      destruct (translate_m2m from m t o); simpl in *; by simplify_eq.
    + intros [= <- <-]. by apply Habsent.
  - unfold _update_m2m. destruct (dict_get to d) as [objs|] eqn:Hget; simpl.
    + destruct (t !! from) as [tf|] eqn:Hfrom; simpl.
      * destruct (comprehension _ objs) as [objs'|e] eqn:Hc; simpl; [|done].
        intros [= <- <-]. apply (related_set to d objs objs'); [done| |done].
        apply comprehension_Return in Hc. eapply Forall2_impl; [done|].
        intros o o' Ho. unfold apply_call. simpl. rewrite decide_True by done.
        by rewrite Hfrom.
      * intros [= <- <-]. apply related_refl. intros k o _. unfold apply_call. simpl.
        case_decide; [by rewrite Hfrom|done].
    + intros [= <- <-]. by apply Habsent.
Qed.

Lemma exec_call_Raise t c r d e :
  exec_call t c (r, d) = Raise e →
  ∃ objs o, dict_get (touch c).1.1 d = Some objs ∧ o ∈ objs
            ∧ apply_call t (touch c).1.1 o c = Raise e.
Proof.
  destruct c as [to from f|to from f|to from m|to from m]; simpl in *.
  - unfold _update_field. destruct (dict_get to d) as [objs|] eqn:Hget; simpl; [|done].
    destruct (comprehension _ objs) as [objs'|e'] eqn:Hc; simpl; [done|].
    intros [= ->]. apply comprehension_Raise in Hc as (o & Ho & Hr).
    exists objs, o. split; [done|]. split; [done|].
    unfold apply_call. simpl. by rewrite decide_True.
  - destruct (dict_get to d) as [objs|] eqn:Hget; simpl; [|done].
    destruct (register_each _ _ _ _ objs) as [[r1 objs']|e'] eqn:Hc; simpl; [done|].
    intros [= ->]. apply register_each_Raise in Hc as (o & Ho & Hr).
    exists objs, o. split; [done|]. split; [done|].
    unfold apply_call. simpl. rewrite decide_True by done.
    destruct (getattr o f); simpl in *; by simplify_eq.
  - destruct (dict_get to d) as [objs|] eqn:Hget; simpl; [|done].
    destruct (register_each _ _ _ _ objs) as [[r1 objs']|e'] eqn:Hc; simpl; [done|].
    intros [= ->]. apply register_each_Raise in Hc as (o & Ho & Hr).
    exists objs, o. split; [done|]. split; [done|].
    unfold apply_call. simpl. rewrite decide_True by done.
    destruct (translate_m2m from m t o); simpl in *; by simplify_eq.
  - unfold _update_m2m. destruct (dict_get to d) as [objs|] eqn:Hget; simpl; [|done].
    destruct (t !! from) as [tf|] eqn:Hfrom; simpl; [|done].
    destruct (comprehension _ objs) as [objs'|e'] eqn:Hc; simpl; [done|].
    intros [= ->]. apply comprehension_Raise in Hc as (o & Ho & Hr).
    exists objs, o. split; [done|]. split; [done|].
    unfold apply_call. simpl. rewrite decide_True by done. by rewrite Hfrom.
Qed.

Lemma run_calls_Return t calls r d r' d' :
  for_each (λ st c, exec_call t c st) calls (r, d) = Return (r', d') →
  related (λ k o o', apply_calls t k calls o = Return o') d d'.
Proof.
  revert r d. induction calls as [|c calls IH]; intros r d; simpl.
  { intros [= <- <-]. by apply related_refl. }
  destruct (exec_call t c (r, d)) as [[r1 d1]|e] eqn:Hc; simpl; [|done].
  intros Hrest. apply exec_call_Return in Hc. apply IH in Hrest.
  intros k. specialize (Hc k). specialize (Hrest k).
  destruct (dict_get k d) as [os|], (dict_get k d1) as [os1|],
    (dict_get k d') as [os'|]; try done.
  apply Forall2_same_length_lookup. split.
  { apply Forall2_length in Hc, Hrest. congruence. }
  intros i x z Hx Hz.
  destruct (Forall2_lookup_l _ _ _ _ _ Hc Hx) as (y & Hy & Hxy).
  pose proof (Forall2_lookup_lr _ _ _ _ _ _ Hrest Hy Hz) as Hyz.
  unfold apply_calls in *. simpl. by rewrite Hxy.
Qed.

Lemma run_calls_Raise t calls r d e :
  for_each (λ st c, exec_call t c st) calls (r, d) = Raise e →
  ∃ k objs o, dict_get k d = Some objs ∧ o ∈ objs
              ∧ apply_calls t k calls o = Raise e.
Proof.
  revert r d. induction calls as [|c calls IH]; intros r d; simpl; [done|].
  destruct (exec_call t c (r, d)) as [[r1 d1]|e'] eqn:Hc; simpl.
  - intros Hrest. apply IH in Hrest as (k & objs1 & o1 & Hget1 & Ho1 & Hraise).
    apply exec_call_Return in Hc. specialize (Hc k). rewrite Hget1 in Hc.
    destruct (dict_get k d) as [objs|] eqn:Hget; [|done].
    apply list_elem_of_lookup in Ho1 as [i Hi].
    destruct (Forall2_lookup_r _ _ _ _ _ Hc Hi) as (o & Ho & Hoo1).
    exists k, objs, o. split; [done|]. split; [by eapply list_elem_of_lookup_2|].
    unfold apply_calls in *. simpl. by rewrite Hoo1.
  - intros [= ->]. apply exec_call_Raise in Hc as (objs & o & ? & ? & Hr).
    exists (touch c).1.1, objs, o. split; [done|]. split; [done|].
    unfold apply_calls. simpl. by rewrite Hr.
Qed.

Lemma step3_as_calls t d :
  step3 t d = for_each (λ st c, exec_call t c st) step3_calls (∅, d).
Proof.
  unfold step3, step3_calls, _batch_update_field.
  cbn [for_each exec_call mbind outcome_bind fst snd].
  repeat match goal with
         | |- context [mbind _ ?m] =>
             lazymatch m with
             | context [mbind] => fail
             | _ =>
                 let x := fresh "x" in
                 destruct m as [x|];
                 cbn [for_each exec_call mbind outcome_bind fst snd]; [|done];
                 try match type of x with
                     | (_ * _)%type =>
                         destruct x;
                         cbn [for_each exec_call mbind outcome_bind fst snd]
                     end
             end
         end.
  done.
Qed.

(** What a call leaves alone on an object. *)
Lemma apply_call_frame t k o c o' :
  apply_call t k o c = Return o' →
  pk (object o') = pk (object o)
  ∧ model_label (object o') = model_label (object o)
  ∧ (∀ f, touch c ≠ (k, false, f) → attrs (object o') !! f = attrs (object o) !! f)
  ∧ (∀ m, touch c ≠ (k, true, m) → m2m_data o' !! m = m2m_data o !! m).
Proof.
  unfold apply_call. case_decide as Hk; [|by intros [= <-]].
  destruct c as [to from f0|to from f0|to from m0|to from m0]; simpl in *; subst.
  - unfold update_field_of. destruct (getattr o f0) as [x|]; simpl; [|done].
    destruct (translate t from x); simpl; [|done]. intros [= <-]. simpl.
    split; [done|]. split; [done|]. split; [|done].
    intros f Hf. rewrite lookup_insert_ne; [done|congruence].
  - destruct (getattr o f0) as [x|]; simpl; [|done]. intros [= <-]. simpl.
    split; [done|]. split; [done|]. split; [|done].
    intros f Hf. rewrite lookup_insert_ne; [done|congruence].
  - destruct (translate_m2m from m0 t o); simpl; [|done]. intros [= <-]. simpl.
    split; [done|]. split; [done|]. split; [done|].
    intros m Hm. rewrite lookup_insert_ne; [done|congruence].
  - destruct (t !! from); [|by intros [= <-]].
    destruct (translate_m2m from m0 t o); simpl; [|done]. intros [= <-]. simpl.
    split; [done|]. split; [done|]. split; [done|].
    intros m Hm. rewrite lookup_insert_ne; [done|congruence].
Qed.

Lemma apply_calls_frame t k calls o o' :
  apply_calls t k calls o = Return o' →
  pk (object o') = pk (object o)
  ∧ (∀ f, (k, false, f) ∉ touch <$> calls →
          attrs (object o') !! f = attrs (object o) !! f)
  ∧ (∀ m, (k, true, m) ∉ touch <$> calls → m2m_data o' !! m = m2m_data o !! m).
Proof.
  unfold apply_calls. revert o. induction calls as [|c calls IH]; intros o; simpl.
  { by intros [= <-]. }
  destruct (apply_call t k o c) as [o1|] eqn:Hc; simpl; [|done].
  intros (Hpk & Hattrs & Hm2m)%IH.
  apply apply_call_frame in Hc as (Hpk1 & _ & Hattrs1 & Hm2m1).
  split; [congruence|]. split.
  - intros f [Hf1 Hf2]%not_elem_of_cons. rewrite Hattrs, Hattrs1; done.
  - intros m [Hm1 Hm2]%not_elem_of_cons. rewrite Hm2m, Hm2m1; done.
Qed.

Lemma translate_Return t from_name x new :
  translate t from_name x = Return new ↔
  ∃ v tf, x = VInt v ∧ t !! from_name = Some tf ∧ tf !! v = Some new.
Proof.
  unfold translate. destruct (t !! from_name) as [tf|]; [|naive_solver].
  destruct x as [|v|]; try naive_solver.
  destruct (tf !! v) eqn:?; naive_solver.
Qed.

Lemma translate_m2m_Return t from_name m2m_name o news :
  translate_m2m from_name m2m_name t o = Return news ↔
  ∃ lns, m2m_data o !! m2m_name = Some lns ∧ mapped_through t from_name lns news.
Proof.
  unfold translate_m2m, mapped_through.
  destruct (m2m_data o !! m2m_name) as [lns|]; [|naive_solver]. split.
  - intros ?%comprehension_Return. eauto.
  - intros (? & [= <-] & Hall). revert news Hall.
    induction lns as [|ln lns IH]; intros news Hall.
    + by apply Forall2_nil_inv_l in Hall as ->.
    + apply Forall2_cons_inv_l in Hall as (new & news' & Hnew & Hall & ->).
      simpl. rewrite Hnew. simpl. by rewrite (IH _ Hall).
Qed.

(** The object after the calls, for a foreign key that exactly one call
    writes. *)
Lemma apply_calls_update_field t k calls o o' from_name f :
  apply_calls t k calls o = Return o' →
  filter (λ c, touch c = (k, false, f)) calls = [UpdateField k from_name f] →
  ∃ v tf new, attrs (object o) !! f = Some (VInt v)
              ∧ t !! from_name = Some tf ∧ tf !! v = Some new
              ∧ attrs (object o') !! f = Some (VInt new).
Proof.
  unfold apply_calls. revert o. induction calls as [|c calls IH]; intros o; [done|].
  cbn [for_each]. destruct (apply_call t k o c) as [o1|] eqn:Hc; simpl; [|done].
  intros Hrest. rewrite filter_cons. case_decide as Htouch.
  - intros [= -> Hnone].
    assert ((k, false, f) ∉ touch <$> calls) as Hnot.
    { intros (c & Hc1 & Hc2)%list_elem_of_fmap.
      assert (c ∈ filter (λ c, touch c = (k, false, f)) calls) as Hin
        by (by apply list_elem_of_filter).
      rewrite Hnone in Hin. by apply not_elem_of_nil in Hin. }
    apply apply_calls_frame in Hrest as (_ & Hattrs & _).
    rewrite (Hattrs f Hnot).
    unfold apply_call in Hc. simpl in Hc. rewrite decide_True in Hc by done.
    unfold update_field_of, getattr in Hc.
    destruct (attrs (object o) !! f) as [x|] eqn:Hx; simpl in Hc; [|done].
    destruct (translate t from_name x) as [new|] eqn:Hnew; simpl in Hc; [|done].
    simplify_eq. apply translate_Return in Hnew as (v & tf & -> & ? & ?).
    exists v, tf, new. simpl. by rewrite lookup_insert_eq.
  - intros Hfilter. destruct (IH o1 Hrest Hfilter) as (v & tf & new & Hv & ? & ? & ?).
    apply apply_call_frame in Hc as (_ & _ & Hattrs1 & _).
    exists v, tf, new. rewrite <-Hattrs1; done.
Qed.

(** The object after the calls, for a many-to-many list that exactly one
    call of [_update_m2m] writes. *)
Lemma apply_calls_update_m2m t k calls o o' from_name m :
  apply_calls t k calls o = Return o' →
  filter (λ c, touch c = (k, true, m)) calls = [UpdateM2M k from_name m] →
  match t !! from_name with
  | Some _ => ∃ lns news, m2m_data o !! m = Some lns
                          ∧ mapped_through t from_name lns news
                          ∧ m2m_data o' !! m = Some news
  | None => m2m_data o' !! m = m2m_data o !! m
  end.
Proof.
  unfold apply_calls. revert o. induction calls as [|c calls IH]; intros o; [done|].
  cbn [for_each]. destruct (apply_call t k o c) as [o1|] eqn:Hc; simpl; [|done].
  intros Hrest. rewrite filter_cons. case_decide as Htouch.
  - intros [= -> Hnone].
    assert ((k, true, m) ∉ touch <$> calls) as Hnot.
    { intros (c & Hc1 & Hc2)%list_elem_of_fmap.
      assert (c ∈ filter (λ c, touch c = (k, true, m)) calls) as Hin
        by (by apply list_elem_of_filter).
      rewrite Hnone in Hin. by apply not_elem_of_nil in Hin. }
    apply apply_calls_frame in Hrest as (_ & _ & Hm2m).
    rewrite (Hm2m m Hnot).
    unfold apply_call in Hc. simpl in Hc. rewrite decide_True in Hc by done.
    destruct (t !! from_name) as [tf|] eqn:Hfrom; [|by simplify_eq].
    destruct (translate_m2m from_name m t o) as [news|] eqn:Hnews; simpl in Hc; [|done].
    simplify_eq. apply translate_m2m_Return in Hnews as (lns & ? & ?).
    exists lns, news. simpl. by rewrite lookup_insert_eq.
  - intros Hfilter. specialize (IH o1 Hrest Hfilter).
    apply apply_call_frame in Hc as (_ & _ & _ & Hm2m1).
    destruct (t !! from_name); [|by rewrite IH, Hm2m1].
    destruct IH as (lns & news & ? & ? & ?). exists lns, news.
    rewrite <-Hm2m1; done.
Qed.

(** The object after the calls, for a many-to-many list that exactly one
    call of [_register_m2m] takes away. *)
Lemma apply_calls_register_m2m t k calls o o' from_name m :
  apply_calls t k calls o = Return o' →
  filter (λ c, touch c = (k, true, m)) calls = [RegisterM2M k from_name m] →
  ∃ lns news, m2m_data o !! m = Some lns
              ∧ mapped_through t from_name lns news
              ∧ m2m_data o' !! m = Some [].
Proof.
  unfold apply_calls. revert o. induction calls as [|c calls IH]; intros o; [done|].
  cbn [for_each]. destruct (apply_call t k o c) as [o1|] eqn:Hc; simpl; [|done].
  intros Hrest. rewrite filter_cons. case_decide as Htouch.
  - intros [= -> Hnone].
    assert ((k, true, m) ∉ touch <$> calls) as Hnot.
    { intros (c & Hc1 & Hc2)%list_elem_of_fmap.
      assert (c ∈ filter (λ c, touch c = (k, true, m)) calls) as Hin
        by (by apply list_elem_of_filter).
      rewrite Hnone in Hin. by apply not_elem_of_nil in Hin. }
    apply apply_calls_frame in Hrest as (_ & _ & Hm2m).
    rewrite (Hm2m m Hnot).
    unfold apply_call in Hc. simpl in Hc. rewrite decide_True in Hc by done.
    destruct (translate_m2m from_name m t o) as [news|] eqn:Hnews; simpl in Hc; [|done].
    simplify_eq. apply translate_m2m_Return in Hnews as (lns & ? & ?).
    exists lns, news. simpl. by rewrite lookup_insert_eq.
  - intros Hfilter. destruct (IH o1 Hrest Hfilter) as (lns & news & ? & ? & ?).
    apply apply_call_frame in Hc as (_ & _ & _ & Hm2m1).
    exists lns, news. rewrite <-Hm2m1; done.
Qed.

(** A missing key of the translation table, for one call on one object. *)
Lemma apply_call_KeyError t k o c :
  apply_call t k o c = Raise KeyError_translation →
  (∃ from_name f x,
     c = UpdateField k from_name f ∧ attrs (object o) !! f = Some x
     ∧ translate t from_name x = Raise KeyError_translation)
  ∨ (∃ from_name m lns ln,
       (c = UpdateM2M k from_name m ∨ c = RegisterM2M k from_name m)
       ∧ m2m_data o !! m = Some lns ∧ ln ∈ lns
       ∧ translate t from_name (VInt ln) = Raise KeyError_translation).
Proof.
  unfold apply_call. case_decide as Hk; [|done].
  assert (Hm2m : ∀ from_name m,
            translate_m2m from_name m t o = Raise KeyError_translation →
            ∃ lns ln, m2m_data o !! m = Some lns ∧ ln ∈ lns
                      ∧ translate t from_name (VInt ln) = Raise KeyError_translation).
  { intros from_name m. unfold translate_m2m.
    destruct (m2m_data o !! m) as [lns|]; [|done].
    intros (ln & ? & ?)%comprehension_Raise. eauto. }
  destruct c as [to from f|to from f|to from m|to from m]; simpl in *; subst.
  - unfold update_field_of, getattr.
    destruct (attrs (object o) !! f) as [x|] eqn:Hx; simpl; [|done].
    destruct (translate t from x) as [new|e] eqn:Hnew; simpl; [done|].
    intros [= ->]. left. eauto 10.
  - unfold getattr. by destruct (attrs (object o) !! f).
  - destruct (translate_m2m from m t o) as [|e] eqn:Hnews; simpl; [done|].
    intros [= ->]. destruct (Hm2m _ _ Hnews) as (lns & ln & ? & ? & ?).
    right. exists from, m, lns, ln. eauto.
  - destruct (t !! from); [|done].
    destruct (translate_m2m from m t o) as [|e] eqn:Hnews; simpl; [done|].
    intros [= ->]. destruct (Hm2m _ _ Hnews) as (lns & ln & ? & ? & ?).
    right. exists from, m, lns, ln. eauto.
Qed.

(** A missing key of the translation table, for the calls on one object:
    the value that is looked up is one the object came with, as no attribute
    or list is written by two calls. *)
Lemma apply_calls_KeyError t k calls o :
  NoDup (touch <$> calls) →
  apply_calls t k calls o = Raise KeyError_translation →
  ∃ c, c ∈ calls
    ∧ ((∃ from_name f x,
          c = UpdateField k from_name f ∧ attrs (object o) !! f = Some x
          ∧ translate t from_name x = Raise KeyError_translation)
       ∨ (∃ from_name m lns ln,
            (c = UpdateM2M k from_name m ∨ c = RegisterM2M k from_name m)
            ∧ m2m_data o !! m = Some lns ∧ ln ∈ lns
            ∧ translate t from_name (VInt ln) = Raise KeyError_translation)).
Proof.
  unfold apply_calls. revert o.
  induction calls as [|c calls IH]; intros o Hnd; [done|].
  rewrite fmap_cons in Hnd. apply NoDup_cons in Hnd as [Hc Hnd].
  cbn [for_each]. destruct (apply_call t k o c) as [o1|e] eqn:Hcall; simpl.
  - intros Hrest. destruct (IH o1 Hnd Hrest) as (c' & Hc' & Hcase).
    assert (touch c' ≠ touch c) as Hne.
    { intros Heq. apply Hc. rewrite <-Heq. apply list_elem_of_fmap. eauto. }
    apply apply_call_frame in Hcall as (_ & _ & Hattrs & Hm2m).
    exists c'. split; [by right|].
    destruct Hcase as [(from & f & x & -> & Hx & ?)|(from & m & lns & ln & Hcm & Hl & ? & ?)].
    + left. exists from, f, x. split; [done|]. split; [|done].
      rewrite <-Hattrs; [done|]. intros Heq. apply Hne. by rewrite Heq.
    + right. exists from, m, lns, ln. split; [done|]. split; [|done].
      rewrite <-Hm2m; [done|]. intros Heq. apply Hne. rewrite Heq.
      by destruct Hcm as [->| ->].
  - intros [= ->]. exists c. split; [left|]. by apply apply_call_KeyError.
Qed.

Lemma step3_calls_NoDup : NoDup (touch <$> step3_calls).
Proof. apply (bool_decide_unpack _). by vm_compute. Qed.

Lemma step3_calls_fields k from_name f :
  UpdateField k from_name f ∈ step3_calls → (k, from_name, f) ∈ foreign_keys.
Proof.
  unfold step3_calls. intros Hin.
  repeat (apply elem_of_cons in Hin as [Heq|Hin];
          [first [discriminate Heq
                 |injection Heq as -> -> ->;
                  apply (bool_decide_unpack _); by vm_compute]|]).
  by apply not_elem_of_nil in Hin.
Qed.

Lemma step3_calls_m2m k from_name m :
  UpdateM2M k from_name m ∈ step3_calls ∨ RegisterM2M k from_name m ∈ step3_calls →
  (k, from_name, m) ∈ registered_many_to_many :: many_to_many.
Proof.
  unfold step3_calls. intros [Hin|Hin];
  repeat (apply elem_of_cons in Hin as [Heq|Hin];
          [first [discriminate Heq
                 |injection Heq as -> -> ->;
                  apply (bool_decide_unpack _); by vm_compute]|]);
  by apply not_elem_of_nil in Hin.
Qed.

End ImportStep3.

(** ** The import view: references resolve *)

Section ImportReferences.
Import ProjectImport.
Variable model_to_dict : Model → gmap string value.
Variable meta_fields : Model → list Field.

Lemma translate_in_table (t : gmap string (gmap Z Z)) from_name tf v :
  t !! from_name = Some tf → is_Some (tf !! v) →
  translate t from_name (VInt v) ≠ Raise KeyError_translation.
Proof. unfold translate. intros -> [new ->]. done. Qed.

(** C6. If every foreign key and every many-to-many entry of the uploaded
    document is the primary key of one of the document's objects of the
    model it refers to, then no lookup of Step 3 in the translation table
    built by Step 2 misses: Step 3 does not raise the [KeyError] of
    [trans_tbl[from_name][...]]. *)
Theorem step3_lookups_succeed (db : DB) (grouped_data : list member)
    pk_translation_table do_dict :
  refs_resolve (step1 grouped_data) →
  step2 model_to_dict meta_fields db (step1 grouped_data)
    = Return (pk_translation_table, do_dict) →
  step3 pk_translation_table do_dict ≠ Raise KeyError_translation.
Proof.
  intros [Hfk Hm2m] Hrun.
  destruct (step2_from_Return_spec model_to_dict meta_fields db (step1 grouped_data) ∅
              pk_translation_table do_dict (step1_NoDup _) Hrun)
    as (Hkeys & _ & Hgroups).
  clear Hrun. rename pk_translation_table into t, do_dict into d1.
  rewrite step3_as_calls. intros (k & objs1 & o1 & Hget1 & Ho1 & Hraise)%run_calls_Raise.
  apply apply_calls_KeyError in Hraise as (c & Hc & Hcase); [|apply step3_calls_NoDup].
  (* the object of the document that [o1] comes from *)
  assert (∃ objs0 o0, dict_get k (step1 grouped_data) = Some objs0 ∧ o0 ∈ objs0
                      ∧ attrs (object o1) = attrs (object o0)
                      ∧ m2m_data o1 = m2m_data o0)
    as (objs0 & o0 & Hget0 & Ho0 & Hattrs & Hm2m_eq).
  { destruct (dict_get k (step1 grouped_data)) as [objs0|] eqn:Hget0.
    - destruct (Hgroups k objs0 Hget0) as (tk & objs1' & _ & Hget1' & Hlen & _ & Hidx & _).
      rewrite Hget1 in Hget1'. simplify_eq.
      apply list_elem_of_lookup in Ho1 as [i Hi].
      destruct (lookup_lt_is_Some_2 objs0 i) as [o0 Ho0].
      { rewrite <-Hlen. by eapply lookup_lt_Some. }
      destruct (Hidx i o0 Ho0) as (o1' & Hi' & _ & ? & ?).
      rewrite Hi in Hi'. simplify_eq.
      exists objs0, o0. split; [done|]. split; [by eapply list_elem_of_lookup_2|done].
    - apply dict_get_None in Hget0. rewrite <-Hkeys in Hget0.
      apply dict_get_None in Hget0. congruence. }
  (* the table has an entry for every primary key of the document *)
  assert (Hdom : ∀ from_name objs_from o_from,
            dict_get from_name (step1 grouped_data) = Some objs_from →
            o_from ∈ objs_from →
            ∃ tf, t !! from_name = Some tf ∧ is_Some (tf !! pk (object o_from))).
  { intros from objs_from o_from Hfrom Hin.
    destruct (Hgroups from objs_from Hfrom) as (tf & _ & Htf & _ & _ & Hdom & _).
    exists tf. split; [done|]. apply Hdom. apply list_elem_of_fmap. eauto. }
  destruct Hcase as [(from & f & x & -> & Hx & Hmiss)|(from & m & lns & ln & Hcm & Hl & Hln & Hmiss)].
  - apply step3_calls_fields in Hc. rewrite Hattrs in Hx.
    destruct (Hfk k from f objs0 o0 x Hc Hget0 Ho0 Hx)
      as (v & objs_from & o_from & -> & Hfrom & Hin & <-).
    destruct (Hdom from objs_from o_from Hfrom Hin) as (tf & Htf & Hsome).
    by eapply translate_in_table.
  - assert ((k, from, m) ∈ registered_many_to_many :: many_to_many) as Hlisted.
    { apply step3_calls_m2m. destruct Hcm as [->| ->]; auto. }
    rewrite Hm2m_eq in Hl.
    destruct (Hm2m k from m objs0 o0 lns ln Hlisted Hget0 Ho0 Hl Hln)
      as (objs_from & o_from & Hfrom & Hin & <-).
    destruct (Hdom from objs_from o_from Hfrom Hin) as (tf & Htf & Hsome).
    by eapply translate_in_table.
Qed.

End ImportReferences.

(** ** The import view: the registration table *)

Section ImportRegistration.
Import ProjectImport.
Implicit Types (t : gmap string (gmap Z Z))
  (o : DeserializedObject) (d : list (string * list DeserializedObject))
  (r : gmap string (gmap string (gmap Z registered))).

Lemma registration_register from_name entry_name k v r e :
  registration r from_name entry_name = Return e →
  registration (register from_name entry_name k v r) from_name entry_name
  = Return (<[k := v]> e).
Proof.
  unfold registration, register.
  destruct (r !! from_name) as [inner|] eqn:Hr; [|done].
  destruct (inner !! entry_name) as [e0|] eqn:Hi; [|done]. intros [= <-].
  rewrite lookup_alter_eq, Hr. simpl. by rewrite lookup_alter_eq, Hi.
Qed.

Lemma registration_ensure_entry from_name entry_name r :
  ∃ e, registration (ensure_entry from_name entry_name r) from_name entry_name
       = Return e.
Proof.
  unfold registration, ensure_entry.
  destruct (default ∅ (r !! from_name) !! entry_name) as [e|] eqn:He.
  - rewrite lookup_insert_eq, He. eauto.
  - rewrite lookup_insert_eq, lookup_insert_eq. eauto.
Qed.

Lemma register_each_other body from_name entry_name r objs r' objs' e k :
  register_each body from_name entry_name r objs = Return (r', objs') →
  registration r from_name entry_name = Return e →
  k ∉ (λ o, pk (object o)) <$> objs →
  ∃ e', registration r' from_name entry_name = Return e' ∧ e' !! k = e !! k.
Proof.
  revert r r' objs' e. induction objs as [|o0 objs IH]; intros r r' objs' e; simpl.
  { intros [= <- <-] He _. eauto. }
  destruct (body o0) as [[v0 o0']|] eqn:Hbody; simpl; [|done].
  destruct (register_each _ _ _ _ objs) as [[r2 objs2]|] eqn:Hrest; simpl; [|done].
  intros [= <- <-] He [Hne Hk]%not_elem_of_cons.
  destruct (IH _ _ _ _ Hrest (registration_register _ _ _ v0 _ _ He) Hk)
    as (e' & He' & Hlook).
  exists e'. split; [done|]. by rewrite Hlook, lookup_insert_ne.
Qed.

(** The loop of [_register_m2m] and [_register_field] leaves, under the
    primary key of each object that is the last one with that key, the value
    the body computed for it. *)
Lemma register_each_entries body from_name entry_name r objs r' objs' e :
  register_each body from_name entry_name r objs = Return (r', objs') →
  registration r from_name entry_name = Return e →
  ∃ e', registration r' from_name entry_name = Return e'
    ∧ ∀ i o, objs !! i = Some o → last_with_pk objs i o →
        ∃ v o', body o = Return (v, o') ∧ e' !! pk (object o) = Some v.
Proof.
  revert r r' objs' e. induction objs as [|o0 objs IH]; intros r r' objs' e; simpl.
  { intros [= <- <-] He. exists e. split; [done|]. by intros i o ?. }
  destruct (body o0) as [[v0 o0']|] eqn:Hbody; simpl; [|done].
  destruct (register_each _ _ _ _ objs) as [[r2 objs2]|] eqn:Hrest; simpl; [|done].
  intros [= <- <-] He.
  pose proof (registration_register from_name entry_name (pk (object o0)) v0 r e He)
    as He1.
  destruct (IH _ _ _ _ Hrest He1) as (e' & He' & Hidx).
  exists e'. split; [done|].
  intros [|i] o Ho Hlast; simpl in Ho.
  - simplify_eq. exists v0, o0'. split; [done|].
    apply last_with_pk_head in Hlast.
    destruct (register_each_other _ _ _ _ _ _ _ _ _ Hrest He1 Hlast)
      as (e'' & He'' & Hlook).
    rewrite He' in He''. simplify_eq. by rewrite Hlook, lookup_insert_eq.
  - apply (Hidx i o Ho). by eapply last_with_pk_tail.
Qed.


Lemma updates_keep_registration t calls r d r' d' :
  Forall (λ c, match c with UpdateField _ _ _ | UpdateM2M _ _ _ => True | _ => False end)
         calls →
  for_each (λ st c, exec_call t c st) calls (r, d) = Return (r', d') → r' = r.
Proof.
  intros Hall. revert d. induction Hall as [|c calls Hc Hall IH]; intros d; simpl.
  { by intros [= <- <-]. }
  destruct (exec_call t c (r, d)) as [[r1 d1]|] eqn:Hexec; simpl; [|done].
  assert (r1 = r) as ->; [|by apply IH].
  destruct c; simpl in *; try done.
  - destruct (_update_field _ _ _ _ _); simpl in *; by simplify_eq.
  - destruct (_update_m2m _ _ _ _ _); simpl in *; by simplify_eq.
Qed.

(** Where the [linked_resources] of the resources go: when Step 3 has run
    through, the registration table holds, under the primary key of every
    resource object that is the last one with that key, the object's
    [linked_resources] mapped elementwise through the translation table. *)
Lemma step3_registers_linked_resources t d r' d' objs :
  step3 t d = Return (r', d') →
  dict_get "resource.resource" d = Some objs →
  ∃ entries,
    registration r' "resource.resource" "linked_resources" = Return entries
    ∧ ∀ i o, objs !! i = Some o → last_with_pk objs i o →
        ∃ lns news,
          m2m_data o !! "linked_resources" = Some lns
          ∧ mapped_through t "resource.resource" lns news
          ∧ entries !! pk (object o) = Some (RegisteredM2M news).
Proof.
  rewrite step3_as_calls. unfold step3_calls. intros Hrun Hobjs.
  cbn [for_each] in Hrun.
  destruct (exec_call t (UpdateField "project.project" "auth.user" "pi_id") (∅, d))
    as [[r0 d1]|] eqn:H1; cbn [mbind outcome_bind] in Hrun; [|done].
  destruct (exec_call t (RegisterField "resource.resource" "resource.resource"
                                       "parent_resource_id") (r0, d1))
    as [[r1 d2]|] eqn:H2; cbn [mbind outcome_bind] in Hrun; [|done].
  destruct (exec_call t (RegisterM2M "resource.resource" "resource.resource"
                                     "linked_resources") (r1, d2))
    as [[r2 d3]|] eqn:H3; cbn [mbind outcome_bind] in Hrun; [|done].
  change (for_each (λ st c, exec_call t c st)
            (drop 3 step3_calls) (r2, d3) = Return (r', d')) in Hrun.
  apply updates_keep_registration in Hrun as ->;
    [|repeat (apply Forall_cons; split; [done|]); apply Forall_nil_2].
  (* the resources when [_register_m2m] is called *)
  apply exec_call_Return in H1, H2.
  specialize (H1 "resource.resource"). specialize (H2 "resource.resource").
  rewrite Hobjs in H1.
  destruct (dict_get "resource.resource" d1) as [objs1|] eqn:Hobjs1; [|done].
  destruct (dict_get "resource.resource" d2) as [objs2|] eqn:Hobjs2; [|done].
  assert (Hsame : Forall2 (λ o o2, pk (object o2) = pk (object o)
                                   ∧ m2m_data o2 = m2m_data o) objs objs2).
  { apply Forall2_same_length_lookup. split.
    { apply Forall2_length in H1, H2. congruence. }
    intros i o o2 Ho Ho2.
    destruct (Forall2_lookup_l _ _ _ _ _ H1 Ho) as (o1 & Ho1 & Hoo1).
    pose proof (Forall2_lookup_lr _ _ _ _ _ _ H2 Ho1 Ho2) as Hoo2.
    simpl in Hoo1, Hoo2. vm_compute in Hoo1. simplify_eq.
    unfold apply_call in Hoo2. simpl in Hoo2.
    destruct (getattr o1 "parent_resource_id"); simpl in Hoo2; by simplify_eq. }
  simpl in H3. rewrite Hobjs2 in H3.
  destruct (register_each _ _ _ _ objs2) as [[r3 objs3]|] eqn:Hreg; simpl in H3; [|done].
  simplify_eq.
  destruct (registration_ensure_entry "resource.resource" "linked_resources" r1)
    as [e He].
  destruct (register_each_entries _ _ _ _ _ _ _ _ Hreg He) as (e' & He' & Hidx).
  exists e'. split; [done|].
  intros i o Ho Hlast.
  destruct (Forall2_lookup_l _ _ _ _ _ Hsame Ho) as (o2 & Ho2 & Hpk & Hm2m).
  destruct (Hidx i o2 Ho2) as (v & o' & Hbody & Hentry).
  { intros j oj Hij Hoj. destruct (Forall2_lookup_r _ _ _ _ _ Hsame Hoj)
      as (oj0 & Hoj0 & Hpkj & _).
    rewrite Hpk, Hpkj. by apply (Hlast j oj0). }
  destruct (translate_m2m "resource.resource" "linked_resources" t o2)
    as [news|] eqn:Hnews; simpl in Hbody; [|done].
  simplify_eq. apply translate_m2m_Return in Hnews as (lns & Hlns & Hmap).
  exists lns, news. rewrite <-Hm2m, <-Hpk. done.
Qed.

(** C3 (amended). When Step 3 has run through: every object of a model that
    carries one of the listed foreign-key fields has, in that field, the
    translation table's entry for the value it was imported with; every
    list that [_update_m2m] handles has been mapped elementwise through the
    translation table when the table has an entry for the model referred
    to, and is as imported otherwise; and the [linked_resources] list of
    every resource has been emptied on the object, its elementwise
    translation being in the registration table under the object's primary
    key, provided no later resource object has the same primary key. *)
Theorem step3_rewrites_references t d r' d' :
  step3 t d = Return (r', d') →
  (∀ to_name from_name field_name objs,
     (to_name, from_name, field_name) ∈ foreign_keys →
     dict_get to_name d = Some objs →
     ∃ objs', dict_get to_name d' = Some objs'
       ∧ Forall2 (λ o o',
                    ∃ v tf new,
                      attrs (object o) !! field_name = Some (VInt v)
                      ∧ t !! from_name = Some tf ∧ tf !! v = Some new
                      ∧ attrs (object o') !! field_name = Some (VInt new))
                 objs objs')
  ∧ (∀ to_name from_name m2m_name objs,
       (to_name, from_name, m2m_name) ∈ many_to_many →
       dict_get to_name d = Some objs →
       ∃ objs', dict_get to_name d' = Some objs'
         ∧ Forall2 (λ o o',
                      match t !! from_name with
                      | Some _ =>
                          ∃ lns news,
                            m2m_data o !! m2m_name = Some lns
                            ∧ mapped_through t from_name lns news
                            ∧ m2m_data o' !! m2m_name = Some news
                      | None => m2m_data o' !! m2m_name = m2m_data o !! m2m_name
                      end)
                   objs objs')
  ∧ (∀ objs,
       dict_get "resource.resource" d = Some objs →
       ∃ objs', dict_get "resource.resource" d' = Some objs'
         ∧ Forall2 (λ o o',
                      ∃ lns news,
                        m2m_data o !! "linked_resources" = Some lns
                        ∧ mapped_through t "resource.resource" lns news
                        ∧ m2m_data o' !! "linked_resources" = Some [])
                   objs objs'
         ∧ ∃ entries,
             registration r' "resource.resource" "linked_resources"
               = Return entries
             ∧ ∀ i o, objs !! i = Some o → last_with_pk objs i o →
                 ∃ lns news,
                   m2m_data o !! "linked_resources" = Some lns
                   ∧ mapped_through t "resource.resource" lns news
                   ∧ entries !! pk (object o) = Some (RegisteredM2M news)).
Proof.
  intros Hstep3. pose proof Hstep3 as Hrun. revert Hrun.
  rewrite step3_as_calls. intros Hrel%run_calls_Return.
  assert (Hget : ∀ k objs, dict_get k d = Some objs →
            ∃ objs', dict_get k d' = Some objs'
                     ∧ Forall2 (λ o o', apply_calls t k step3_calls o = Return o')
                               objs objs').
  { intros k objs Hk. specialize (Hrel k). rewrite Hk in Hrel.
    destruct (dict_get k d') as [objs'|]; [|done]. eauto. }
  split; [|split].
  - intros to from f objs Hin Hobjs.
    destruct (Hget to objs Hobjs) as (objs' & ? & Hall).
    exists objs'. split; [done|]. eapply Forall2_impl; [done|].
    intros o o' Ho. simpl in Ho.
    eapply (apply_calls_update_field t to step3_calls o o' from f Ho).
    unfold foreign_keys in Hin.
    repeat (apply elem_of_cons in Hin as [[= -> -> ->]|Hin]; [reflexivity|]).
    by apply not_elem_of_nil in Hin.
  - intros to from m objs Hin Hobjs.
    destruct (Hget to objs Hobjs) as (objs' & ? & Hall).
    exists objs'. split; [done|]. eapply Forall2_impl; [done|].
    intros o o' Ho. simpl in Ho.
    eapply (apply_calls_update_m2m t to step3_calls o o' from m Ho).
    unfold many_to_many in Hin.
    repeat (apply elem_of_cons in Hin as [[= -> -> ->]|Hin]; [reflexivity|]).
    by apply not_elem_of_nil in Hin.
  - intros objs Hobjs.
    destruct (Hget _ objs Hobjs) as (objs' & ? & Hall).
    exists objs'. split; [done|]. split.
    + eapply Forall2_impl; [done|].
      intros o o' Ho. simpl in Ho.
      by eapply (apply_calls_register_m2m t _ step3_calls o o' _ _ Ho).
    + by eapply step3_registers_linked_resources.
Qed.

End ImportRegistration.

(** ** The import view: Step 3 on examples *)

Section ImportStep3Examples.
Import ProjectImport ImportExamples.

(** A user exported without its group: Step 3 runs through and leaves the
    user's [groups] list as imported, although the translation table has no
    entry through which group 5 could be mapped. *)
Lemma step3_leaves_unexported_groups :
  step2 model_to_dict meta_fields empty_db (step1 lone_user)
    = Return ({[ "auth.user" := {[ 1 := 1 ]} ]}, [("auth.user", [carol_in_group])])
  ∧ step3 {[ "auth.user" := {[ 1 := 1 ]} ]} [("auth.user", [carol_in_group])]
    = Return (∅, [("auth.user", [carol_in_group])])
  ∧ ("auth.user", "auth.group", "groups") ∈ many_to_many
  ∧ m2m_data carol_in_group !! "groups" = Some [5]
  ∧ ¬ ∃ news, mapped_through {[ "auth.user" := {[ 1 := 1 ]} ]} "auth.group" [5] news.
Proof.
  split; [vm_compute; reflexivity|].
  split; [vm_compute; reflexivity|]. split; [left|].
  split; [vm_compute; reflexivity|].
  intros (news & Hmap). unfold mapped_through in Hmap.
  apply Forall2_cons_inv_l in Hmap as (new & ? & Hnew & _). discriminate Hnew.
Qed.

Lemma small_project_step3 :
  step3 {[ "project.project" := {[ 1 := 1 ]}; "auth.user" := {[ 1 := 1 ]} ]}
        (step1 small_project)
  = Return (∅, [("project.project", [project_1]); ("auth.user", [carol])]).
Proof. vm_compute. reflexivity. Qed.

Lemma step3_rewrites_references_witness :
  step3 {[ "project.project" := {[ 1 := 1 ]}; "auth.user" := {[ 1 := 1 ]} ]}
        (step1 small_project)
  = Return (∅, [("project.project", [project_1]); ("auth.user", [carol])])
  ∧ ∃ objs',
      dict_get "project.project"
               [("project.project", [project_1]); ("auth.user", [carol])]
        = Some objs'
      ∧ Forall2 (λ o o',
                   ∃ v tf new,
                     attrs (object o) !! "pi_id" = Some (VInt v)
                     ∧ ({[ "project.project" := {[ 1 := 1 ]};
                           "auth.user" := {[ 1 := 1 ]} ]}
                          : gmap string (gmap Z Z)) !! "auth.user" = Some tf
                     ∧ tf !! v = Some new
                     ∧ attrs (object o') !! "pi_id" = Some (VInt new))
                [project_1] objs'.
Proof.
  split; [exact small_project_step3|].
  refine (proj1 (step3_rewrites_references _ _ _ _ small_project_step3)
            "project.project" "auth.user" "pi_id" [project_1] _ _).
  - left.
  - reflexivity.
Defined.

Lemma small_project_refs_resolve : refs_resolve (step1 small_project).
Proof.
  split.
  - intros to from f objs o x Hin Hget Ho Hx. unfold foreign_keys in Hin.
    repeat (apply elem_of_cons in Hin as [Heq|Hin];
            [injection Heq as -> -> ->; vm_compute in Hget; try discriminate Hget|]);
      [|by apply not_elem_of_nil in Hin].
    injection Hget as <-. apply list_elem_of_singleton in Ho as ->.
    vm_compute in Hx. injection Hx as <-.
    exists 1, [carol], carol. split; [done|]. split; [reflexivity|].
    split; [left|done].
  - intros to from m objs o lns ln Hin Hget Ho Hl Hln.
    unfold registered_many_to_many, many_to_many in Hin.
    repeat (apply elem_of_cons in Hin as [Heq|Hin];
            [injection Heq as -> -> ->; vm_compute in Hget; try discriminate Hget|]);
      [|by apply not_elem_of_nil in Hin].
    injection Hget as <-. apply list_elem_of_singleton in Ho as ->.
    vm_compute in Hl. injection Hl as <-. by apply not_elem_of_nil in Hln.
Qed.

Lemma small_project_step2 :
  step2 model_to_dict meta_fields empty_db (step1 small_project)
  = Return ({[ "project.project" := {[ 1 := 1 ]}; "auth.user" := {[ 1 := 1 ]} ]},
            [("project.project", [project_1]); ("auth.user", [carol])]).
Proof. vm_compute. reflexivity. Qed.

Lemma step3_lookups_succeed_witness :
  refs_resolve (step1 small_project)
  ∧ step2 model_to_dict meta_fields empty_db (step1 small_project)
    = Return ({[ "project.project" := {[ 1 := 1 ]}; "auth.user" := {[ 1 := 1 ]} ]},
              [("project.project", [project_1]); ("auth.user", [carol])])
  ∧ step3 {[ "project.project" := {[ 1 := 1 ]}; "auth.user" := {[ 1 := 1 ]} ]}
          [("project.project", [project_1]); ("auth.user", [carol])]
    ≠ Raise KeyError_translation.
Proof.
  split; [exact small_project_refs_resolve|].
  split; [exact small_project_step2|].
  exact (step3_lookups_succeed model_to_dict meta_fields empty_db small_project _ _
           small_project_refs_resolve small_project_step2).
Defined.

End ImportStep3Examples.

(** ** The import view: Step 4 and the request as a whole *)

Section ImportSave.
Import ProjectImport ImportExamples.

Lemma save_obj_keeps_flag violates (st : world * bool) obj :
  (save_obj violates st obj).2 = st.2.
Proof.
  destruct st as [w resave_proj]. unfold save_obj.
  destruct (save violates (Deserialized obj) w) as [w' []]; done.
Qed.

Lemma save_all_never_resaves violates do_dict w :
  (save_all violates do_dict w).2 = false.
Proof.
  unfold save_all.
  assert (∀ (objs : list DeserializedObject) st,
            (foldl (save_obj violates) st objs).2 = st.2) as Hinner.
  { induction objs as [|o objs IH]; intros st; simpl; [done|].
    by rewrite IH, save_obj_keeps_flag. }
  assert (∀ st, st.2 = false →
            (foldl (λ st entry, foldl (save_obj violates) st entry.2) st do_dict).2
            = false) as Houter.
  { induction do_dict as [|entry d IH]; intros st Hst; simpl; [done|].
    apply IH. by rewrite Hinner. }
  by apply Houter.
Qed.

(** C4, on the code: the save loop never sets [resave_proj], because it
    asks [isinstance] about the deserializer's wrapper and not about the
    model instance under [.object]; so a project whose save raises
    [IntegrityError] is not saved again. On the document [small_project]
    the database refuses the project while its PI is not stored; the user
    is saved after it, the project is logged once and is missing at the
    end, although saving it then would go through. *)
Theorem project_save_never_retried :
  (∀ violates do_dict w, (save_all violates do_dict w).2 = false)
  ∧ ∃ response,
      post pi_constraint (λ _, Loaded small_project) model_to_dict meta_fields
           upload empty_world = Return response
      ∧ save_log (world_after response) = [Deserialized project_1; Deserialized carol]
      ∧ rows (db (world_after response)) "project.project" = []
      ∧ rows (db (world_after response)) "auth.user" = [carol]
      ∧ pi_constraint (db (world_after response)) (Instance (object project_1))
        = false.
Proof.
  split; [apply save_all_never_resaves|].
  exists {| world_after := {| db := {[ "auth.user" := [carol] ]};
                              save_log := [Deserialized project_1;
                                           Deserialized carol] |};
            error_messages := []; redirect_to := "project-list" |}.
  split; [vm_compute; reflexivity|].
  split; [reflexivity|]. split; [vm_compute; reflexivity|].
  split; vm_compute; reflexivity.
Qed.

(** C9. If the uploaded file cannot be parsed ([json.loads] raises
    [JSONDecodeError] or [UnicodeDecodeError]), the request leaves the
    database as it was, without a call to [save], reports one error message
    and redirects to the project list. *)
Theorem post_decode_error_changes_nothing
    violates json_loads model_to_dict meta_fields request w :
  form_is_valid request = true →
  json_loads (file_upload request) = JSONDecodeError
  ∨ json_loads (file_upload request) = UnicodeDecodeError →
  ∃ message,
    post violates json_loads model_to_dict meta_fields request w
    = Return {| world_after := w; error_messages := [message];
                redirect_to := "project-list" |}.
Proof.
  intros Hvalid Herror. unfold post. rewrite Hvalid.
  destruct Herror as [-> | ->]; eexists; reflexivity.
Qed.

Lemma post_decode_error_changes_nothing_witness :
  form_is_valid upload = true
  ∧ ((λ _ : string, JSONDecodeError) (file_upload upload) = JSONDecodeError
     ∨ (λ _ : string, JSONDecodeError) (file_upload upload) = UnicodeDecodeError)
  ∧ ∃ message,
      post pi_constraint (λ _, JSONDecodeError) ImportExamples.model_to_dict
           ImportExamples.meta_fields upload
           {| db := alice_db; save_log := [] |}
      = Return {| world_after := {| db := alice_db; save_log := [] |};
                  error_messages := [message];
                  redirect_to := "project-list" |}.
Proof.
  split; [reflexivity|]. split; [left; reflexivity|].
  exact (post_decode_error_changes_nothing pi_constraint (λ _, JSONDecodeError)
           ImportExamples.model_to_dict ImportExamples.meta_fields upload
           {| db := alice_db; save_log := [] |} eq_refl (or_introl eq_refl)).
Defined.

End ImportSave.

(** ** The import view: more about Steps 1 and 2 *)

Section ImportGather.
Import ProjectImport.
Implicit Types (m : member) (d : list (string * list DeserializedObject)).

Lemma gather_get grouped_data d name :
  dict_get name
    (foldl (λ do_dict m,
              match member_name m with
              | Some name => dict_set name (member_objects m) do_dict
              | None => do_dict
              end) d grouped_data)
  = match last (filter (λ m, member_name m = Some name) grouped_data) with
    | Some m => Some (member_objects m)
    | None => dict_get name d
    end.
Proof.
  revert d. induction grouped_data as [|m ms IH]; intros d; simpl; [done|].
  rewrite IH, filter_cons.
  destruct (decide (member_name m = Some name)) as [Hm|Hm].
  - rewrite Hm, dict_get_set, decide_True by done.
    destruct (filter _ ms) as [|m' ms'] eqn:Hf; [done|].
    rewrite last_cons_cons. destruct (last (m' :: ms')) eqn:Hlast; [done|].
    rewrite last_cons in Hlast. by destruct (last ms').
  - destruct (last (filter _ ms)); [done|].
    destruct (member_name m) as [n|]; [|done].
    rewrite dict_get_set, decide_False; [done|congruence].
Qed.

Lemma gather_keys grouped_data d :
  (foldl (λ do_dict m,
            match member_name m with
            | Some name => dict_set name (member_objects m) do_dict
            | None => do_dict
            end) d grouped_data).*1
  = foldl (λ keys name, if decide (name ∈ keys) then keys else keys ++ [name])
          d.*1 (omap member_name grouped_data).
Proof.
  revert d. induction grouped_data as [|m ms IH]; intros d; simpl; [done|].
  rewrite IH. destruct (member_name m) as [name|]; simpl; [|done].
  by rewrite dict_set_keys.
Qed.

(** Step 1 keeps, for every model name, the objects of the last member of
    the document that carries the name, and lists the names in the order of
    their first members; members in which no name is found are dropped. *)
Theorem step1_last_member_wins grouped_data :
  (∀ name,
     dict_get name (step1 grouped_data)
     = member_objects
         <$> last (filter (λ m, member_name m = Some name) grouped_data))
  ∧ (step1 grouped_data).*1
    = reverse (remove_dups (reverse (omap member_name grouped_data))).
Proof.
  split.
  - intros name. unfold step1. rewrite gather_get.
    by destruct (last _).
  - unfold step1. rewrite gather_keys. simpl.
    generalize (omap member_name grouped_data). intros names.
    induction names as [|name names IH] using rev_ind; [done|].
    rewrite foldl_app, reverse_app. simpl. rewrite IH.
    destruct (decide (name ∈ reverse (remove_dups (reverse names)))) as [Hin|Hin];
      destruct (decide_rel elem_of name (reverse names)) as [Hin'|Hin'].
    + done.
    + exfalso. apply Hin'.
      by rewrite elem_of_reverse, elem_of_remove_dups in Hin.
    + exfalso. apply Hin. by rewrite elem_of_reverse, elem_of_remove_dups.
    + by rewrite reverse_cons.
Qed.

End ImportGather.

Section ImportStep2More.
Import ProjectImport.
Variable model_to_dict : Model → gmap string value.
Variable meta_fields : Model → list Field.
Local Abbreviation assign_pk := (assign_pk model_to_dict meta_fields).
Local Abbreviation assign_pks := (assign_pks model_to_dict meta_fields).
Local Abbreviation step2_from := (step2_from model_to_dict meta_fields).
Local Abbreviation step2 := (step2 model_to_dict meta_fields).

(** What Step 2 leaves alone: when it has run through, [do_dict] has the
    same model names in the same order and, under each name, as many
    objects as before, each with the model, the attributes and the
    many-to-many lists it was imported with; the translation table has an
    entry for exactly the model names of the document and, under each, for
    exactly the primary keys the document's objects of that name carry. *)
Theorem step2_changes_only_primary_keys db grouped_data pk_translation_table do_dict' :
  step2 db (step1 grouped_data) = Return (pk_translation_table, do_dict') →
  do_dict'.*1 = (step1 grouped_data).*1
  ∧ (∀ key, is_Some (pk_translation_table !! key)
            ↔ key ∈ (step1 grouped_data).*1)
  ∧ ∀ key objs, dict_get key (step1 grouped_data) = Some objs →
      ∃ tbl objs',
        pk_translation_table !! key = Some tbl
        ∧ dict_get key do_dict' = Some objs'
        ∧ (∀ k, is_Some (tbl !! k) ↔ k ∈ (λ o, pk (object o)) <$> objs)
        ∧ Forall2 (λ o o',
                     model_label (object o') = model_label (object o)
                     ∧ attrs (object o') = attrs (object o)
                     ∧ m2m_data o' = m2m_data o)
                  objs objs'.
Proof.
  intros Hrun.
  destruct (step2_from_Return_spec model_to_dict meta_fields db (step1 grouped_data) ∅
              pk_translation_table do_dict' (step1_NoDup _) Hrun)
    as (Hkeys & Hframe & Hgroups).
  split; [done|]. split.
  - intros key. split.
    + intros Hsome. destruct (decide (key ∈ (step1 grouped_data).*1)); [done|].
      rewrite Hframe, lookup_empty in Hsome by done. by destruct Hsome.
    + intros Hin.
      destruct (dict_get key (step1 grouped_data)) as [objs|] eqn:Hget.
      * destruct (Hgroups key objs Hget) as (tbl & ? & -> & _). eauto.
      * by apply dict_get_None in Hget.
  - intros key objs Hget.
    destruct (Hgroups key objs Hget) as (tbl & objs' & Htbl & Hget' & Hlen & Hdom & Hidx & _).
    exists tbl, objs'. split; [done|]. split; [done|]. split; [done|].
    apply Forall2_same_length_lookup. split; [done|].
    intros i o o' Ho Ho'.
    destruct (Hidx i o Ho) as (o1 & Ho1 & Hass & Hattrs & Hm2m).
    rewrite Ho' in Ho1. simplify_eq. split; [|done].
    destruct Hass as [(_ & -> & _)|(_ & -> & _)]; done.
Qed.

Lemma assign_pks_fresh db key ps objs :
  (∀ obj, obj ∈ objs → objects_all db (model_label (object obj)) = []) →
  ∃ ps', assign_pks db key ps objs
         = Return (ps', imap (λ i obj, set_pk (new_pk ps + Z.of_nat i + 1) obj) objs).
Proof.
  revert ps. induction objs as [|obj objs IH]; intros ps Hempty; simpl; [by eexists|].
  unfold ProjectImport.assign_pk at 1. rewrite (Hempty obj) by left. simpl.
  destruct (IH {| new_pk := new_pk ps + 1;
                  translations := <[pk (object obj) := new_pk ps + 1]> (translations ps) |})
    as [ps' ->]; [by intros o ?; apply Hempty; right|].
  simpl. exists ps'. rewrite Z.add_0_r. do 3 f_equal.
  apply imap_ext. intros i o _. simpl. f_equal. lia.
Qed.

Lemma step2_from_groups db d tbl0 t d' key objs :
  NoDup d.*1 →
  step2_from db tbl0 d = Return (t, d') →
  dict_get key d = Some objs →
  ∃ ps' objs', assign_pks db key {| new_pk := 0; translations := ∅ |} objs
               = Return (ps', objs')
               ∧ dict_get key d' = Some objs'.
Proof.
  revert tbl0 t d'. induction d as [|[key0 objs0] d IH]; intros tbl0 t d' Hnd; [done|].
  apply NoDup_cons in Hnd as [Hkey0 Hnd].
  cbn [ProjectImport.step2_from dict_get].
  destruct (assign_pks db key0 _ objs0) as [[ps1 objs1]|] eqn:Hgroup; simpl; [|done].
  destruct (step2_from db _ d) as [[t1 d1]|] eqn:Hrest; simpl; [|done].
  intros [= <- <-]. simpl. case_decide as Hk.
  - intros [= <-]. subst. eauto.
  - intros Hget. by eapply IH.
Qed.

(** Import into tables that hold no row of the models concerned: Step 2
    runs through and numbers the objects of every model name 1, 2, 3, ... in
    the order of the document, whatever primary keys they were imported
    with; the translation table sends the imported key of an object to its
    number (for the last object with that imported key). *)
Theorem step2_into_empty_tables db grouped_data :
  (∀ key objs obj, dict_get key (step1 grouped_data) = Some objs → obj ∈ objs →
     objects_all db (model_label (object obj)) = []) →
  ∃ pk_translation_table do_dict',
    step2 db (step1 grouped_data) = Return (pk_translation_table, do_dict')
    ∧ ∀ key objs, dict_get key (step1 grouped_data) = Some objs →
        dict_get key do_dict'
        = Some (imap (λ i obj, set_pk (Z.of_nat i + 1) obj) objs)
        ∧ ∃ tbl, pk_translation_table !! key = Some tbl
            ∧ ∀ i obj, objs !! i = Some obj → last_with_pk objs i obj →
                tbl !! pk (object obj) = Some (Z.of_nat i + 1).
Proof.
  intros Hempty.
  destruct (step2_from_runs model_to_dict meta_fields db (step1 grouped_data) ∅
              (step1_NoDup _))
    as (t & d' & Hrun & _ & _ & Hgroups).
  { intros key objs obj cur Hin Hobj _ Hcur.
    rewrite (Hempty key objs obj) in Hcur; [|by apply dict_get_NoDup; [apply step1_NoDup|]|done].
    by apply not_elem_of_nil in Hcur. }
  exists t, d'. split; [done|]. intros key objs Hget.
  destruct (step2_from_groups db _ _ _ _ key objs (step1_NoDup _) Hrun Hget)
    as (ps' & objs' & Hassign & Hget').
  destruct (assign_pks_fresh db key {| new_pk := 0; translations := ∅ |} objs)
    as [ps'' Hfresh]; [by intros obj ?; eapply Hempty|].
  rewrite Hfresh in Hassign. simpl in Hassign. simplify_eq.
  split; [done|].
  destruct (Hgroups key objs Hget) as (tbl & objs' & Htbl & Hget'' & _ & _ & Hidx & _).
  rewrite Hget' in Hget''. simplify_eq.
  exists tbl. split; [done|]. intros i obj Hobj Hlast.
  destruct (Hidx i obj Hobj) as (obj' & Hobj' & Hass & _).
  rewrite list_lookup_imap, Hobj in Hobj'. simpl in Hobj'. simplify_eq.
  destruct Hass as [((_ & cur & Hcur & _) & _)|(_ & _ & _ & _ & Hmap)].
  - rewrite (Hempty key objs obj) in Hcur; [|done|by eapply list_elem_of_lookup_2].
    by apply not_elem_of_nil in Hcur.
  - by apply Hmap.
Qed.

End ImportStep2More.

(** ** The import view: more about Step 3 *)

Section ImportStep3More.
Import ProjectImport.
Implicit Types (t : gmap string (gmap Z Z)) (k : string)
  (o : DeserializedObject) (d : list (string * list DeserializedObject))
  (r : gmap string (gmap string (gmap Z registered))) (c : call).

Lemma dict_get_is_Some {V} (k : string) (d : list (string * V)) :
  is_Some (dict_get k d) ↔ k ∈ d.*1.
Proof.
  rewrite <-not_eq_None_Some, dict_get_None.
  destruct (decide (k ∈ d.*1)); naive_solver.
Qed.

Lemma dict_set_present_keys {V} (k : string) (v v' : V) (d : list (string * V)) :
  dict_get k d = Some v → (dict_set k v' d).*1 = d.*1.
Proof.
  intros Hget. rewrite dict_set_keys, decide_True; [done|].
  apply dict_get_is_Some. eauto.
Qed.

Lemma exec_call_keys t c r d r' d' :
  exec_call t c (r, d) = Return (r', d') → d'.*1 = d.*1.
Proof.
  destruct c as [to from f|to from f|to from m|to from m]; simpl.
  - unfold _update_field. destruct (dict_get to d) as [objs|] eqn:Hget; simpl.
    + destruct (comprehension _ objs); simpl; [|done].
      intros [= <- <-]. by eapply dict_set_present_keys.
    + by intros [= <- <-].
  - destruct (dict_get to d) as [objs|] eqn:Hget; simpl.
    + destruct (register_each _ _ _ _ objs) as [[r1 objs']|]; simpl; [|done].
      intros [= <- <-]. by eapply dict_set_present_keys.
    + by intros [= <- <-].
  - destruct (dict_get to d) as [objs|] eqn:Hget; simpl.
    + destruct (register_each _ _ _ _ objs) as [[r1 objs']|]; simpl; [|done].
      intros [= <- <-]. by eapply dict_set_present_keys.
    + by intros [= <- <-].
  - unfold _update_m2m. destruct (dict_get to d) as [objs|] eqn:Hget; simpl.
    + destruct (t !! from); simpl; [|by intros [= <- <-]].
      destruct (comprehension _ objs); simpl; [|done].
      intros [= <- <-]. by eapply dict_set_present_keys.
    + by intros [= <- <-].
Qed.

Lemma run_calls_keys t calls r d r' d' :
  for_each (λ st c, exec_call t c st) calls (r, d) = Return (r', d') →
  d'.*1 = d.*1.
Proof.
  revert r d. induction calls as [|c calls IH]; intros r d; simpl.
  { by intros [= <- <-]. }
  destruct (exec_call t c (r, d)) as [[r1 d1]|] eqn:Hc; simpl; [|done].
  intros Hrest. apply IH in Hrest. apply exec_call_keys in Hc. congruence.
Qed.

Lemma apply_calls_label t k calls o o' :
  apply_calls t k calls o = Return o' →
  model_label (object o') = model_label (object o).
Proof.
  unfold apply_calls. revert o. induction calls as [|c calls IH]; intros o; simpl.
  { by intros [= <-]. }
  destruct (apply_call t k o c) as [o1|] eqn:Hc; simpl; [|done].
  intros ->%IH. by apply apply_call_frame in Hc as (_ & ? & _).
Qed.

Lemma step3_calls_register_field k from_name f :
  RegisterField k from_name f ∈ step3_calls →
  k = "resource.resource" ∧ f = "parent_resource_id".
Proof.
  unfold step3_calls. intros Hin.
  repeat (apply elem_of_cons in Hin as [Heq|Hin];
          [first [discriminate Heq|by injection Heq as -> -> ->]|]).
  by apply not_elem_of_nil in Hin.
Qed.

(** What Step 3 leaves alone: when it has run through, [do_dict] has the
    same model names in the same order and as many objects under each;
    no object has changed its primary key or its model; an attribute has
    changed only if it is one of the listed foreign keys of the object's
    model name or the [parent_resource_id] of a resource, and a
    many-to-many list only if it is one of the five lists of Step 3. *)
Theorem step3_changes_only_listed_fields t d r' d' :
  step3 t d = Return (r', d') →
  d'.*1 = d.*1
  ∧ ∀ k objs, dict_get k d = Some objs →
      ∃ objs', dict_get k d' = Some objs'
        ∧ Forall2 (λ o o',
             pk (object o') = pk (object o)
             ∧ model_label (object o') = model_label (object o)
             ∧ (∀ f, (∀ from_name, (k, from_name, f) ∉ foreign_keys) →
                     (k, f) ≠ ("resource.resource", "parent_resource_id") →
                     attrs (object o') !! f = attrs (object o) !! f)
             ∧ (∀ m, (∀ from_name,
                        (k, from_name, m) ∉ registered_many_to_many :: many_to_many) →
                     m2m_data o' !! m = m2m_data o !! m))
           objs objs'.
Proof.
  rewrite step3_as_calls. intros Hrun. split; [by eapply run_calls_keys|].
  apply run_calls_Return in Hrun. intros k objs Hget.
  specialize (Hrun k). rewrite Hget in Hrun.
  destruct (dict_get k d') as [objs'|]; [|done].
  exists objs'. split; [done|]. eapply Forall2_impl; [done|].
  intros o o' Ho. simpl in Ho.
  pose proof (apply_calls_label _ _ _ _ _ Ho) as Hlabel.
  apply apply_calls_frame in Ho as (Hpk & Hattrs & Hm2m).
  split; [done|]. split; [done|]. split.
  - intros f Hfk Hparent. apply Hattrs.
    intros (c & Htouch & Hc)%list_elem_of_fmap.
    destruct c as [to from f0|to from f0|to from m0|to from m0];
      simpl in Htouch; simplify_eq.
    + apply step3_calls_fields in Hc. by apply (Hfk from).
    + apply step3_calls_register_field in Hc as [-> ->]. done.
  - intros m Hlisted. apply Hm2m.
    intros (c & Htouch & Hc)%list_elem_of_fmap.
    destruct c as [to from f0|to from f0|to from m0|to from m0];
      simpl in Htouch; simplify_eq.
    + apply (Hlisted from). apply step3_calls_m2m. by right.
    + apply (Hlisted from). apply step3_calls_m2m. by left.
Qed.

(** *** The registration table *)

Lemma registration_register_ne from_name entry_name (z : Z) v r name entry :
  (name, entry) ≠ (from_name, entry_name) →
  registration (register from_name entry_name z v r) name entry
  = registration r name entry.
Proof.
  intros Hne. unfold registration, register.
  destruct (decide (name = from_name)) as [->|Hname].
  - rewrite lookup_alter_eq. destruct (r !! from_name) as [inner|]; simpl; [|done].
    rewrite lookup_alter_ne; [done|congruence].
  - by rewrite lookup_alter_ne.
Qed.

Lemma registration_ensure_entry_ne from_name entry_name r name entry :
  (name, entry) ≠ (from_name, entry_name) →
  registration (ensure_entry from_name entry_name r) name entry
  = registration r name entry.
Proof.
  intros Hne. unfold registration, ensure_entry.
  destruct (decide (name = from_name)) as [->|Hname].
  - destruct (r !! from_name) as [inner|] eqn:Hr; simpl.
    + destruct (inner !! entry_name) eqn:Hi.
      * by rewrite lookup_insert_eq.
      * rewrite lookup_insert_eq, lookup_insert_ne; [done|congruence].
    + rewrite lookup_empty, lookup_insert_eq, lookup_insert_ne, lookup_empty;
        [done|congruence].
  - destruct (default ∅ (r !! from_name) !! entry_name);
      by rewrite lookup_insert_ne.
Qed.

Lemma registration_ensure_entry_new from_name entry_name r e :
  registration r from_name entry_name = Raise e →
  registration (ensure_entry from_name entry_name r) from_name entry_name
  = Return ∅.
Proof.
  unfold registration, ensure_entry.
  destruct (r !! from_name) as [inner|] eqn:Hr; simpl.
  - destruct (inner !! entry_name) eqn:Hi; [done|]. intros _.
    by rewrite lookup_insert_eq, lookup_insert_eq.
  - intros _. by rewrite lookup_empty, lookup_insert_eq, lookup_insert_eq.
Qed.

Lemma register_each_ne body from_name entry_name r objs r' objs' name entry :
  register_each body from_name entry_name r objs = Return (r', objs') →
  (name, entry) ≠ (from_name, entry_name) →
  registration r' name entry = registration r name entry.
Proof.
  intros Hrun Hne. revert r r' objs' Hrun.
  induction objs as [|o0 objs IH]; intros r r' objs'; simpl.
  { by intros [= <- <-]. }
  destruct (body o0) as [[v0 o0']|]; simpl; [|done].
  destruct (register_each _ _ _ _ objs) as [[r2 objs2]|] eqn:Hrest; simpl; [|done].
  intros [= <- <-]. rewrite (IH _ _ _ Hrest). by apply registration_register_ne.
Qed.

(** The kind of the entries the loop of [_register_m2m] and
    [_register_field] leaves. *)
Lemma register_each_kinds (P : registered → Prop) body from_name entry_name
    r objs r' objs' e :
  (∀ o v o', body o = Return (v, o') → P v) →
  register_each body from_name entry_name r objs = Return (r', objs') →
  registration r from_name entry_name = Return e →
  map_Forall (λ _, P) e →
  ∃ e', registration r' from_name entry_name = Return e'
        ∧ map_Forall (λ _, P) e'.
Proof.
  intros Hbody. revert r r' objs' e.
  induction objs as [|o0 objs IH]; intros r r' objs' e; simpl.
  { intros [= <- <-]. eauto. }
  destruct (body o0) as [[v0 o0']|] eqn:Hb; simpl; [|done].
  destruct (register_each _ _ _ _ objs) as [[r2 objs2]|] eqn:Hrest; simpl; [|done].
  intros [= <- <-] He Hall.
  eapply (IH _ _ _ _ Hrest).
  - by apply registration_register.
  - apply map_Forall_insert_2; [|done]. by eapply Hbody.
Qed.

Lemma update_field_other t to_name from_name f d d1 k :
  _update_field to_name from_name f t d = Return d1 →
  k ≠ to_name → dict_get k d1 = dict_get k d.
Proof.
  unfold _update_field. destruct (dict_get to_name d) as [objs|]; simpl.
  - destruct (comprehension _ objs); simpl; [|done]. intros [= <-] Hne.
    by rewrite dict_get_set, decide_False.
  - by intros [= <-].
Qed.

(** Step 3 as its first three calls followed by the calls that only update
    fields and lists. *)
Lemma step3_split t d r' d' :
  step3 t d = Return (r', d') →
  ∃ d1 r1 d2 d3,
    _update_field "project.project" "auth.user" "pi_id" t d = Return d1
    ∧ _register_field "resource.resource" "resource.resource"
                      "parent_resource_id" t (∅, d1) = Return (r1, d2)
    ∧ _register_m2m "resource.resource" "resource.resource"
                    "linked_resources" t (r1, d2) = Return (r', d3)
    ∧ for_each (λ st c, exec_call t c st) (drop 3 step3_calls) (r', d3)
      = Return (r', d').
Proof.
  rewrite step3_as_calls. unfold step3_calls. intros Hrun.
  cbn [for_each] in Hrun.
  destruct (exec_call t (UpdateField "project.project" "auth.user" "pi_id") (∅, d))
    as [[r0 d1]|] eqn:H1; cbn [mbind outcome_bind] in Hrun; [|done].
  destruct (exec_call t (RegisterField "resource.resource" "resource.resource"
                                       "parent_resource_id") (r0, d1))
    as [[r1 d2]|] eqn:H2; cbn [mbind outcome_bind] in Hrun; [|done].
  destruct (exec_call t (RegisterM2M "resource.resource" "resource.resource"
                                     "linked_resources") (r1, d2))
    as [[r2 d3]|] eqn:H3; cbn [mbind outcome_bind] in Hrun; [|done].
  change (for_each (λ st c, exec_call t c st)
            (drop 3 step3_calls) (r2, d3) = Return (r', d')) in Hrun.
  pose proof Hrun as Hr.
  apply updates_keep_registration in Hr as ->;
    [|repeat (apply Forall_cons; split; [done|]); apply Forall_nil_2].
  simpl in H1, H2, H3.
  destruct (_update_field _ _ _ t d) as [d1'|] eqn:Hupd; simpl in H1; [|done].
  simplify_eq. exists d1, r1, d2, d3. done.
Qed.

(** The registration table Step 3 hands to Step 4 when the document has
    resources: the entries under [parent_resource_id] are field values, those
    under [linked_resources] are lists. *)
Lemma step3_registration_kinds t d r' d' :
  step3 t d = Return (r', d') →
  is_Some (dict_get "resource.resource" d') →
  (∃ e, registration r' "resource.resource" "parent_resource_id" = Return e
        ∧ map_Forall (λ _ v, ∃ x, v = RegisteredField x) e)
  ∧ (∃ e, registration r' "resource.resource" "linked_resources" = Return e
          ∧ map_Forall (λ _ v, ∃ pks, v = RegisteredM2M pks) e).
Proof.
  intros Hrun Hsome.
  pose proof Hrun as Hkeys. rewrite step3_as_calls in Hkeys.
  apply run_calls_keys in Hkeys.
  apply dict_get_is_Some in Hsome. rewrite Hkeys in Hsome.
  apply dict_get_is_Some in Hsome as [objs Hobjs].
  destruct (step3_split _ _ _ _ Hrun) as (d1 & r1 & d2 & d3 & H1 & H2 & H3 & _).
  assert (dict_get "resource.resource" d1 = Some objs) as Hobjs1.
  { by rewrite (update_field_other _ _ _ _ _ _ _ H1). }
  simpl in H2. rewrite Hobjs1 in H2.
  destruct (register_each _ _ _ _ objs) as [[r1' objs2]|] eqn:Hreg2; simpl in H2; [|done].
  simplify_eq.
  simpl in H3. rewrite dict_get_set, decide_True in H3 by done.
  destruct (register_each _ _ _ _ objs2) as [[r2' objs3]|] eqn:Hreg3; simpl in H3; [|done].
  simplify_eq.
  (* after [_register_field] *)
  assert (∃ e, registration r1 "resource.resource" "parent_resource_id" = Return e
               ∧ map_Forall (λ _ v, ∃ x, v = RegisteredField x) e)
    as (e1 & He1 & Hall1).
  { eapply (register_each_kinds (λ v, ∃ x, v = RegisteredField x)); [|done| |].
    - intros o v o' Hb. simpl in Hb.
      destruct (getattr o "parent_resource_id"); simpl in Hb; [|done].
      simplify_eq. eauto.
    - apply (registration_ensure_entry_new _ _ _ KeyError_registration). done.
    - apply map_Forall_empty. }
  split.
  - exists e1. split; [|done].
    rewrite (register_each_ne _ _ _ _ _ _ _ _ _ Hreg3) by done.
    by rewrite registration_ensure_entry_ne.
  - eapply (register_each_kinds (λ v, ∃ pks, v = RegisteredM2M pks)); [|done| |].
    + intros o v o' Hb. simpl in Hb.
      destruct (translate_m2m "resource.resource" "linked_resources" t o);
        simpl in Hb; [|done].
      simplify_eq. eauto.
    + apply (registration_ensure_entry_new _ _ _ KeyError_registration).
      rewrite (register_each_ne _ _ _ _ _ _ _ _ _ Hreg2) by done.
      by rewrite registration_ensure_entry_ne.
    + apply map_Forall_empty.
Qed.

(** Where the [parent_resource_id] of the resources goes: when Step 3 has
    run through, the attribute is [None] on every resource object, and the
    registration table holds, under the primary key of every resource object
    that is the last one with that key, the value the object was imported
    with. The value is kept as imported: Step 3 does not look it up in the
    translation table. *)
Theorem step3_registers_parent_as_imported t d r' d' objs :
  step3 t d = Return (r', d') →
  dict_get "resource.resource" d = Some objs →
  ∃ objs' entries,
    dict_get "resource.resource" d' = Some objs'
    ∧ Forall2 (λ o o', attrs (object o') !! "parent_resource_id" = Some VNone)
              objs objs'
    ∧ registration r' "resource.resource" "parent_resource_id" = Return entries
    ∧ ∀ i o, objs !! i = Some o → last_with_pk objs i o →
        ∃ v, attrs (object o) !! "parent_resource_id" = Some v
             ∧ entries !! pk (object o) = Some (RegisteredField v).
Proof.
  intros Hrun Hobjs.
  destruct (step3_split _ _ _ _ Hrun) as (d1 & r1 & d2 & d3 & H1 & H2 & H3 & Hrest).
  assert (dict_get "resource.resource" d1 = Some objs) as Hobjs1.
  { by rewrite (update_field_other _ _ _ _ _ _ _ H1). }
  simpl in H2. rewrite Hobjs1 in H2.
  destruct (register_each _ _ _ _ objs) as [[r1' objs2]|] eqn:Hreg2; simpl in H2; [|done].
  simplify_eq.
  simpl in H3. rewrite dict_get_set, decide_True in H3 by done.
  destruct (register_each _ _ _ _ objs2) as [[r2' objs3]|] eqn:Hreg3; simpl in H3; [|done].
  simplify_eq.
  (* the objects along the calls *)
  pose proof (register_each_Return _ _ _ _ _ _ _ Hreg2) as Hobjs2.
  pose proof (register_each_Return _ _ _ _ _ _ _ Hreg3) as Hobjs3.
  apply run_calls_Return in Hrest. specialize (Hrest "resource.resource").
  rewrite dict_get_set, decide_True in Hrest by done.
  destruct (dict_get "resource.resource" d') as [objs'|]; [|done].
  (* the table *)
  destruct (registration_ensure_entry "resource.resource" "parent_resource_id" ∅)
    as [e0 He0].
  destruct (register_each_entries _ _ _ _ _ _ _ _ Hreg2 He0) as (e1 & He1 & Hidx).
  exists objs', e1. split; [done|]. split; [|split].
  - apply Forall2_same_length_lookup. split.
    { apply Forall2_length in Hobjs2, Hobjs3, Hrest. congruence. }
    intros i o o' Ho Ho'.
    destruct (Forall2_lookup_l _ _ _ _ _ Hobjs2 Ho) as (o2 & Ho2 & v2 & Hb2).
    destruct (Forall2_lookup_l _ _ _ _ _ Hobjs3 Ho2) as (o3 & Ho3 & v3 & Hb3).
    pose proof (Forall2_lookup_lr _ _ _ _ _ _ Hrest Ho3 Ho') as Hcalls.
    simpl in Hcalls. apply apply_calls_frame in Hcalls as (_ & Hattrs & _).
    rewrite (Hattrs "parent_resource_id");
      [|apply (bool_decide_unpack _); by vm_compute].
    simpl in Hb2, Hb3.
    destruct (translate_m2m "resource.resource" "linked_resources" t o2);
      simpl in Hb3; [|done].
    simplify_eq. simpl.
    destruct (getattr o "parent_resource_id"); simpl in Hb2; [|done].
    simplify_eq. simpl.
    by rewrite lookup_insert_eq.
  - rewrite (register_each_ne _ _ _ _ _ _ _ _ _ Hreg3) by done.
    by rewrite registration_ensure_entry_ne.
  - intros i o Ho Hlast. destruct (Hidx i o Ho Hlast) as (v & o' & Hb & Hentry).
    unfold getattr in Hb.
    destruct (attrs (object o) !! "parent_resource_id") as [x|] eqn:Hx;
      simpl in Hb; [|done].
    simplify_eq. eauto.
Qed.

End ImportStep3More.

(** ** The import view: more about Step 4 *)

Section ImportStep4.
Import ProjectImport.
Variable violates : DB → pyvalue → bool.
Implicit Types (w : world) (v : pyvalue) (obj row : DeserializedObject)
  (d : list (string * list DeserializedObject))
  (r : gmap string (gmap string (gmap Z registered))).

Lemma for_each_Raise {A S} (body : S → A → outcome S) xs st e :
  for_each body xs st = Raise e → ∃ x st', x ∈ xs ∧ body st' x = Raise e.
Proof.
  revert st. induction xs as [|x xs IH]; intros st; simpl; [done|].
  destruct (body st x) as [st1|e1] eqn:Hb; simpl.
  - intros (x' & st' & ? & ?)%IH. exists x', st'. split; [by right|done].
  - intros [= ->]. exists x, st. split; [left|done].
Qed.

(** The errors of the two reassignments that follow the save loop, on the
    registration table Step 3 built: [_reassign_m2m] fails only with the
    [IndexError] of [query.filter(pk=id)[0]], when a linked resource is not
    in the table of resources, and [_reassign_field] only with the
    [IntegrityError] of [obj.save]. No lookup in the registration table
    misses, although the call sites pass [do_dict] as [regist_tbl] and the
    registration table as [trans_tbl]. *)
Theorem reassignments_fail_only_on_rows t d r' d' w e :
  step3 t d = Return (r', d') →
  (_reassign_m2m "resource.resource" "linked_resources" d' r' w = Raise e →
   e = IndexError)
  ∧ (_reassign_field violates "resource.resource" "parent_resource_id" d' r' w
     = Raise e →
     e = IntegrityError).
Proof.
  intros Hrun. unfold _reassign_m2m, _reassign_field.
  destruct (dict_get "resource.resource" d') as [objs'|] eqn:Hget; [|done].
  destruct (step3_registration_kinds t d r' d' Hrun) as
    [(e1 & He1 & Hall1) (e2 & He2 & Hall2)]; [by rewrite Hget|].
  rewrite He1, He2. split.
  - intros (obj & w1 & _ & Hbody)%for_each_Raise. simpl in Hbody.
    destruct (e2 !! pk (object obj)) as [[ids|x]|] eqn:Hentry; [| |done].
    + apply for_each_Raise in Hbody as (id & w2 & _ & Hadd).
      destruct (filter _ _) in Hadd; [|done]. congruence.
    + by destruct (Hall2 _ _ Hentry).
  - intros (obj & w1 & _ & Hbody)%for_each_Raise. simpl in Hbody.
    destruct (e1 !! pk (object obj)) as [[ids|x]|] eqn:Hentry; [| |done].
    + by destruct (Hall1 _ _ Hentry).
    + unfold save_or_raise in Hbody.
      destruct (save violates _ w1) as [w2 []]; [congruence|done].
Qed.

(** *** The save loop *)

Lemma save_log_save v w :
  save_log (save violates v w).1 = save_log w ++ [v].
Proof. unfold save. by destruct (violates (db w) v). Qed.

Lemma save_obj_log (st : world * bool) obj :
  save_log (save_obj violates st obj).1 = save_log st.1 ++ [Deserialized obj].
Proof.
  destruct st as [w b]. unfold save_obj.
  pose proof (save_log_save (Deserialized obj) w) as Hlog.
  destruct (save violates (Deserialized obj) w) as [w1 []]; done.
Qed.

Lemma upsert_other row stored x :
  x ∈ stored → pk (object x) ≠ pk (object row) → x ∈ upsert row stored.
Proof.
  induction stored as [|y stored IH]; simpl; [by intros ?%not_elem_of_nil|].
  rewrite elem_of_cons. intros [->|Hx] Hne.
  - rewrite decide_False by done. left.
  - case_decide; right; auto.
Qed.

Lemma write_other obj (db0 : DB) label x :
  x ∈ rows db0 label →
  ¬ (model_label (object obj) = label ∧ pk (object obj) = pk (object x)) →
  x ∈ rows (write (Deserialized obj) db0) label.
Proof.
  intros Hx Hne. unfold write, rows, DB in *.
  destruct (decide (model_label (object obj) = label)) as [<-|Hl].
  - rewrite lookup_insert_eq. simpl. apply upsert_other; [done|]. naive_solver.
  - by rewrite lookup_insert_ne.
Qed.

Lemma save_obj_other (st : world * bool) obj label x :
  x ∈ rows (db st.1) label →
  ¬ (model_label (object obj) = label ∧ pk (object obj) = pk (object x)) →
  x ∈ rows (db (save_obj violates st obj).1) label.
Proof.
  destruct st as [w b]. unfold save_obj, save. simpl. intros Hx Hne.
  destruct (violates (db w) (Deserialized obj)); simpl; [done|].
  by apply write_other.
Qed.

(** The save loop calls [save] once on every object of [do_dict], in the
    order of [do_dict], whether or not a call raises [IntegrityError]; and it
    leaves every stored row in place whose model and primary key are not
    those of an object of [do_dict]. *)
Theorem save_loop_saves_each_once d w :
  save_log (save_all violates d w).1
  = save_log w ++ (Deserialized <$> concat d.*2)
  ∧ ∀ label x,
      x ∈ rows (db w) label →
      (∀ key objs obj, (key, objs) ∈ d → obj ∈ objs →
         ¬ (model_label (object obj) = label
            ∧ pk (object obj) = pk (object x))) →
      x ∈ rows (db (save_all violates d w).1) label.
Proof.
  unfold save_all. generalize false. intros b. revert w b.
  induction d as [|[key objs] d IH]; intros w b.
  { simpl. split; [by rewrite app_nil_r|done]. }
  cbn [foldl snd].
  assert (Hinner : ∀ (st : world * bool),
            save_log (foldl (save_obj violates) st objs).1
            = save_log st.1 ++ (Deserialized <$> objs)
            ∧ ∀ label x, x ∈ rows (db st.1) label →
                (∀ obj, obj ∈ objs →
                   ¬ (model_label (object obj) = label
                      ∧ pk (object obj) = pk (object x))) →
                x ∈ rows (db (foldl (save_obj violates) st objs).1) label).
  { clear IH. induction objs as [|obj objs IH]; intros st.
    { simpl. split; [by rewrite app_nil_r|done]. }
    cbn [foldl]. destruct (IH (save_obj violates st obj)) as [Hlog Hrows].
    split.
    - rewrite Hlog, save_obj_log, fmap_cons. by rewrite <-app_assoc.
    - intros label x Hx Hne. apply Hrows.
      + apply save_obj_other; [done|]. apply Hne. left.
      + intros o ?. apply Hne. by right. }
  destruct (Hinner (w, b)) as [Hlog1 Hrows1].
  destruct (foldl (save_obj violates) (w, b) objs) as [w1 b1] eqn:Hw1.
  destruct (IH w1 b1) as [Hlog Hrows]. split.
  - rewrite Hlog. simpl in Hlog1. rewrite Hlog1.
    rewrite fmap_cons. simpl. by rewrite fmap_app, app_assoc.
  - intros label x Hx Hne. apply Hrows.
    + apply Hrows1; [done|]. intros obj Hobj. apply (Hne key objs); [left|done].
    + intros key' objs' obj Hin. apply (Hne key' objs' obj). by right.
Qed.

(** *** Rows are never deleted *)

(** [w'] holds a row for every model and primary key [w] holds one for. *)
Local Abbreviation keeps_rows w w' :=
  (∀ label k, k ∈ (λ x, pk (object x)) <$> rows (db w) label →
              k ∈ (λ x, pk (object x)) <$> rows (db w') label).

Lemma upsert_pks row stored k :
  k ∈ (λ x, pk (object x)) <$> stored →
  k ∈ (λ x, pk (object x)) <$> upsert row stored.
Proof.
  induction stored as [|y stored IH]; simpl; [by intros ?%not_elem_of_nil|].
  case_decide as Heq; rewrite !fmap_cons, !elem_of_cons; [rewrite Heq|]; naive_solver.
Qed.

Lemma upsert_instance_pks m stored k :
  k ∈ (λ x, pk (object x)) <$> stored →
  k ∈ (λ x, pk (object x)) <$> upsert_instance m stored.
Proof.
  induction stored as [|y stored IH]; simpl; [by intros ?%not_elem_of_nil|].
  case_decide as Heq; rewrite !fmap_cons, !elem_of_cons; simpl; [rewrite Heq|];
    naive_solver.
Qed.

Lemma write_keeps_rows v (db0 : DB) label k :
  k ∈ (λ x, pk (object x)) <$> rows db0 label →
  k ∈ (λ x, pk (object x)) <$> rows (write v db0) label.
Proof.
  intros Hk. unfold write, rows, DB in *. destruct v as [obj|m].
  - destruct (decide (model_label (object obj) = label)) as [<-|Hl].
    + rewrite lookup_insert_eq. simpl. by apply upsert_pks.
    + by rewrite lookup_insert_ne.
  - destruct (decide (model_label m = label)) as [<-|Hl].
    + rewrite lookup_insert_eq. simpl. by apply upsert_instance_pks.
    + by rewrite lookup_insert_ne.
Qed.

Lemma save_keeps_rows v w : keeps_rows w (save violates v w).1.
Proof.
  intros label k Hk. unfold save.
  destruct (violates (db w) v); simpl; [done|]. by apply write_keeps_rows.
Qed.

Lemma save_or_raise_keeps_rows v w w' :
  save_or_raise violates v w = Return w' → keeps_rows w w'.
Proof.
  unfold save_or_raise. pose proof (save_keeps_rows v w) as Hkeeps.
  destruct (save violates v w) as [w1 []]; [done|]. by intros [= <-].
Qed.

Lemma add_m2m_keeps_rows name row_pk m2m_name x (db0 : DB) label k :
  k ∈ (λ x, pk (object x)) <$> rows db0 label →
  k ∈ (λ x, pk (object x)) <$> rows (add_m2m name row_pk m2m_name x db0) label.
Proof.
  intros Hk. unfold add_m2m, rows, DB in *.
  destruct (decide (name = label)) as [<-|Hl].
  - rewrite lookup_insert_eq. simpl. rewrite <-list_fmap_compose.
    erewrite list_fmap_ext; [done|].
    intros i y _. simpl. case_decide; [|done]. by case_decide.
  - by rewrite lookup_insert_ne.
Qed.

Lemma save_all_keeps_rows d w : keeps_rows w (save_all violates d w).1.
Proof.
  unfold save_all. generalize false. intros b. revert w b.
  induction d as [|[key objs] d IH]; intros w b; [done|].
  cbn [foldl snd].
  assert (Hinner : ∀ st : world * bool,
            keeps_rows st.1 (foldl (save_obj violates) st objs).1).
  { clear IH. induction objs as [|obj objs IH]; intros st; [done|].
    cbn [foldl]. intros label k Hk. apply IH.
    destruct st as [w0 b0]. unfold save_obj.
    pose proof (save_keeps_rows (Deserialized obj) w0 label k Hk) as Hsave.
    by destruct (save violates (Deserialized obj) w0) as [w1 []]. }
  intros label k Hk.
  pose proof (Hinner (w, b) label k Hk) as H1.
  destruct (foldl (save_obj violates) (w, b) objs) as [w1 b1].
  by apply IH.
Qed.

Lemma reassign_m2m_keeps_rows name m2m_name d r w w' :
  _reassign_m2m name m2m_name d r w = Return w' → keeps_rows w w'.
Proof.
  unfold _reassign_m2m. destruct (dict_get name d); [|by intros [= <-]].
  generalize (rows (db w) name). intros q. revert w.
  induction q as [|obj q IHq]; intros w; simpl; [by intros [= <-]|].
  destruct (registration r _ _) as [entries|]; simpl; [|done].
  destruct (entries !! pk (object obj)) as [[ids|x]|]; simpl; [|done|by apply IHq].
  destruct (for_each _ ids w) as [w1|] eqn:Hids; simpl; [|done].
  intros Hrest label k Hk. apply (IHq _ Hrest).
  clear Hrest. revert w Hids Hk. induction ids as [|id ids IHids]; intros w; simpl.
  { by intros [= <-]. }
  destruct (filter _ _) as [|x xs]; simpl; [done|].
  intros Hrest Hk. apply (IHids _ Hrest). simpl. by apply add_m2m_keeps_rows.
Qed.

Lemma reassign_field_keeps_rows name field_name d r w w' :
  _reassign_field violates name field_name d r w = Return w' → keeps_rows w w'.
Proof.
  unfold _reassign_field. destruct (dict_get name d); [|by intros [= <-]].
  generalize (rows (db w) name). intros q. revert w.
  induction q as [|obj q IHq]; intros w; simpl; [by intros [= <-]|].
  destruct (registration r _ _) as [entries|]; simpl; [|done].
  destruct (entries !! pk (object obj)) as [[ids|x]|]; simpl; [done| |by apply IHq].
  destruct (save_or_raise _ _ w) as [w1|] eqn:Hsave; simpl; [|done].
  intros Hrest label k Hk. apply (IHq _ Hrest).
  by apply (save_or_raise_keeps_rows _ _ _ Hsave).
Qed.

Lemma step4_keeps_rows d r w w' :
  step4 violates d r w = Return w' → keeps_rows w w'.
Proof.
  unfold step4. pose proof (save_all_keeps_rows d w) as Hsave.
  destruct (save_all violates d w) as [w1 resave_proj]. simpl in Hsave.
  destruct (_reassign_m2m _ _ d r w1) as [w2|] eqn:Hm2m; simpl; [|done].
  destruct (_reassign_field _ _ _ d r w2) as [w3|] eqn:Hfield; simpl; [|done].
  pose proof (reassign_m2m_keeps_rows _ _ _ _ _ _ Hm2m) as H12.
  pose proof (reassign_field_keeps_rows _ _ _ _ _ _ Hfield) as H23.
  assert (keeps_rows w w3) as H03 by (intros label k Hk; by apply H23, H12, Hsave).
  destruct resave_proj; [|by intros [= <-]].
  unfold resave_project. destruct (dict_get _ d) as [[|obj objs]|]; try done.
  intros Hres label k Hk. apply (save_or_raise_keeps_rows _ _ _ Hres). by apply H03.
Qed.

(** The import never deletes a row: whatever the uploaded file holds, when
    the request returns, every model and primary key that had a row before
    has one afterwards. *)
Theorem import_never_deletes_rows json_loads model_to_dict meta_fields
    request w response :
  post violates json_loads model_to_dict meta_fields request w = Return response →
  ∀ label k,
    k ∈ (λ x, pk (object x)) <$> rows (db w) label →
    k ∈ (λ x, pk (object x)) <$> rows (db (world_after response)) label.
Proof.
  unfold post. destruct (form_is_valid request); [|by intros [= <-]].
  destruct (json_loads _) as [grouped_data| |]; [|by intros [= <-]..].
  destruct (step2 _ _ _ _) as [[t d1]|]; simpl; [|done].
  destruct (step3 t d1) as [[r d2]|]; simpl; [|done].
  destruct (step4 violates d2 r w) as [w'|] eqn:Hstep4; simpl; [|done].
  intros [= <-]. simpl. by apply (step4_keeps_rows d2 r).
Qed.

End ImportStep4.

(** ** The import view: further examples *)

Section ImportMoreExamples.
Import ProjectImport ImportExamples ImportResourceExamples.

Lemma step2_changes_only_primary_keys_witness :
  step2 model_to_dict meta_fields empty_db (step1 small_project)
  = Return ({[ "project.project" := {[ 1 := 1 ]}; "auth.user" := {[ 1 := 1 ]} ]},
            [("project.project", [project_1]); ("auth.user", [carol])])
  ∧ [("project.project", [project_1]); ("auth.user", [carol])].*1
    = (step1 small_project).*1.
Proof.
  split; [exact small_project_step2|].
  exact (proj1 (step2_changes_only_primary_keys model_to_dict meta_fields
                  empty_db small_project _ _ small_project_step2)).
Defined.

Lemma two_resources_step2 :
  step2 model_to_dict meta_fields resource_db (step1 two_resources)
  = Return (resource_table, resource_dict).
Proof. vm_compute. reflexivity. Qed.

Lemma step2_into_empty_tables_witness :
  (∀ key objs obj, dict_get key (step1 twin_grants) = Some objs → obj ∈ objs →
     objects_all empty_db (model_label (object obj)) = [])
  ∧ ∃ pk_translation_table do_dict',
      step2 model_to_dict meta_fields empty_db (step1 twin_grants)
      = Return (pk_translation_table, do_dict')
      ∧ dict_get "grant.grant" do_dict'
        = Some [set_pk 1 grant_a; set_pk 2 grant_b].
Proof.
  assert (Hempty : ∀ key objs obj,
            dict_get key (step1 twin_grants) = Some objs → obj ∈ objs →
            objects_all empty_db (model_label (object obj)) = []).
  { intros key objs obj _ _. reflexivity. }
  split; [exact Hempty|].
  destruct (step2_into_empty_tables model_to_dict meta_fields empty_db twin_grants
              Hempty) as (t & d' & Hrun & Hgroups).
  exists t, d'. split; [exact Hrun|].
  exact (proj1 (Hgroups "grant.grant" [grant_a; grant_b] eq_refl)).
Defined.

Lemma two_resources_step3 :
  step3 resource_table resource_dict
  = Return
      ({[ "resource.resource" :=
            {[ "parent_resource_id" :=
                 {[ 11 := RegisteredField VNone;
                    12 := RegisteredField (VInt 1) ]};
               "linked_resources" :=
                 {[ 11 := RegisteredM2M []; 12 := RegisteredM2M [11] ]} ]} ]},
       [("resource.resource",
         [set_m2m (setattr (set_pk 11 cluster) "parent_resource_id" VNone)
                  "linked_resources" [];
          set_m2m (setattr (set_pk 12 partition) "parent_resource_id" VNone)
                  "linked_resources" []])]).
Proof. vm_compute. reflexivity. Qed.

Lemma step3_changes_only_listed_fields_witness :
  step3 resource_table resource_dict
  = Return
      ({[ "resource.resource" :=
            {[ "parent_resource_id" :=
                 {[ 11 := RegisteredField VNone;
                    12 := RegisteredField (VInt 1) ]};
               "linked_resources" :=
                 {[ 11 := RegisteredM2M []; 12 := RegisteredM2M [11] ]} ]} ]},
       [("resource.resource",
         [set_m2m (setattr (set_pk 11 cluster) "parent_resource_id" VNone)
                  "linked_resources" [];
          set_m2m (setattr (set_pk 12 partition) "parent_resource_id" VNone)
                  "linked_resources" []])])
  ∧ [("resource.resource",
      [set_m2m (setattr (set_pk 11 cluster) "parent_resource_id" VNone)
               "linked_resources" [];
       set_m2m (setattr (set_pk 12 partition) "parent_resource_id" VNone)
               "linked_resources" []])].*1
    = resource_dict.*1.
Proof.
  split; [exact two_resources_step3|].
  exact (proj1 (step3_changes_only_listed_fields _ _ _ _ two_resources_step3)).
Defined.

(** The partition was exported with the cluster, imported key 1, as its
    parent; the cluster is stored under the key 11; the registration table
    keeps the parent 1. *)
Lemma step3_registers_parent_as_imported_witness :
  step3 resource_table resource_dict
  = Return
      ({[ "resource.resource" :=
            {[ "parent_resource_id" :=
                 {[ 11 := RegisteredField VNone;
                    12 := RegisteredField (VInt 1) ]};
               "linked_resources" :=
                 {[ 11 := RegisteredM2M []; 12 := RegisteredM2M [11] ]} ]} ]},
       [("resource.resource",
         [set_m2m (setattr (set_pk 11 cluster) "parent_resource_id" VNone)
                  "linked_resources" [];
          set_m2m (setattr (set_pk 12 partition) "parent_resource_id" VNone)
                  "linked_resources" []])])
  ∧ dict_get "resource.resource" resource_dict
    = Some [set_pk 11 cluster; set_pk 12 partition]
  ∧ ∃ objs' entries,
      dict_get "resource.resource"
        [("resource.resource",
          [set_m2m (setattr (set_pk 11 cluster) "parent_resource_id" VNone)
                   "linked_resources" [];
           set_m2m (setattr (set_pk 12 partition) "parent_resource_id" VNone)
                   "linked_resources" []])]
      = Some objs'
      ∧ Forall2 (λ o o', attrs (object o') !! "parent_resource_id" = Some VNone)
                [set_pk 11 cluster; set_pk 12 partition] objs'
      ∧ registration
          {[ "resource.resource" :=
               {[ "parent_resource_id" :=
                    {[ 11 := RegisteredField VNone;
                       12 := RegisteredField (VInt 1) ]};
                  "linked_resources" :=
                    {[ 11 := RegisteredM2M []; 12 := RegisteredM2M [11] ]} ]} ]}
          "resource.resource" "parent_resource_id"
        = Return entries
      ∧ ∀ i o, [set_pk 11 cluster; set_pk 12 partition] !! i = Some o →
          last_with_pk [set_pk 11 cluster; set_pk 12 partition] i o →
          ∃ v, attrs (object o) !! "parent_resource_id" = Some v
               ∧ entries !! pk (object o) = Some (RegisteredField v).
Proof.
  split; [exact two_resources_step3|]. split; [reflexivity|].
  exact (step3_registers_parent_as_imported _ _ _ _ _ two_resources_step3 eq_refl).
Defined.

Lemma reassignments_fail_only_on_rows_witness :
  step3 resource_table resource_dict
  = Return
      ({[ "resource.resource" :=
            {[ "parent_resource_id" :=
                 {[ 11 := RegisteredField VNone;
                    12 := RegisteredField (VInt 1) ]};
               "linked_resources" :=
                 {[ 11 := RegisteredM2M []; 12 := RegisteredM2M [11] ]} ]} ]},
       [("resource.resource",
         [set_m2m (setattr (set_pk 11 cluster) "parent_resource_id" VNone)
                  "linked_resources" [];
          set_m2m (setattr (set_pk 12 partition) "parent_resource_id" VNone)
                  "linked_resources" []])])
  ∧ ∀ e,
      _reassign_m2m "resource.resource" "linked_resources"
        [("resource.resource",
          [set_m2m (setattr (set_pk 11 cluster) "parent_resource_id" VNone)
                   "linked_resources" [];
           set_m2m (setattr (set_pk 12 partition) "parent_resource_id" VNone)
                   "linked_resources" []])]
        {[ "resource.resource" :=
             {[ "parent_resource_id" :=
                  {[ 11 := RegisteredField VNone;
                     12 := RegisteredField (VInt 1) ]};
                "linked_resources" :=
                  {[ 11 := RegisteredM2M []; 12 := RegisteredM2M [11] ]} ]} ]}
        {| db := resource_db; save_log := [] |}
      = Raise e → e = IndexError.
Proof.
  split; [exact two_resources_step3|]. intros e.
  exact (proj1 (reassignments_fail_only_on_rows (λ _ _, false) _ _ _ _ _ e
                  two_resources_step3)).
Defined.

Lemma import_never_deletes_rows_witness :
  ∃ response,
    post pi_constraint (λ _, Loaded small_project) model_to_dict meta_fields
         upload {| db := alice_db; save_log := [] |}
    = Return response
    ∧ 7 ∈ (λ x, pk (object x)) <$> rows (db (world_after response)) "auth.user".
Proof.
  destruct (post pi_constraint (λ _, Loaded small_project) model_to_dict meta_fields
                 upload {| db := alice_db; save_log := [] |})
    as [response|e] eqn:Hpost.
  - exists response. split; [reflexivity|].
    refine (import_never_deletes_rows pi_constraint _ _ _ _ _ _ Hpost "auth.user" 7 _).
    vm_compute. left.
  - vm_compute in Hpost. discriminate Hpost.
Defined.

End ImportMoreExamples.

(** ** The archive view *)

Section UpsertInPlace.
Import ProjectMerge.
Context {A : Type} (key : A → Z).
Implicit Types (x y : A) (T : list A).

(** Saving a changed copy of a stored row changes that row in place. *)
Lemma upsert_by_stored (f : A → A) x T :
  NoDup (key <$> T) → x ∈ T → (∀ y, key (f y) = key y) →
  upsert_by key (f x) T
  = (λ y, if decide (key y = key x) then f y else y) <$> T.
Proof.
  intros Hnd Hx Hkey. induction T as [|y T IH]; [by apply not_elem_of_nil in Hx|].
  simpl in *. apply NoDup_cons in Hnd as [Hy Hnd]. rewrite Hkey.
  destruct (decide (key y = key x)) as [Heq|Hne].
  - assert (y = x) as ->.
    { apply elem_of_cons in Hx as [->|Hx]; [done|]. exfalso. apply Hy.
      rewrite Heq. apply list_elem_of_fmap. eauto. }
    f_equal. trans (id <$> T); [by rewrite list_fmap_id|]. apply list_fmap_ext.
    intros i z Hz. simpl. rewrite decide_False; [done|].
    intros Hk. apply Hy. rewrite <-Hk. apply list_elem_of_fmap.
    exists z. split; [done|]. by eapply list_elem_of_lookup_2.
  - f_equal. apply IH; [done|]. apply elem_of_cons in Hx as [->|Hx]; done.
Qed.

End UpsertInPlace.

Section Archive.
Import ProjectMerge.
Variable now : Z.
Implicit Types (db : DB) (m : model) (p : Project) (a : Row).

Lemma archive_get_object_or_404_Return db pk p :
  ProjectArchive.get_object_or_404 db pk = Return p →
  p ∈ projects db ∧ project_id p = pk.
Proof.
  unfold ProjectArchive.get_object_or_404.
  destruct (filter _ _) as [|q qs] eqn:Hf; [done|].
  intros [= ->].
  assert (Hin : p ∈ filter (λ p, project_id p = pk) (projects db))
    by (rewrite Hf; left).
  apply list_elem_of_filter in Hin. tauto.
Qed.

Lemma row_pk_expire a : row_pk (set_status_end_date "Expired" now a) = row_pk a.
Proof. done. Qed.

(** The loop of [archive_project] over the allocations it selects. *)
Lemma expire_loop db members :
  NoDup (row_pk <$> table db Allocation) →
  NoDup (row_pk <$> members) →
  (∀ a, a ∈ members → a ∈ table db Allocation) →
  ∃ db',
    foldl (λ db allocation,
             set_table Allocation
               (upsert (set_status_end_date "Expired" now allocation)
                       (table db Allocation)) db)
          db members = db'
    ∧ projects db' = projects db
    ∧ (∀ m, m ≠ Allocation → table db' m = table db m)
    ∧ table db' Allocation
      = (λ a, if decide (row_pk a ∈ row_pk <$> members)
              then set_status_end_date "Expired" now a else a)
        <$> table db Allocation.
Proof.
  revert db. induction members as [|a members IH]; intros db Hnd Hmem Hin.
  { exists db. simpl. split; [done|]. split; [done|]. split; [done|].
    trans (id <$> table db Allocation); [by rewrite list_fmap_id|].
    by apply list_fmap_ext. }
  cbn [foldl].
  apply NoDup_cons in Hmem as [Ha Hmem].
  set (T1 := upsert (set_status_end_date "Expired" now a) (table db Allocation)).
  assert (HT1 : T1 = (λ y, if decide (row_pk y = row_pk a)
                           then set_status_end_date "Expired" now y else y)
                     <$> table db Allocation).
  { unfold T1, upsert.
    apply (upsert_by_stored row_pk (set_status_end_date "Expired" now));
      [done|apply Hin; left|done]. }
  assert (Hkeys : row_pk <$> T1 = row_pk <$> table db Allocation).
  { rewrite HT1, <-list_fmap_compose. apply list_fmap_ext.
    intros i y _. simpl. by case_decide. }
  destruct (IH (set_table Allocation T1 db)) as (db' & Hrun & Hp & Hother & Htable).
  { simpl. by rewrite Hkeys. }
  { done. }
  { intros a' Ha'. simpl. rewrite HT1. apply list_elem_of_fmap.
    exists a'. split; [|apply Hin; by right].
    rewrite decide_False; [done|]. intros Heq. apply Ha. rewrite <-Heq.
    apply list_elem_of_fmap. eauto. }
  exists db'. split; [done|]. split; [done|]. split.
  { intros m Hm. rewrite Hother by done. simpl. by rewrite decide_False. }
  rewrite Htable. simpl. rewrite HT1, <-list_fmap_compose.
  apply list_fmap_ext. intros i y _. simpl.
  destruct (decide (row_pk y = row_pk a)) as [Heq|Hne].
  - rewrite row_pk_expire, Heq, decide_False by done.
    rewrite decide_True; [done|left].
  - destruct (decide (row_pk y ∈ row_pk <$> members)) as [Hy|Hy].
    + rewrite decide_True; [done|by right].
    + rewrite decide_False; [done|]. rewrite not_elem_of_cons. done.
Qed.

Lemma NoDup_filter_pks (P : Row → Prop) `{!∀ a, Decision (P a)} (T : list Row) :
  NoDup (row_pk <$> T) → NoDup (row_pk <$> filter P T).
Proof.
  induction T as [|y T IH]; simpl; [done|]. rewrite NoDup_cons. intros [Hy HT].
  rewrite filter_cons. case_decide; [|by auto]. rewrite fmap_cons.
  apply NoDup_cons. split; [|by auto].
  intros (z & Hz & Hin%list_elem_of_filter)%list_elem_of_fmap. apply Hy.
  apply list_elem_of_fmap. exists z. tauto.
Qed.

(** [archive_project] in closed form, for a project of the database. *)
Lemma archive_project_spec db p :
  NoDup (project_id <$> projects db) →
  NoDup (row_pk <$> table db Allocation) →
  p ∈ projects db →
  let db' := archive_project now p db in
  projects db'
  = (λ q, if decide (project_id q = project_id p)
          then set_project_status "Archived" q else q) <$> projects db
  ∧ table db' Allocation
    = (λ a, if decide (row_project_id a = project_id p ∧ row_status a = "Active")
            then set_status_end_date "Expired" now a else a)
      <$> table db Allocation
  ∧ ∀ m, m ≠ Allocation → table db' m = table db m.
Proof.
  intros Hndp Hnda Hp. unfold archive_project. cbv zeta.
  set (db1 := {| projects := upsert_project (set_project_status "Archived" p) (projects db);
                 table := table db |}).
  set (members := filter _ (table db1 Allocation)).
  destruct (expire_loop db1 members) as (db' & -> & Hprojects & Hother & Htable).
  { done. }
  { by apply NoDup_filter_pks. }
  { intros a Ha. unfold members in Ha. by apply list_elem_of_filter in Ha as [_ ?]. }
  rewrite Hprojects, Htable. split; [|split; [|done]].
  - unfold db1, upsert_project. simpl.
    by apply (upsert_by_stored project_id (set_project_status "Archived")).
  - simpl. apply list_fmap_ext. intros i a Ha. simpl.
    apply list_elem_of_lookup_2 in Ha.
    destruct (decide (row_project_id a = project_id p ∧ row_status a = "Active"))
      as [HP|HP].
    + rewrite decide_True; [done|]. apply list_elem_of_fmap. exists a.
      split; [done|]. unfold members. by apply list_elem_of_filter.
    + rewrite decide_False; [done|].
      intros (a' & Hpk & Ha')%list_elem_of_fmap. unfold members in Ha'.
      apply list_elem_of_filter in Ha' as [HP' Ha']. simpl in *.
      assert (a' = a) as -> by (by eapply (NoDup_key_eq row_pk)). done.
Qed.

Lemma archive_post_Return db pk db' k :
  NoDup (project_id <$> projects db) →
  NoDup (row_pk <$> table db Allocation) →
  ProjectArchive.post now pk db = Return (db', k) →
  k = pk
  ∧ pk ∈ project_id <$> projects db
  ∧ projects db'
    = (λ q, if decide (project_id q = pk)
            then set_project_status "Archived" q else q) <$> projects db
  ∧ table db' Allocation
    = (λ a, if decide (row_project_id a = pk ∧ row_status a = "Active")
            then set_status_end_date "Expired" now a else a)
      <$> table db Allocation
  ∧ ∀ m, m ≠ Allocation → table db' m = table db m.
Proof.
  intros Hndp Hnda. unfold ProjectArchive.post.
  destruct (ProjectArchive.get_object_or_404 db pk) as [p|e] eqn:Hget; [|done].
  apply archive_get_object_or_404_Return in Hget as [Hp <-]. simpl.
  intros [= <- <-]. split; [done|].
  split; [apply list_elem_of_fmap; eauto|]. by apply archive_project_spec.
Qed.

Lemma archive_post_found db pk :
  pk ∈ project_id <$> projects db →
  ∃ db', ProjectArchive.post now pk db = Return (db', pk).
Proof.
  intros (p & -> & Hp)%list_elem_of_fmap. unfold ProjectArchive.post.
  destruct (ProjectArchive.get_object_or_404 db (project_id p)) as [p'|e] eqn:Hget.
  - apply archive_get_object_or_404_Return in Hget as [_ <-]. simpl. by eexists.
  - unfold ProjectArchive.get_object_or_404 in Hget.
    destruct (filter _ _) as [|q qs] eqn:Hf; [|done].
    assert (p ∈ filter (λ q, project_id q = project_id p) (projects db)) as Hin
      by (by apply list_elem_of_filter).
    rewrite Hf in Hin. by apply not_elem_of_nil in Hin.
Qed.

(** [ProjectArchiveProjectView.post] on a database whose primary keys are
    unique: the request answers 404 exactly when there is no project [pk];
    otherwise it redirects to the project, whose status is then Archived,
    and every allocation of the project that was Active is Expired with the
    current time as its end date. Nothing else changes: the other projects,
    the allocations of the project that were not Active (an end date they
    have is kept), the allocations of other projects, and the rows of the
    other tables are as before. *)
Theorem archive_view_expires_active_allocations db pk :
  NoDup (project_id <$> projects db) →
  NoDup (row_pk <$> table db Allocation) →
  ((pk ∉ project_id <$> projects db)
   ∧ ProjectArchive.post now pk db = Raise Http404)
  ∨ (pk ∈ project_id <$> projects db
     ∧ ∃ db', ProjectArchive.post now pk db = Return (db', pk)
        ∧ projects db'
          = (λ q, if decide (project_id q = pk)
                  then set_project_status "Archived" q else q) <$> projects db
        ∧ table db' Allocation
          = (λ a, if decide (row_project_id a = pk ∧ row_status a = "Active")
                  then set_status_end_date "Expired" now a else a)
            <$> table db Allocation
        ∧ ∀ m, m ≠ Allocation → table db' m = table db m).
Proof.
  intros Hndp Hnda. unfold ProjectArchive.post.
  destruct (ProjectArchive.get_object_or_404 db pk) as [p|e] eqn:Hget.
  - apply archive_get_object_or_404_Return in Hget as [Hp <-]. right.
    split; [apply list_elem_of_fmap; eauto|]. simpl.
    eexists. split; [done|]. by apply archive_project_spec.
  - left. unfold ProjectArchive.get_object_or_404 in Hget.
    destruct (filter _ _) as [|q qs] eqn:Hf; [|done]. simplify_eq. split; [|done].
    intros (p & -> & Hp)%list_elem_of_fmap.
    assert (p ∈ filter (λ q, project_id q = project_id p) (projects db)) as Hin
      by (by apply list_elem_of_filter).
    rewrite Hf in Hin. by apply not_elem_of_nil in Hin.
Qed.

End Archive.

Section ArchiveTwice.
Import ProjectMerge.
Implicit Types (db : DB) (m : model) (p : Project) (a : Row).

(** Archiving a project a second time changes nothing, whenever it is done:
    the allocations expired by the first request keep the end date they were
    given then. *)
Theorem archive_view_idempotent now now' db pk db' :
  NoDup (project_id <$> projects db) →
  NoDup (row_pk <$> table db Allocation) →
  ProjectArchive.post now pk db = Return (db', pk) →
  ∃ db'', ProjectArchive.post now' pk db' = Return (db'', pk)
          ∧ projects db'' = projects db'
          ∧ ∀ m, table db'' m = table db' m.
Proof.
  intros Hndp Hnda Hpost.
  destruct (archive_post_Return now db pk db' pk Hndp Hnda Hpost)
    as (_ & Hpk & Hprojects & Htable & Hother).
  rename db' into db1.
  assert (Hids : project_id <$> projects db1 = project_id <$> projects db).
  { rewrite Hprojects, <-list_fmap_compose. apply list_fmap_ext.
    intros i q _. simpl. by case_decide. }
  assert (Hpks : row_pk <$> table db1 Allocation = row_pk <$> table db Allocation).
  { rewrite Htable, <-list_fmap_compose. apply list_fmap_ext.
    intros i a _. simpl. by case_decide. }
  assert (Hndp1 : NoDup (project_id <$> projects db1)) by (by rewrite Hids).
  assert (Hnda1 : NoDup (row_pk <$> table db1 Allocation)) by (by rewrite Hpks).
  destruct (archive_post_found now' db1 pk) as [db2 Hpost2]; [by rewrite Hids|].
  destruct (archive_post_Return now' db1 pk db2 pk Hndp1 Hnda1 Hpost2)
    as (_ & _ & Hprojects2 & Htable2 & Hother2).
  exists db2. split; [done|]. split.
  - rewrite Hprojects2, Hprojects, <-list_fmap_compose. apply list_fmap_ext.
    intros i q _. simpl. destruct (decide (project_id q = pk)) as [Heq|Hne].
    + simpl. by rewrite decide_True.
    + by rewrite decide_False.
  - intros m. destruct (decide (m = Allocation)) as [->|Hm]; [|by apply Hother2].
    rewrite Htable2, Htable, <-list_fmap_compose. apply list_fmap_ext.
    intros i a _. simpl.
    destruct (decide (row_project_id a = pk ∧ row_status a = "Active")) as [Ha|Ha].
    + rewrite decide_False; [done|]. simpl. by intros [_ ?].
    + by rewrite decide_False.
Qed.

End ArchiveTwice.

(** ** The merge view: what a merge leaves alone *)

Section MergeFrame.
Import ProjectMerge.
Variable violates : model → DB → Row → bool.
Variable now : Z.
Implicit Types (db : DB) (m : model) (r x : Row) (T : list Row).

(** A merge in which no project is selected changes nothing. *)
Theorem merge_without_selection request db :
  Forall (λ selected, selected = false) (request_selected request) →
  post violates now request db = Some db.
Proof.
  intros Hnone. unfold post.
  assert (∀ proj_list selected,
            Forall (λ sel, sel = false) selected →
            selected_projects db proj_list selected = Some []) as Hsel.
  { intros proj_list selected. revert proj_list.
    induction selected as [|sel selected IH]; intros proj_list Hall; simpl;
      [done|].
    apply Forall_cons in Hall as [-> Hall]. by apply IH. }
  by rewrite Hsel.
Qed.






End MergeFrame.

(** ** The archive and merge views on examples *)

Section ArchiveMergeExamples.
Import ProjectMerge ArchiveExamples MergeExamples.

Lemma archive_examples_NoDup :
  NoDup (project_id <$> projects ArchiveExamples.db)
  ∧ ∀ m, NoDup (row_pk <$> table ArchiveExamples.db m).
Proof.
  split; [|intros []]; apply (bool_decide_unpack _); by vm_compute.
Qed.

Lemma archive_view_expires_active_allocations_witness :
  NoDup (project_id <$> projects ArchiveExamples.db)
  ∧ NoDup (row_pk <$> table ArchiveExamples.db Allocation)
  ∧ ∃ db', ProjectArchive.post 100 1 ArchiveExamples.db = Return (db', 1)
           ∧ table db' Allocation
             = [set_status_end_date "Expired" 100 (row 5 1 "Active");
                row 6 1 "Pending"; row 7 2 "Active"].
Proof.
  destruct archive_examples_NoDup as [H1 H2].
  split; [exact H1|]. split; [exact (H2 Allocation)|].
  destruct (archive_view_expires_active_allocations 100 ArchiveExamples.db 1
              H1 (H2 Allocation))
    as [[Hnot _]|(_ & db' & Hpost & _ & Htable & _)].
  - exfalso. apply Hnot. vm_compute. left.
  - exists db'. split; [exact Hpost|]. rewrite Htable. reflexivity.
Defined.

Lemma archive_view_idempotent_witness :
  NoDup (project_id <$> projects ArchiveExamples.db)
  ∧ NoDup (row_pk <$> table ArchiveExamples.db Allocation)
  ∧ ProjectArchive.post 100 1 ArchiveExamples.db
    = Return (archive_project 100 ArchiveExamples.project_1 ArchiveExamples.db, 1)
  ∧ ∃ db'',
      ProjectArchive.post 200 1
        (archive_project 100 ArchiveExamples.project_1 ArchiveExamples.db)
      = Return (db'', 1)
      ∧ table db'' Allocation
        = table (archive_project 100 ArchiveExamples.project_1 ArchiveExamples.db)
                Allocation.
Proof.
  destruct archive_examples_NoDup as [H1 H2].
  split; [exact H1|]. split; [exact (H2 Allocation)|]. split; [reflexivity|].
  destruct (archive_view_idempotent 100 200 ArchiveExamples.db 1 _
              H1 (H2 Allocation) eq_refl) as (db'' & Hpost & _ & Htable).
  exists db''. split; [exact Hpost|]. exact (Htable Allocation).
Defined.

Lemma merge_without_selection_witness :
  Forall (λ selected, selected = false) (request_selected select_none)
  ∧ post no_constraints 0 select_none ArchiveExamples.db
    = Some ArchiveExamples.db.
Proof.
  assert (H : Forall (λ selected, selected = false) (request_selected select_none))
    by (repeat constructor).
  split; [exact H|].
  exact (merge_without_selection no_constraints 0 select_none ArchiveExamples.db H).
Defined.


End ArchiveMergeExamples.

(** ** The export view: exactly what is reachable, and nothing else *)

Section ExportReach.
Import ProjectExport ExportReachability.
Implicit Types (db : DB) (all_ids init : gset Z) (q : list Resource).

Lemma for_body_reachable db init all_ids resource :
  resource ∈ resources db → reachable db init (resource_id resource) →
  (∀ id, id ∈ all_ids → reachable db init id) →
  ∀ id, id ∈ for_body db all_ids resource → reachable db init id.
Proof.
  intros Hres Hreach Hall id. unfold for_body.
  assert (Hlinked : ∀ id, id ∈ all_ids
            ∪ list_to_set (resource_ids (linked_resources_all db resource)) →
            reachable db init id).
  { intros id'. rewrite elem_of_union, elem_of_all_ids_of.
    intros [?|(x & Hx & <-)]; [by apply Hall|].
    apply list_elem_of_filter in Hx as [Hin Hx].
    by apply (reach_linked db init resource x). }
  rewrite elem_of_union, elem_of_all_ids_of. intros [?|(x & Hx & <-)]; [by apply Hlinked|].
  apply list_elem_of_filter in Hx as [Hparent Hx].
  unfold parent_resource__in in Hparent.
  destruct (parent_resource x) as [p|] eqn:Hp; [|done].
  apply (reach_child db init x p); [done|done|by apply Hlinked].
Qed.

Lemma for_loop_reachable db init q all_ids :
  (∀ r, r ∈ q → r ∈ resources db ∧ reachable db init (resource_id r)) →
  (∀ id, id ∈ all_ids → reachable db init id) →
  ∀ id, id ∈ foldl (for_body db) all_ids q → reachable db init id.
Proof.
  revert all_ids. induction q as [|r q IH]; intros all_ids Hq Hall; simpl; [done|].
  apply IH; [by intros; apply Hq; right|].
  destruct (Hq r) as [? ?]; [left|]. by apply for_body_reachable.
Qed.

Lemma while_loop_reachable db init fuel q old_resource_set all_ids res :
  (∀ r, r ∈ q → r ∈ resources db ∧ reachable db init (resource_id r)) →
  (∀ id, id ∈ all_ids → reachable db init id) →
  while_loop fuel db q old_resource_set all_ids = Some res →
  ∀ r, r ∈ res → r ∈ resources db ∧ reachable db init (resource_id r).
Proof.
  revert q old_resource_set all_ids.
  induction fuel as [|fuel IH]; intros q old all_ids Hq Hall; simpl;
    destruct (decide (old = all_ids)); try done; try (by intros [= <-]).
  apply IH.
  - destruct q as [|r0 q']; [done|]. intros r [Hid Hr]%list_elem_of_filter.
    split; [done|]. by apply (for_loop_reachable db init (r0 :: q') all_ids).
  - by apply for_loop_reachable.
Qed.

(** The resources [_get_resource_query] returns, in a database whose
    resource ids are unique: exactly the stored resources that are reached
    from the resources of the allocations by following [linked_resources]
    and going from a resource to the resources it is the parent of. *)
Theorem get_resource_query_selects_reachable db proj_alloc :
  NoDup (resource_ids (resources db)) →
  ∃ proj_resources,
    _get_resource_query db proj_alloc = Some proj_resources
    ∧ ∀ r, r ∈ proj_resources
           ↔ r ∈ resources db
             ∧ reachable db
                 (list_to_set (resource_ids (resources_of_allocations db proj_alloc)))
                 (resource_id r).
Proof.
  intros Hnd.
  destruct (get_resource_query_closed db proj_alloc Hnd)
    as (res & all_ids & Hres & [Hb Hsel] & [Hlinked Hchildren] & Hinit).
  exists res. split; [done|]. intros r. split.
  - revert r. unfold _get_resource_query, _get_resource_query_fuel in Hres.
    eapply while_loop_reachable; [| |done].
    + intros r Hr. split; [by apply list_elem_of_filter in Hr as [_ ?]|].
      apply reach_init, elem_of_all_ids_of. eauto.
    + intros id Hid. by apply reach_init.
  - intros [Hr Hreach]. apply Hsel. split; [done|].
    clear Hr. induction Hreach as [id Hid|r0 x Hr0 _ IH Hx Hin|x p Hx Hp _ IH].
    + apply elem_of_all_ids_of in Hid as (r0 & Hr0 & <-).
      by apply Hsel, Hinit.
    + apply (Hlinked r0 x Hr0 IH). by apply list_elem_of_filter.
    + apply Hchildren. apply list_elem_of_filter. split; [|done].
      unfold parent_resource__in. by rewrite Hp.
Qed.

(** [ProjectExportView.dispatch] answers with a document only for a project
    that exists and whose status is Active or New, and the document holds
    nothing but rows of that project: the project; its allocations and
    their users, attributes, change requests and notes; its project users,
    publications, grants, admin comments, user messages, reviews and
    research outputs; resources reached from the resources of its
    allocations; the groups allowed on an exported resource; and users (with
    the profiles of such users) who are a project user, an allowed user of
    an exported resource or the author of an exported note. *)
Theorem dispatch_exports_only_project_rows db p_id doc :
  dispatch db p_id = Some (Return (JsonResponse doc)) →
  (∃ project_obj, get_object_or_404 db p_id = Return project_obj
                  ∧ project_status project_obj ∈ ["Active"; "New"])
  ∧ (∀ p, p ∈ doc_project doc → p ∈ projects db ∧ project_id p = p_id)
  ∧ (∀ a, a ∈ doc_allocations doc →
          a ∈ allocations db ∧ allocation_project_id a = p_id)
  ∧ (∀ x, x ∈ doc_allocationusers doc ∨ x ∈ doc_allocationattributes doc
          ∨ x ∈ doc_allocationchangerequests doc →
          ∃ a, a ∈ doc_allocations doc ∧ ac_allocation_id x = allocation_id a)
  ∧ (∀ n, n ∈ doc_allocationadminnotes doc ∨ n ∈ doc_allocationusernotes doc →
          ∃ a, a ∈ doc_allocations doc ∧ note_allocation_id n = allocation_id a)
  ∧ (∀ pu, pu ∈ doc_projectusers doc → projectuser_project_id pu = p_id)
  ∧ (∀ x, x ∈ doc_publications doc ∨ x ∈ doc_grants doc
          ∨ x ∈ doc_projectadmincomments doc ∨ x ∈ doc_projectusermessages doc
          ∨ x ∈ doc_projectreviews doc ∨ x ∈ doc_researchoutputs doc →
          pc_project_id x = p_id)
  ∧ (∀ r, r ∈ doc_resources doc →
          r ∈ resources db
          ∧ reachable db (allocated_resource_ids db p_id) (resource_id r))
  ∧ (∀ g, g ∈ doc_groups doc →
          ∃ r, r ∈ doc_resources doc ∧ group_id g ∈ allowed_groups r)
  ∧ (∀ id, (∃ u, u ∈ doc_users doc ∧ user_id u = id)
           ∨ (∃ up, up ∈ doc_userprofiles doc ∧ userprofile_user_id up = id) →
       (∃ pu, pu ∈ doc_projectusers doc ∧ projectuser_user_id pu = id)
       ∨ (∃ r, r ∈ doc_resources doc ∧ id ∈ allowed_users r)
       ∨ (∃ n, (n ∈ doc_allocationadminnotes doc
                ∨ n ∈ doc_allocationusernotes doc)
               ∧ note_author_id n = id)).
Proof.
  unfold dispatch.
  destruct (get_object_or_404 db p_id) as [project_obj|] eqn:Hget; [|done].
  case_bool_decide as Hstatus; [done|].
  set (proj_alloc := project_id_is allocation_project_id p_id (allocations db)).
  destruct (_get_resource_query db proj_alloc) as [res|] eqn:Hres; simpl; [|done].
  intros [= <-]. cbn [doc_project doc_users doc_userprofiles
    doc_groups doc_projectusers doc_publications doc_grants doc_resources
    doc_allocations doc_allocationusers doc_allocationattributes
    doc_allocationchangerequests doc_allocationadminnotes
    doc_allocationusernotes doc_projectadmincomments doc_projectusermessages
    doc_projectreviews doc_researchoutputs].
  assert (Huser_ids : ∀ id,
    id ∈ (list_to_set
            ((projectuser_user_id
                <$> project_id_is projectuser_project_id p_id (projectusers db))
             ++ elements (list_to_set (concat (allowed_users <$> res)) : gset Z)
             ++ (note_author_id
                   <$> allocation_in note_allocation_id proj_alloc
                         (allocationadminnotes db))
             ++ (note_author_id
                   <$> allocation_in note_allocation_id proj_alloc
                         (allocationusernotes db))) : gset Z) →
    (∃ pu, pu ∈ project_id_is projectuser_project_id p_id (projectusers db)
           ∧ projectuser_user_id pu = id)
    ∨ (∃ r, r ∈ res ∧ id ∈ allowed_users r)
    ∨ (∃ n, (n ∈ allocation_in note_allocation_id proj_alloc (allocationadminnotes db)
             ∨ n ∈ allocation_in note_allocation_id proj_alloc (allocationusernotes db))
            ∧ note_author_id n = id)).
  { intros id. rewrite elem_of_list_to_set, !elem_of_app, elem_of_elements,
      elem_of_list_to_set, elem_of_concat_fmap, !list_elem_of_fmap.
    naive_solver. }
  split_and!.
  - exists project_obj. split; [done|].
    destruct (decide (project_status project_obj ∈ ["Active"; "New"])); done.
  - intros p Hp. apply list_elem_of_filter in Hp. tauto.
  - intros a Ha. apply elem_of_project_id_is in Ha. done.
  - intros x [Hx|[Hx|Hx]]; apply elem_of_allocation_in in Hx as [_ ?]; done.
  - intros n [Hn|Hn]; apply elem_of_allocation_in in Hn as [_ ?]; done.
  - intros pu Hpu. by apply elem_of_project_id_is in Hpu as [_ ?].
  - intros x [Hx|[Hx|[Hx|[Hx|[Hx|Hx]]]]];
      by apply elem_of_project_id_is in Hx as [_ ?].
  - unfold _get_resource_query, _get_resource_query_fuel in Hres.
    eapply while_loop_reachable; [| |done].
    + intros r Hr. split; [by apply list_elem_of_filter in Hr as [_ ?]|].
      apply reach_init, elem_of_all_ids_of. eauto.
    + intros id Hid. by apply reach_init.
  - intros g [Hg _]%list_elem_of_filter.
    by rewrite elem_of_list_to_set, elem_of_concat_fmap in Hg.
  - intros id [(u & [Hu _]%list_elem_of_filter & <-)
              |(up & [Hup _]%list_elem_of_filter & <-)]; by apply Huser_ids.
Qed.

End ExportReach.

(** ** The export view: reachability on the example *)

Section ExportReachExamples.
Import ProjectExport ExportReachability ExportExamples.

Lemma get_resource_query_selects_reachable_witness :
  NoDup (resource_ids (resources db))
  ∧ ∃ proj_resources,
      _get_resource_query db [allocation_1] = Some proj_resources
      ∧ (cluster ∈ proj_resources
         ↔ cluster ∈ resources db
           ∧ reachable db
               (list_to_set (resource_ids (resources_of_allocations db [allocation_1])))
               (resource_id cluster)).
Proof.
  assert (Hnd : NoDup (resource_ids (resources db)))
    by (apply (bool_decide_unpack _); by vm_compute).
  split; [exact Hnd|].
  destruct (get_resource_query_selects_reachable db [allocation_1] Hnd)
    as (res & Hres & Hiff).
  exists res. split; [exact Hres|]. exact (Hiff cluster).
Defined.

Lemma dispatch_exports_only_project_rows_witness :
  ∃ doc, dispatch db 1 = Some (Return (JsonResponse doc))
         ∧ ∀ a, a ∈ doc_allocations doc →
                a ∈ allocations db ∧ allocation_project_id a = 1.
Proof.
  destruct (dispatch db 1) as [[[url message|doc]|e]|] eqn:Hdispatch.
  - vm_compute in Hdispatch. discriminate Hdispatch.
  - exists doc. split; [reflexivity|].
    exact (proj1 (proj2 (proj2
             (dispatch_exports_only_project_rows db 1 doc Hdispatch)))).
  - vm_compute in Hdispatch. discriminate Hdispatch.
  - vm_compute in Hdispatch. discriminate Hdispatch.
Defined.

End ExportReachExamples.

(** ** The email notification switch of a project user *)

Section EmailNotificationSwitch.
Import EmailNotification.
Variable to_python : string → option Z.
Implicit Types (db : DB) (request : Request) (pu obj : ProjectUser)
  (request_user : User) (ans : answer).

Lemma exists_filter_Some {A} (P : A → Prop) `{!∀ x, Decision (P x)} (l : list A) :
  exists_ (filter P l) = true → ∃ x, P x ∧ x ∈ l.
Proof.
  destruct (filter P l) as [|x q] eqn:Hq; [done|]. intros _. exists x.
  apply (list_elem_of_filter P l x). rewrite Hq. left.
Qed.

Lemma filter_head {A} (P : A → Prop) `{!∀ x, Decision (P x)} (l : list A) x q :
  filter P l = x :: q → P x ∧ x ∈ l.
Proof. intros Hq. apply (list_elem_of_filter P l x). rewrite Hq. left. Qed.

Lemma get_object_or_404_inr db value pu :
  get_object_or_404 to_python db value = inr pu →
  pu ∈ projectusers db
  ∧ ∃ s, value = Some s ∧ to_python s = Some (projectuser_id pu).
Proof.
  unfold get_object_or_404. destruct value as [s|]; [|done].
  destruct (to_python s) as [pk|] eqn:Hpk; [|done].
  destruct (filter _ (projectusers db)) as [|pu0 q] eqn:Hq; [done|].
  intros [= <-]. apply filter_head in Hq as [<- ?]. split; [done|]. by exists s.
Qed.

Lemma project_of_inr db pu project_obj :
  project_of db pu = inr project_obj →
  project_obj ∈ projects db ∧ project_id project_obj = projectuser_project_id pu.
Proof.
  unfold project_of. destruct (filter _ (projects db)) as [|p q] eqn:Hq; [done|].
  intros [= <-]. by apply filter_head in Hq as [? ?].
Qed.

Lemma save_stored obj db pu :
  NoDup (projectuser_id <$> projectusers db) →
  pu ∈ projectusers db → projectuser_id obj = projectuser_id pu →
  projects (save obj db) = projects db
  ∧ projectuser_id <$> projectusers (save obj db)
    = projectuser_id <$> projectusers db
  ∧ ∀ i row row',
      projectusers db !! i = Some row →
      projectusers (save obj db) !! i = Some row' →
      row' ≠ row → row = pu ∧ row' = obj.
Proof.
  intros Hnodup Hpu Hid. unfold save. simpl.
  rewrite decide_True by (rewrite Hid; apply list_elem_of_fmap; eauto).
  split; [done|]. split.
  - rewrite <-list_fmap_compose. apply list_fmap_ext. intros i row _. simpl.
    by destruct (decide _) as [->|].
  - intros i row row' Hrow. rewrite list_lookup_fmap, Hrow. simpl.
    intros [= <-]. destruct (decide _) as [Heq|]; [|done]. intros _.
    split; [|done]. rewrite Hid in Heq.
    assert (∀ T x y, NoDup (projectuser_id <$> T) → x ∈ T → y ∈ T →
              projectuser_id x = projectuser_id y → x = y) as Hkey.
    { clear. intros T x y. induction T as [|z T IH]; simpl;
        [by intros _ ?%not_elem_of_nil|].
      rewrite NoDup_cons, !elem_of_cons. intros [Hz HT] [->|Hx] [->|Hy] Hk; auto.
      - exfalso. apply Hz. rewrite Hk. apply list_elem_of_fmap. eauto.
      - exfalso. apply Hz. rewrite <-Hk. apply list_elem_of_fmap. eauto. }
    apply (Hkey (projectusers db)); [done| |done|done].
    by apply list_elem_of_lookup_2 in Hrow.
Qed.

(** What a request to [project_update_email_notification] can change, in a
    table of project users with unique primary keys: no project, no row is
    added or removed, and a row is changed only if the request is a POST of
    a logged-in user who is the PI of the row's project, an active manager
    of it, the user of the row or a superuser; the row is the one the request
    names, only its [enable_notifications] changes, to the value the request
    asks for, and the answer has the status 200. *)
Theorem email_notification_needs_permission request db db' ans :
  NoDup (projectuser_id <$> projectusers db) →
  project_update_email_notification to_python request db = (db', ans) →
  projects db' = projects db
  ∧ projectuser_id <$> projectusers db' = projectuser_id <$> projectusers db
  ∧ ∀ i pu pu',
      projectusers db !! i = Some pu → projectusers db' !! i = Some pu' →
      pu' ≠ pu →
      (∃ request_user,
         user request = Some request_user ∧ may_switch db request_user pu)
      ∧ method request = "POST"
      ∧ (∃ s, POST request !! "user_project_id" = Some s
              ∧ to_python s = Some (projectuser_id pu))
      ∧ (∃ b : bool,
           POST request !! "checked" = Some (if b then "true" else "false")
           ∧ pu' = set_enable_notifications b pu)
      ∧ ∃ content, ans = HttpResponse content 200.
Proof.
  intros Hnodup. unfold project_update_email_notification.
  match goal with |- _ = _ → ?C => set (Concl := C) end.
  assert (∀ db0 ans0, (db0, ans0) = (db', ans) → db0 = db → Concl) as Hsame.
  { intros db0 ans0 [= <- <-] ->. split; [done|]. split; [done|].
    intros i pu pu' Hpu Hpu' Hne. rewrite Hpu in Hpu'. by injection Hpu' as <-. }
  destruct (user request) as [request_user|] eqn:Huser; [|by eauto].
  destruct (decide (method request = "POST")) as [Hmethod|]; [|by eauto].
  destruct (get_object_or_404 to_python db (POST request !! "user_project_id"))
    as [e|obj] eqn:Hget; [by eauto|].
  apply get_object_or_404_inr in Hget as (Hobj & s & Hs & Hpk).
  destruct (project_of db obj) as [e|project_obj] eqn:Hproject; [by eauto|].
  apply project_of_inr in Hproject as [Hin Hid].
  match goal with
  | |- context [negb ?a] => destruct a eqn:Hallowed; simpl; [|by eauto]
  end.
  assert (may_switch db request_user obj) as Hmay.
  { unfold may_switch.
    destruct (is_superuser request_user); [by repeat right|].
    destruct (decide (projectuser_user_id obj = user_id request_user));
      [by right; right; left|].
    destruct (exists_ _) eqn:Hmanager.
    - right; left. apply exists_filter_Some in Hmanager as (pu & (? & ? & ? & ?) & ?).
      exists pu. rewrite <-Hid. done.
    - destruct (decide (project_pi project_obj = user_id request_user)); [|done].
      left. by exists project_obj. }
  clear Hallowed.
  assert (∀ b : bool,
    POST request !! "checked" = Some (if b then "true" else "false") →
    ∀ content,
      (save (set_enable_notifications b obj) db, HttpResponse content 200)
      = (db', ans) → Concl) as Hsave.
  { intros b Hchecked content [= <- <-].
    destruct (save_stored (set_enable_notifications b obj) db obj Hnodup Hobj eq_refl)
      as (H1 & H2 & H3).
    split; [exact H1|]. split; [exact H2|].
    intros i pu pu' Hpu Hpu' Hne.
    destruct (H3 i pu pu' Hpu Hpu' Hne) as [-> ->].
    split; [by exists request_user|]. split; [done|].
    split; [by exists s|]. split; [by exists b|]. by exists content. }
  destruct (decide (POST request !! "checked" = Some "true")) as [Htrue|];
    [by apply (Hsave true)|].
  destruct (decide (POST request !! "checked" = Some "false")) as [Hfalse|];
    [by apply (Hsave false)|].
  by eauto.
Qed.

Lemma filter_unique {A} (key : A → Z) (k : Z) (l : list A) x :
  NoDup (key <$> l) → x ∈ l → key x = k →
  ∃ q, filter (λ y, key y = k) l = x :: q.
Proof.
  intros Hnodup Hx Hk.
  destruct (filter (λ y, key y = k) l) as [|y q] eqn:Hq.
  - assert (x ∈ filter (λ y, key y = k) l) as Hin
      by (by apply list_elem_of_filter).
    rewrite Hq in Hin. by apply elem_of_nil in Hin.
  - exists q. f_equal.
    assert (y ∈ filter (λ y, key y = k) l) as Hin by (rewrite Hq; left).
    apply list_elem_of_filter in Hin as [Hy Hin].
    clear Hq. induction l as [|z l IH]; [by apply elem_of_nil in Hx|].
    simpl in Hnodup. apply NoDup_cons in Hnodup as [Hz Hnodup].
    apply elem_of_cons in Hx as [->|Hx], Hin as [->|Hin]; auto.
    + exfalso. apply Hz, list_elem_of_fmap. exists y. split; [congruence|done].
    + exfalso. apply Hz, list_elem_of_fmap. exists x. split; [congruence|done].
Qed.

(** The answer to a POST of a logged-in user that names a row [pu] of a
    project, in tables with unique primary keys: when the user is the PI of
    the project, an active manager of it, the user of the row or a
    superuser, the row gets the notifications the request asks for and the
    answer has the status 200; otherwise the answer is 403 and nothing
    changes. *)
Theorem email_notification_answer request db request_user pu project_obj s :
  NoDup (projectuser_id <$> projectusers db) →
  NoDup (project_id <$> projects db) →
  user request = Some request_user → method request = "POST" →
  POST request !! "user_project_id" = Some s →
  to_python s = Some (projectuser_id pu) → pu ∈ projectusers db →
  project_obj ∈ projects db →
  project_id project_obj = projectuser_project_id pu →
  (may_switch db request_user pu →
   ∀ b : bool,
     POST request !! "checked" = Some (if b then "true" else "false") →
     project_update_email_notification to_python request db
     = (save (set_enable_notifications b pu) db,
        HttpResponse (if b then "checked" else "unchecked") 200))
  ∧ (¬ may_switch db request_user pu →
     project_update_email_notification to_python request db
     = (db, HttpResponse "not allowed" 403)).
Proof.
  intros Hrows Hprojects Huser Hmethod Hs Hpk Hpu Hproject Hid.
  unfold project_update_email_notification, get_object_or_404, project_of.
  rewrite Huser, decide_True, Hs, Hpk by done.
  destruct (filter_unique projectuser_id (projectuser_id pu) _ pu Hrows Hpu eq_refl)
    as [q ->].
  destruct (filter_unique project_id (projectuser_project_id pu) _ project_obj
              Hprojects Hproject Hid) as [q' ->].
  match goal with
  | |- context [negb ?a] =>
      assert (a = true ↔ may_switch db request_user pu) as Hallowed
  end.
  { unfold may_switch. split.
    - destruct (is_superuser request_user); [by repeat right|].
      destruct (decide (projectuser_user_id pu = user_id request_user));
        [by right; right; left|].
      destruct (exists_ _) eqn:Hmanager.
      + intros _. right; left.
        apply exists_filter_Some in Hmanager as (row & (? & ? & ? & ?) & ?).
        exists row. by rewrite <-Hid.
      + destruct (decide (project_pi project_obj = user_id request_user)); [|done].
        intros _. left. by exists project_obj.
    - intros [(p & Hp & Hpid & Hpi)|[(row & Hrow & ? & ? & ? & ?)|[Hself|Hsuper]]].
      + assert (p = project_obj) as ->.
        { destruct (filter_unique project_id (projectuser_project_id pu) _ p
                      Hprojects Hp Hpid) as [q1 Hq1].
          destruct (filter_unique project_id (projectuser_project_id pu) _
                      project_obj Hprojects Hproject Hid) as [q2 Hq2].
          rewrite Hq1 in Hq2. by injection Hq2. }
        rewrite (decide_True (P := project_pi project_obj = user_id request_user))
          by done.
        destruct (is_superuser request_user); [done|].
        destruct (decide (projectuser_user_id pu = _)); [done|].
        by destruct (exists_ _).
      + destruct (is_superuser request_user); [done|].
        destruct (decide (projectuser_user_id pu = _)); [done|].
        destruct (exists_ _) eqn:Hmanager; [done|]. exfalso.
        assert (row ∈ filter (λ pu0,
                    projectuser_project_id pu0 = project_id project_obj
                    ∧ projectuser_user_id pu0 = user_id request_user
                    ∧ projectuser_role pu0 = "Manager"
                    ∧ projectuser_status pu0 = "Active") (projectusers db)) as Hin.
        { apply list_elem_of_filter. rewrite Hid. done. }
        destruct (filter _ (projectusers db)); [by apply elem_of_nil in Hin|done].
      + destruct (is_superuser request_user); [done|].
        by rewrite (decide_True (P := projectuser_user_id pu = user_id request_user)).
      + by rewrite Hsuper. }
  match goal with
  | |- context [negb ?a] => destruct a
  end; simpl.
  - split; [|intros Hnot; destruct Hnot; by apply Hallowed].
    intros _ [|] ->; [by rewrite decide_True|].
    rewrite decide_False by done. by rewrite decide_True.
  - split; [|done]. intros Hmay%Hallowed. done.
Qed.

End EmailNotificationSwitch.

Section EmailNotificationExamplesFacts.
Import EmailNotification EmailNotificationExamples.

Lemma email_notification_needs_permission_witness :
  NoDup (projectuser_id <$> projectusers db)
  ∧ ∃ db',
      project_update_email_notification to_python request db
      = (db', HttpResponse "unchecked" 200)
      ∧ projectuser_id <$> projectusers db' = projectuser_id <$> projectusers db.
Proof.
  assert (Hnodup : NoDup (projectuser_id <$> projectusers db))
    by (apply (bool_decide_unpack _); by vm_compute).
  split; [exact Hnodup|].
  destruct (project_update_email_notification to_python request db)
    as [db' ans] eqn:Hrun.
  exists db'.
  pose proof (email_notification_needs_permission to_python request db db' ans
                Hnodup Hrun) as (_ & Hkeys & _).
  split; [|exact Hkeys].
  vm_compute in Hrun. injection Hrun as <- <-. reflexivity.
Defined.

Lemma email_notification_answer_witness :
  NoDup (projectuser_id <$> projectusers db)
  ∧ NoDup (project_id <$> projects db)
  ∧ user request = Some user_11 ∧ method request = "POST"
  ∧ POST request !! "user_project_id" = Some "5"
  ∧ to_python "5" = Some (projectuser_id row_5) ∧ row_5 ∈ projectusers db
  ∧ project_1 ∈ projects db
  ∧ project_id project_1 = projectuser_project_id row_5
  ∧ may_switch db user_11 row_5
  ∧ project_update_email_notification to_python request db
    = (save (set_enable_notifications false row_5) db,
       HttpResponse "unchecked" 200).
Proof.
  assert (Hrows : NoDup (projectuser_id <$> projectusers db))
    by (apply (bool_decide_unpack _); by vm_compute).
  assert (Hprojects : NoDup (project_id <$> projects db))
    by (apply (bool_decide_unpack _); by vm_compute).
  assert (Hrow : row_5 ∈ projectusers db) by left.
  assert (Hproject : project_1 ∈ projects db) by left.
  assert (Hmay : may_switch db user_11 row_5) by (right; right; left; reflexivity).
  repeat (split; [first [assumption|reflexivity]|]).
  exact (proj1 (email_notification_answer to_python request db user_11 row_5
                  project_1 "5" Hrows Hprojects eq_refl eq_refl eq_refl eq_refl
                  Hrow Hproject eq_refl) Hmay false eq_refl).
Defined.

End EmailNotificationExamplesFacts.

(** ** User search *)

Section CombinedSearch.
Import UserSearch CombinedUserSearch.
Implicit Types (d : dict) (all users matches : list dict)
  (found : list (option string)) (exclude : list string)
  (cls : UserSearchClass) (classes : list UserSearchClass)
  (results : list (list dict)).

Local Abbreviation name_of d := (d !! "username").

(** What the loops of [CombinedUserSearch.search] keep, where [all] lists
    the users the search classes have found so far. *)
Local Abbreviation kept exclude all found matches :=
  (NoDup found
   ∧ found%list = (λ d, name_of d) <$> matches
   ∧ (∀ d, d ∈ matches → name_of d ∉ Some <$> exclude)
   ∧ matches `sublist_of` all
   ∧ (∀ d, d ∈ all → name_of d ∉ Some <$> exclude → name_of d ∈ found%list)
   ∧ (∀ d, d ∈ matches →
        ∃ l1 l2, all = l1 ++ d :: l2 ∧ name_of d ∉ (λ d, name_of d) <$> l1)).

Lemma add_users_app exclude st users1 users2 :
  add_users exclude st (users1 ++ users2)
  = add_users exclude (add_users exclude st users1) users2.
Proof. unfold add_users. by rewrite foldl_app. Qed.

Lemma add_user_kept exclude all found matches d :
  kept exclude all found matches →
  ∃ found' matches',
    add_users exclude (found, matches) [d] = (found', matches')
    ∧ kept exclude (all ++ [d]) found' matches'.
Proof.
  intros (Hnodup & Hfound & Hex & Hsub & Hall & Hfirst). simpl.
  destruct (decide _) as [[Hnew Hin]|Hold]; eexists _, _; (split; [done|]).
  - split. { apply NoDup_app. split; [done|]. split; [|apply NoDup_singleton].
             by intros x ? ->%list_elem_of_singleton. }
    split; [by rewrite fmap_app, Hfound|].
    split. { intros d' [?| ->%list_elem_of_singleton]%elem_of_app; auto. }
    split; [by apply sublist_app|].
    split. { intros d' [?| ->%list_elem_of_singleton]%elem_of_app ?;
               apply elem_of_app; [left; auto|right; left]. }
    intros d' [Hd'| ->%list_elem_of_singleton]%elem_of_app.
    + destruct (Hfirst d' Hd') as (l1 & l2 & -> & ?).
      exists l1, (l2 ++ [d]). by rewrite <-(assoc_L (++)).
    + exists all, []. split; [done|].
      intros (d' & Heq & Hd')%list_elem_of_fmap. apply Hnew.
      rewrite Heq. apply Hall; [done|]. by rewrite <-Heq.
  - split; [done|]. split; [done|]. split; [done|].
    split; [by apply sublist_inserts_r|].
    split. { intros d' [?| ->%list_elem_of_singleton]%elem_of_app ?; [auto|].
             destruct (decide (name_of d ∈ found)); [done|]. by destruct Hold. }
    intros d' Hd'. destruct (Hfirst d' Hd') as (l1 & l2 & -> & ?).
    exists l1, (l2 ++ [d]). by rewrite <-(assoc_L (++)).
Qed.

Lemma add_users_kept exclude all found matches users :
  kept exclude all found matches →
  ∃ found' matches',
    add_users exclude (found, matches) users = (found', matches')
    ∧ kept exclude (all ++ users) found' matches'.
Proof.
  revert all found matches.
  induction users as [|d users IH]; intros all found matches Hkept.
  { exists found, matches. by rewrite (right_id_L [] (++)). }
  destruct (add_user_kept exclude all found matches d Hkept)
    as (found1 & matches1 & Hstep & Hkept1).
  destruct (IH (all ++ [d]) found1 matches1 Hkept1)
    as (found' & matches' & Hrest & Hkept').
  exists found', matches'. rewrite <-(assoc_L (++)) in Hkept'.
  split; [|done]. change (d :: users) with ([d] ++ users).
  by rewrite add_users_app, Hstep.
Qed.

Lemma search_loop_kept exclude user_search_string search_by classes
    all found matches found' matches' :
  kept exclude all found matches →
  for_each (λ st cls,
              users ← UserSearch.search cls user_search_string search_by;
              Return (add_users exclude st users))
           classes (found, matches) = Return (found', matches') →
  ∃ results,
    Forall2 (λ cls users,
               UserSearch.search cls user_search_string search_by = Return users)
            classes results
    ∧ kept exclude (all ++ concat results) found' matches'.
Proof.
  revert all found matches.
  induction classes as [|cls classes IH]; intros all found matches Hkept; simpl.
  { intros [= <- <-]. exists []. split; [constructor|].
    simpl. by rewrite (right_id_L [] (++)). }
  destruct (UserSearch.search cls user_search_string search_by)
    as [users|] eqn:Hsearch; simpl; [|done].
  destruct (add_users_kept exclude all found matches users Hkept)
    as (found1 & matches1 & -> & Hkept1).
  intros (results & Hresults & Hkept')%(IH _ _ _ Hkept1).
  exists (users :: results). split; [by constructor|].
  simpl. by rewrite (assoc_L (++)).
Qed.

(** The matches of [CombinedUserSearch.search]: among the users the search
    classes return, in the order of the classes, the first one for every
    username that is not excluded. No two matches have the same username,
    none has an excluded username, and the matches keep the order in which
    they were found. *)
Theorem combined_search_matches classes user_search_string search_by exclude context :
  CombinedUserSearch.search classes user_search_string search_by exclude
    = Return context →
  ∃ results,
    Forall2 (λ cls users,
               UserSearch.search cls user_search_string search_by = Return users)
            classes results
    ∧ NoDup ((λ d, name_of d) <$> matches context)
    ∧ matches context `sublist_of` concat results
    ∧ (∀ d, d ∈ matches context → name_of d ∉ Some <$> exclude)
    ∧ (∀ d, d ∈ concat results → name_of d ∉ Some <$> exclude →
            name_of d ∈ (λ d, name_of d) <$> matches context)
    ∧ (∀ d, d ∈ matches context →
         ∃ l1 l2, concat results = l1 ++ d :: l2
                  ∧ name_of d ∉ (λ d, name_of d) <$> l1).
Proof.
  unfold CombinedUserSearch.search.
  destruct (for_each _ classes ([], [])) as [[found matches']|] eqn:Hloop;
    simpl; [|done].
  apply (search_loop_kept exclude _ _ classes []) in Hloop
    as (results & Hresults & Hnodup & Hfound & Hex & Hsub & Hall & Hfirst).
  2:{ split; [constructor|]. split; [done|]. split; [by intros ? ?%elem_of_nil|].
      split; [constructor|]. split; by intros ? ?%elem_of_nil. }
  simpl in *. intros Hcontext. exists results. split; [done|].
  assert (matches context = matches') as ->.
  { destruct user_search_string as [q|]; [|done].
    destruct (decide _); by injection Hcontext as <-. }
  rewrite <-Hfound. done.
Qed.

(** The figures of a search for several usernames: the number searched
    counts the words of the search string, repeated words too; the number
    found is the number of matches; and a username is listed as not found
    exactly when it is a word of the search string that is not excluded and
    that no search class has returned a user for. A search string of at most
    one word has no figures. *)
Theorem combined_search_not_found classes q search_by exclude context :
  CombinedUserSearch.search classes (Some q) search_by exclude = Return context →
  ∃ results,
    Forall2 (λ cls users, UserSearch.search cls (Some q) search_by = Return users)
            classes results
    ∧ if decide (1 < length (split q))%nat then
        number_of_usernames_searched context = Some (length (split q))
        ∧ number_of_usernames_found context = Some (length (matches context))
        ∧ ∃ not_found,
            usernames_not_found context = Some not_found
            ∧ NoDup not_found
            ∧ ∀ v, v ∈ not_found
                   ↔ ∃ w, v = Some w ∧ w ∈ split q ∧ (w ∉ exclude)
                          ∧ ∀ d, d ∈ concat results → name_of d ≠ Some w
      else
        number_of_usernames_searched context = None
        ∧ number_of_usernames_found context = None
        ∧ usernames_not_found context = None.
Proof.
  unfold CombinedUserSearch.search.
  destruct (for_each _ classes ([], [])) as [[found matches']|] eqn:Hloop;
    simpl; [|done].
  apply (search_loop_kept exclude _ _ classes []) in Hloop
    as (results & Hresults & Hnodup & Hfound & Hex & Hsub & Hall & Hfirst).
  2:{ split; [constructor|]. split; [done|]. split; [by intros ? ?%elem_of_nil|].
      split; [constructor|]. split; by intros ? ?%elem_of_nil. }
  simpl in *. intros Hcontext. exists results. split; [done|].
  destruct (decide (1 < length (split q))%nat); injection Hcontext as <-; simpl;
    [|done].
  split; [done|]. split; [by rewrite Hfound, length_fmap|].
  eexists. split; [done|]. split; [apply NoDup_elements|].
  intros v. rewrite elem_of_elements, !elem_of_difference, !elem_of_list_to_set.
  rewrite list_elem_of_fmap. split.
  - intros [[(w & -> & Hw) Hnew] Hin]. exists w. split; [done|]. split; [done|].
    split. { intros Hex'. apply Hin, list_elem_of_fmap. by exists w. }
    intros d Hd Heq. apply Hnew. rewrite <-Heq. apply Hall; [done|].
    by rewrite Heq.
  - intros (w & -> & Hw & Hin & Hnone). split; [split|].
    + by exists w.
    + rewrite Hfound. intros (d & Heq & Hd)%list_elem_of_fmap.
      apply (Hnone d); [|done].
      by apply (elem_of_submseteq matches'), sublist_submseteq.
    + intros (w' & [= <-] & ?)%list_elem_of_fmap. done.
Qed.

Lemma elem_of_concat_list {A} (x : A) (ls : list (list A)) :
  x ∈ concat ls ↔ ∃ l, l ∈ ls ∧ x ∈ l.
Proof.
  induction ls as [|l ls IH]; simpl.
  - split; [by intros ?%elem_of_nil|by intros (? & ?%elem_of_nil & _)].
  - rewrite elem_of_app, IH. setoid_rewrite elem_of_cons. naive_solver.
Qed.

Lemma for_each_app {A S} (body : S → A → outcome S) xs ys st :
  for_each body (xs ++ ys) st = st' ← for_each body xs st; for_each body ys st'.
Proof.
  revert st. induction xs as [|x xs IH]; intros st; simpl; [done|].
  destruct (body st x); simpl; [apply IH|done].
Qed.

Lemma add_users_known exclude found matches users :
  (∀ d, d ∈ users → name_of d ∉ Some <$> exclude → name_of d ∈ found) →
  add_users exclude (found, matches) users = (found, matches).
Proof.
  induction users as [|d users IH]; intros Hknown; [done|].
  change (d :: users) with ([d] ++ users). rewrite add_users_app. simpl.
  rewrite decide_False.
  - apply IH. intros d' Hd'. apply Hknown. by right.
  - intros [Hnew Hin]. apply Hnew, Hknown; [left|done].
Qed.

(** A search class that is listed a second time adds nothing: the search
    gives the same answer with and without the repetition. *)
Theorem combined_search_repeated_class classes1 classes2 cls
    user_search_string search_by exclude :
  cls ∈ classes1 →
  CombinedUserSearch.search (classes1 ++ cls :: classes2)
    user_search_string search_by exclude
  = CombinedUserSearch.search (classes1 ++ classes2)
      user_search_string search_by exclude.
Proof.
  intros Hcls. unfold CombinedUserSearch.search. rewrite !for_each_app.
  destruct (for_each _ classes1 ([], [])) as [[found matches']|] eqn:Hloop;
    simpl; [|done].
  apply (search_loop_kept exclude _ _ classes1 []) in Hloop
    as (results & Hresults & Hnodup & Hfound & Hex & Hsub & Hall & Hfirst).
  2:{ split; [constructor|]. split; [done|]. split; [by intros ? ?%elem_of_nil|].
      split; [constructor|]. split; by intros ? ?%elem_of_nil. }
  simpl in Hall.
  apply list_elem_of_lookup in Hcls as [i Hi].
  destruct (Forall2_lookup_l _ _ _ i cls Hresults Hi) as (users & Husers & ->).
  simpl. rewrite add_users_known; [done|].
  intros d Hd. apply Hall. apply elem_of_concat_list. exists users.
  split; [by apply list_elem_of_lookup_2 in Husers|done].
Qed.

End CombinedSearch.

Section LocalSearch.
Import UserSearch LocalUserSearch.
Variable icontains exact : string → string → bool.
Implicit Types (q w word s : string) (search_by : option string)
  (users : list User) (d : dict) (exclude : list string).

Lemma split_from_nonempty word s w : w ∈ split_from word s → w ≠ "".
Proof.
  revert word. induction s as [|c s IH]; intros word; simpl.
  - destruct (decide (word = "")); [by intros ?%elem_of_nil|].
    by intros ->%list_elem_of_singleton.
  - destruct (is_whitespace c); [|apply IH].
    intros [Hw|Hw]%elem_of_app; [|by apply IH in Hw].
    destruct (decide (word = "")); [by apply elem_of_nil in Hw|].
    by apply list_elem_of_singleton in Hw as ->.
Qed.

Lemma sorted_set_elem_of (words : list string) w :
  w ∈ sorted_set words ↔ w ∈ words.
Proof.
  unfold sorted_set.
  by rewrite merge_sort_Permutation, elem_of_elements, elem_of_list_to_set.
Qed.



Local Abbreviation name_of d := (d !! "username").

(** The users a search for the username [w] finds. *)
Local Abbreviation named users w :=
  (filter (λ user, exact (username user) w = true ∧ is_active user = true) users).

Lemma name_of_user_dict (user : User) : name_of (user_dict user) = Some (username user).
Proof. done. Qed.

Lemma username_search_loop users (words : list string) matches :
  (∀ w, w ∈ words → w ≠ "") →
  foldl (λ matches username,
           let match_ := search_a_user icontains exact users
                           (Some username) (Some "username_only") in
           if decide (match_ ≠ []) then matches ++ match_ else matches)
        matches words
  = matches ++ (user_dict <$> concat ((λ w, named users w) <$> words)).
Proof.
  revert matches. induction words as [|w words IH]; intros matches Hwords; simpl.
  { by rewrite (right_id_L [] (++)). }
  rewrite IH by (intros; apply Hwords; by right).
  assert (search_a_user icontains exact users (Some w) (Some "username_only")
          = user_dict <$> named users w) as ->.
  { unfold search_a_user. simpl.
    rewrite bool_decide_eq_true_2 by (apply Hwords; left). done. }
  rewrite fmap_app, (assoc_L (++)). f_equal.
  destruct (decide _) as [|Hnil]; [done|].
  apply dec_stable in Hnil. by rewrite Hnil, (right_id_L [] (++)).
Qed.

Lemma add_users_distinct exclude found matches (us : list dict) :
  NoDup ((λ d, name_of d) <$> us) →
  (∀ d, d ∈ us → name_of d ∉ found) →
  CombinedUserSearch.add_users exclude (found, matches) us
  = (found ++ ((λ d, name_of d)
                 <$> filter (λ d, name_of d ∉ Some <$> exclude) us),
     matches ++ filter (λ d, name_of d ∉ Some <$> exclude) us).
Proof.
  revert found matches. induction us as [|d us IH]; intros found matches Hnodup Hnew.
  { rewrite filter_nil. simpl. by rewrite !(right_id_L [] (++)). }
  simpl in Hnodup. apply NoDup_cons in Hnodup as [Hd Hnodup].
  change (d :: us) with ([d] ++ us). rewrite add_users_app. simpl.
  rewrite filter_cons.
  destruct (decide (name_of d ∉ Some <$> exclude)) as [Hin|Hex].
  - rewrite decide_True by (split; [apply Hnew; left|done]).
    rewrite IH; [by rewrite <-!(assoc_L (++))|done|].
    intros d' Hd' [?|Heq%list_elem_of_singleton]%elem_of_app.
    + by apply (Hnew d'); [right|].
    + apply Hd, list_elem_of_fmap. by exists d'.
  - rewrite decide_False by (by intros [_ ?]).
    apply IH; [done|]. intros d' Hd'. apply Hnew. by right.
Qed.

Lemma named_names users w :
  (∀ x y, exact x y = true ↔ x = y) →
  ∀ user, user ∈ named users w → username user = w.
Proof. intros Hexact user [[?%Hexact _] _]%list_elem_of_filter. done. Qed.

Lemma named_NoDup users (words : list string) :
  (∀ x y, exact x y = true ↔ x = y) →
  NoDup (username <$> users) → NoDup words →
  NoDup (username <$> concat ((λ w, named users w) <$> words)).
Proof.
  intros Hexact Husers. induction 1 as [|w words Hw Hwords IH]; simpl; [constructor|].
  rewrite fmap_app. apply NoDup_app. split; [|split; [|done]].
  - apply (NoDup_fmap_2_strong username).
    + intros x y Hx%list_elem_of_filter Hy%list_elem_of_filter Heq.
      destruct Hx as [_ Hx], Hy as [_ Hy]. clear -Husers Hx Hy Heq.
      induction users as [|z users IH]; [by apply elem_of_nil in Hx|].
      simpl in Husers. apply NoDup_cons in Husers as [Hz Husers].
      apply elem_of_cons in Hx as [->|Hx], Hy as [->|Hy]; auto.
      * exfalso. apply Hz, list_elem_of_fmap. by exists y.
      * exfalso. apply Hz, list_elem_of_fmap. by exists x.
    + apply NoDup_filter. by apply (NoDup_fmap_1 username).
  - intros name (user & -> & Huser)%list_elem_of_fmap
      (user' & Heq & Huser')%list_elem_of_fmap.
    apply (named_names users w Hexact) in Huser.
    apply elem_of_concat_list in Huser' as (l & Hl & Huser').
    apply list_elem_of_fmap in Hl as (w' & -> & Hw').
    apply (named_names users w' Hexact) in Huser'. congruence.
Qed.

Lemma filter_named exclude users (words : list string) :
  (∀ x y, exact x y = true ↔ x = y) →
  filter (λ d, name_of d ∉ Some <$> exclude)
         (user_dict <$> concat ((λ w, named users w) <$> words))
  = user_dict
      <$> concat ((λ w, named users w) <$> filter (λ w, w ∉ exclude) words).
Proof.
  intros Hexact. induction words as [|w words IH]; [done|].
  rewrite fmap_cons, concat_cons, fmap_app, filter_app, IH, filter_cons.
  assert (∀ user, user ∈ named users w →
            name_of (user_dict user) ∉ Some <$> exclude ↔ w ∉ exclude) as Hblock.
  { intros user Huser%(named_names users w Hexact).
    rewrite name_of_user_dict, Huser. split; intros Hnot Hin; apply Hnot.
    - apply list_elem_of_fmap. by exists w.
    - by apply list_elem_of_fmap in Hin as (? & [= <-] & ?). }
  destruct (decide (w ∉ exclude)) as [Hw|Hw].
  - rewrite fmap_cons, concat_cons, fmap_app. f_equal.
    induction (named users w) as [|user l IHl]; [done|].
    rewrite fmap_cons, filter_cons, decide_True by (apply Hblock; [left|done]).
    f_equal. apply IHl. intros user' ?. apply Hblock. by right.
  - assert (filter (λ d, name_of d ∉ Some <$> exclude) (user_dict <$> named users w)
            = []) as ->; [|done].
    induction (named users w) as [|user l IHl]; [done|].
    rewrite fmap_cons, filter_cons, decide_False by (rewrite Hblock; [done|left]).
    apply IHl. intros user' ?. apply Hblock. by right.
Qed.

(** A search for several usernames with the local search only, in a
    database that compares usernames exactly and keeps them unique: the
    matches are the active users whose username is one of the words of the
    search string and is not excluded, one for each such word, in the order
    of the sorted words. *)
Theorem local_username_search q search_by exclude users context :
  (∀ x y, exact x y = true ↔ x = y) →
  NoDup (username <$> users) →
  (1 < length (split q))%nat →
  CombinedUserSearch.search
    (CombinedUserSearch.USER_SEARCH_CLASSES
       (LocalUserSearch icontains exact users) [])
    (Some q) search_by exclude = Return context →
  CombinedUserSearch.matches context
  = user_dict
      <$> concat ((λ w, filter (λ user, username user = w ∧ is_active user = true)
                               users)
                    <$> filter (λ w, w ∉ exclude) (sorted_set (split q))).
Proof.
  intros Hexact Husers Hmany.
  unfold CombinedUserSearch.search, CombinedUserSearch.USER_SEARCH_CLASSES.
  simpl. unfold UserSearch.search. rewrite !decide_True by done. simpl.
  rewrite username_search_loop; last first.
  { intros w Hw. apply (proj1 (sorted_set_elem_of _ _)) in Hw.
    by apply split_from_nonempty in Hw. }
  simpl. rewrite add_users_distinct; [|..|by intros ? _ ?%elem_of_nil].
  - rewrite decide_True by done. intros [= <-]. simpl.
    rewrite (filter_named _ _ _ Hexact).
    f_equal. f_equal. apply list_fmap_ext. intros _ w _.
    apply list_filter_iff. intros user. by rewrite Hexact.
  - set (found := concat _).
    assert ((λ d, name_of d) <$> (user_dict <$> found)
            = Some <$> (username <$> found)) as ->.
    { rewrite <-!list_fmap_compose. by apply list_fmap_ext. }
    apply (NoDup_fmap_2 Some). apply (named_NoDup users _ Hexact Husers).
    unfold sorted_set. rewrite merge_sort_Permutation. apply NoDup_elements.
Qed.

End LocalSearch.

Section UserSearchExamplesFacts.
Import UserSearch LocalUserSearch CombinedUserSearch UserSearchExamples.

Lemma combined_search_matches_witness :
  ∃ context,
    CombinedUserSearch.search (USER_SEARCH_CLASSES local [local])
      (Some "carol dave alice bob") (Some "all_fields") ["carol"] = Return context
    ∧ NoDup ((λ d : dict, d !! "username") <$> matches context)
    ∧ matches context = [user_dict alice].
Proof.
  destruct (CombinedUserSearch.search (USER_SEARCH_CLASSES local [local])
              (Some "carol dave alice bob") (Some "all_fields") ["carol"])
    as [context|e] eqn:Hsearch.
  - exists context. split; [reflexivity|].
    destruct (combined_search_matches _ _ _ _ _ Hsearch) as (results & _ & Hnodup & _).
    split; [exact Hnodup|].
    vm_compute in Hsearch. injection Hsearch as <-. reflexivity.
  - vm_compute in Hsearch. discriminate Hsearch.
Defined.

Lemma combined_search_not_found_witness :
  ∃ context,
    CombinedUserSearch.search [local] (Some "carol dave alice bob dave")
      (Some "all_fields") ["carol"] = Return context
    ∧ number_of_usernames_searched context = Some 5%nat
    ∧ number_of_usernames_found context = Some 1%nat
    ∧ ∃ not_found, usernames_not_found context = Some not_found
                   ∧ ∀ v, v ∈ not_found ↔ v = Some "bob" ∨ v = Some "dave".
Proof.
  destruct (CombinedUserSearch.search [local] (Some "carol dave alice bob dave")
              (Some "all_fields") ["carol"]) as [context|e] eqn:Hsearch.
  - exists context. split; [reflexivity|].
    destruct (combined_search_not_found _ _ _ _ _ Hsearch) as (results & _ & Hfigures).
    rewrite decide_True in Hfigures by (vm_compute; lia).
    destruct Hfigures as (Hsearched & Hfound & not_found & Hnot_found & _ & _).
    pose proof Hsearch as Hvalue. vm_compute in Hvalue.
    injection Hvalue as Hvalue. subst context.
    split; [reflexivity|]. split; [reflexivity|].
    exists not_found. split; [exact Hnot_found|].
    injection Hnot_found as <-. intros v.
    rewrite !elem_of_cons, elem_of_nil. tauto.
  - vm_compute in Hsearch. discriminate Hsearch.
Defined.

Lemma combined_search_repeated_class_witness :
  local ∈ [local]
  ∧ CombinedUserSearch.search ([local] ++ local :: []) (Some "a") (Some "all_fields") []
    = CombinedUserSearch.search ([local] ++ []) (Some "a") (Some "all_fields") [].
Proof.
  assert (H : local ∈ [local]) by left.
  split; [exact H|].
  exact (combined_search_repeated_class [local] [] local (Some "a")
           (Some "all_fields") [] H).
Defined.

Lemma local_username_search_witness :
  (∀ x y, String.eqb x y = true ↔ x = y)
  ∧ NoDup (username <$> users)
  ∧ (1 < length (split "carol dave alice bob"))%nat
  ∧ ∃ context,
      CombinedUserSearch.search (USER_SEARCH_CLASSES local [])
        (Some "carol dave alice bob") (Some "all_fields") ["carol"]
      = Return context
      ∧ matches context = [user_dict alice].
Proof.
  assert (Hexact : ∀ x y, String.eqb x y = true ↔ x = y)
    by exact String.eqb_eq.
  assert (Hnodup : NoDup (username <$> users))
    by (apply (bool_decide_unpack _); by vm_compute).
  assert (Hmany : (1 < length (split "carol dave alice bob"))%nat)
    by (vm_compute; lia).
  split; [exact Hexact|]. split; [exact Hnodup|]. split; [exact Hmany|].
  destruct (CombinedUserSearch.search (USER_SEARCH_CLASSES local [])
              (Some "carol dave alice bob") (Some "all_fields") ["carol"])
    as [context|e] eqn:Hsearch.
  - exists context. split; [reflexivity|].
    rewrite (local_username_search contains String.eqb "carol dave alice bob"
               (Some "all_fields") ["carol"] users context Hexact Hnodup Hmany
               Hsearch).
    vm_compute. reflexivity.
  - vm_compute in Hsearch. discriminate Hsearch.
Defined.

End UserSearchExamplesFacts.

(** ** Usernames inferred from email addresses *)

Section InferUsernameSearch.
Import InferUsername.
Implicit Types (s b m a t rest : pystr) (c : ascii) (n k j : N).

Local Abbreviation all_digits m := (Forall (λ c, is_digit c = true) m).
Local Abbreviation no_digit_first t := (∀ c r, t = c :: r → is_digit c = false).
Local Abbreviation no_digit_last b := (∀ b' c, b = b' ++ [c] → is_digit c = false).
Local Abbreviation line_end a := (a = [] ∨ a = [newline]).

Lemma line_end_no_digit_first a : line_end a → no_digit_first a.
Proof. by intros [->| ->] c r [= <-]. Qed.

Lemma no_digit_last_cons c b : no_digit_last (c :: b) → b ≠ [] → no_digit_last b.
Proof. intros Hb _ b' c' ->. by apply (Hb (c :: b') c'). Qed.

Lemma no_digit_last_cons_2 c b : no_digit_last b → b ≠ [] → no_digit_last (c :: b).
Proof.
  intros Hb Hne b' c' Heq. destruct b' as [|c0 b'']; simplify_eq/=.
  by apply (Hb b'' c').
Qed.

Lemma digits_at_app m rest :
  all_digits m → no_digit_first rest → digits_at (m ++ rest) = (m, rest).
Proof.
  intros Hm Hrest. induction Hm as [|c m Hc _ IH]; simpl.
  - destruct rest as [|c r]; [done|]. simpl. by rewrite (Hrest c r).
  - by rewrite Hc, IH.
Qed.

Lemma digits_at_spec s m rest :
  digits_at s = (m, rest) → s = m ++ rest ∧ all_digits m ∧ no_digit_first rest.
Proof.
  revert m rest. induction s as [|c s IH]; intros m rest; simpl.
  { by intros [= <- <-]. }
  destruct (is_digit c) eqn:Hc.
  - destruct (digits_at s) as [m' rest'] eqn:Hs. intros [= <- <-].
    destruct (IH m' rest' eq_refl) as (-> & ? & ?). by repeat constructor.
  - intros [= <- <-]. split; [done|]. split; [constructor|]. by intros ?? [= <- <-].
Qed.

Lemma digits_at_rest b t :
  b ≠ [] → no_digit_last b → (length t < length (digits_at (b ++ t)).2)%nat.
Proof.
  induction b as [|c b IH]; intros Hne Hb; [done|]. simpl.
  destruct (is_digit c) eqn:Hc.
  - destruct (decide (b = [])) as [->|Hb'].
    { by rewrite (Hb [] c eq_refl) in Hc. }
    specialize (IH Hb' (no_digit_last_cons c b Hb Hb')).
    by destruct (digits_at (b ++ t)).
  - simpl. rewrite length_app. lia.
Qed.

Lemma match_here_app m a :
  m ≠ [] → all_digits m → line_end a → match_here (m ++ a) = Some (m, a).
Proof.
  intros Hne Hm Ha. unfold match_here.
  rewrite (digits_at_app m a Hm (line_end_no_digit_first a Ha)).
  by rewrite decide_True.
Qed.

Lemma match_here_None b t :
  b ≠ [] → no_digit_last b → t ≠ [] → match_here (b ++ t) = None.
Proof.
  intros Hne Hb Ht. unfold match_here.
  pose proof (digits_at_rest b t Hne Hb) as Hlen.
  destruct (digits_at (b ++ t)) as [m rest]. simpl in Hlen.
  rewrite decide_False; [done|]. intros [_ [->| ->]]; simpl in Hlen; [lia|].
  destruct t; [done|]. simpl in Hlen. lia.
Qed.

Lemma match_here_Some s m rest :
  match_here s = Some (m, rest) →
  s = m ++ rest ∧ m ≠ [] ∧ all_digits m ∧ line_end rest.
Proof.
  unfold match_here. destruct (digits_at s) as [m' rest'] eqn:Hs.
  destruct (decide _) as [[? ?]|]; [|done]. intros [= <- <-].
  by destruct (digits_at_spec s m' rest' Hs) as (? & ? & _).
Qed.

Lemma re_search_unfold s :
  re_search s
  = match match_here s with
    | Some (m, rest) => Some ([], m, rest)
    | None =>
        match s with
        | c :: s' => (λ '(before, m, rest), (c :: before, m, rest)) <$> re_search s'
        | [] => None
        end
    end.
Proof. by destruct s. Qed.

Lemma re_search_app b m a :
  no_digit_last b → m ≠ [] → all_digits m → line_end a →
  re_search (b ++ m ++ a) = Some (b, m, a).
Proof.
  intros Hb Hne Hm Ha. induction b as [|c b IH].
  - rewrite re_search_unfold. simpl. by rewrite match_here_app.
  - rewrite re_search_unfold, match_here_None; [|done|done|by destruct m].
    simpl.
    destruct (decide (b = [])) as [->|Hb'].
    + rewrite IH; [done|]. by intros [|??] ??.
    + by rewrite IH by (by apply (no_digit_last_cons c)).
Qed.

Lemma re_search_Some s b m a :
  re_search s = Some (b, m, a) →
  s = b ++ m ++ a ∧ no_digit_last b ∧ m ≠ [] ∧ all_digits m ∧ line_end a.
Proof.
  revert b. induction s as [|c s IH]; intros b.
  { intros Hs. by vm_compute in Hs. }
  rewrite re_search_unfold.
  destruct (match_here (c :: s)) as [[m0 rest]|] eqn:Hhere.
  - intros [= <- <- <-]. apply match_here_Some in Hhere as (? & ? & ? & ?).
    split; [done|]. split; [|done]. by intros [|??] ??.
  - destruct (re_search s) as [[[b0 m0] a0]|] eqn:Hs; [|done].
    intros [= <- <- <-]. destruct (IH b0 eq_refl) as (-> & Hb0 & Hne & Hm & Ha).
    split; [done|]. split; [|done].
    destruct (decide (b0 = [])) as [->|Hb0'].
    + intros b' c' Heq. destruct b' as [|? [|??]]; simplify_eq/=.
      destruct (is_digit c') eqn:Hc; [|done].
      change (c' :: m0 ++ a0) with ((c' :: m0) ++ a0) in Hhere.
      rewrite (match_here_app (c' :: m0) a0) in Hhere; [done|done| |done].
      by constructor.
    + by apply no_digit_last_cons_2.
Qed.

Lemma split_digits_last s :
  ∃ b m, s = b ++ m ∧ no_digit_last b ∧ all_digits m.
Proof.
  induction s as [|c s IH] using rev_ind.
  { exists [], []. split; [done|]. split; [by intros [|??] ??|constructor]. }
  destruct (is_digit c) eqn:Hc.
  - destruct IH as (b & m & -> & Hb & Hm). exists b, (m ++ [c]).
    rewrite (assoc_L (++)). split; [done|]. split; [done|].
    apply Forall_app. by repeat constructor.
  - exists (s ++ [c]), []. rewrite (right_id_L [] (++)). split; [done|].
    split; [|constructor]. by intros b' c' [-> ->]%app_inj_tail.
Qed.

Lemma re_search_None s : re_search s = None → no_digit_last s.
Proof.
  intros Hs. destruct (split_digits_last s) as (b & m & -> & Hb & Hm).
  destruct (decide (m = [])) as [->|Hne].
  { by rewrite (right_id_L [] (++)). }
  rewrite <-(right_id_L [] (++) m), re_search_app in Hs by auto. done.
Qed.

End InferUsernameSearch.

Section InferUsernameDecimal.
Import InferUsername.
Implicit Types (s b m a t rest : pystr) (c : ascii) (n k j : N) (d : Decimal.uint).

Local Abbreviation all_digits m := (Forall (λ c, is_digit c = true) m).

Lemma length_string_of_uint d :
  length (list_ascii_of_string (NilEmpty.string_of_uint d)) = Decimal.nb_digits d.
Proof. induction d; simpl; by f_equal. Qed.

Lemma all_digits_string_of_uint d :
  all_digits (list_ascii_of_string (NilEmpty.string_of_uint d)).
Proof. induction d; simpl; by constructor. Qed.

Lemma digits_value_digits m :
  all_digits m → m ≠ [] →
  ∃ d, NilEmpty.uint_of_string (string_of_list_ascii m) = Some d
       ∧ d ≠ Decimal.Nil ∧ Decimal.nb_digits d = length m.
Proof.
  intros Hm. induction Hm as [|c m Hc Hm IH]; intros Hne; [done|]. simpl.
  assert (∃ d, NilEmpty.uint_of_string (string_of_list_ascii m) = Some d
               ∧ Decimal.nb_digits d = length m) as (d & -> & <-).
  { destruct m as [|c' m']; [by exists Decimal.Nil|].
    destruct IH as (d & ? & _ & ?); [done|]. by exists d. }
  unfold is_digit in Hc. apply bool_decide_eq_true in Hc.
  unfold digits in Hc. rewrite !elem_of_cons, elem_of_nil in Hc.
  destruct Hc as [->|[->|[->|[->|[->|[->|[->|[->|[->|[->|[]]]]]]]]]]];
    simpl; eexists; (split; [done|]); by split.
Qed.

Lemma nb_digits_succ d :
  (Decimal.nb_digits (Decimal.Little.succ d) ≤ S (Decimal.nb_digits d))%nat.
Proof. induction d; simpl; lia. Qed.

Lemma length_decimal n : length (decimal n) = Decimal.nb_digits (DecimalPos.Unsigned.to_lu n).
Proof.
  unfold decimal. rewrite length_string_of_uint.
  destruct n as [|p]; [done|]. simpl. unfold Pos.to_uint.
  by rewrite DecimalFacts.nb_digits_rev.
Qed.

Lemma length_decimal_succ n : (length (decimal (n + 1)) ≤ S (length (decimal n)))%nat.
Proof.
  rewrite !length_decimal, N.add_1_r, DecimalPos.Unsigned.to_lu_succ.
  apply nb_digits_succ.
Qed.

Lemma decimal_digits n : all_digits (decimal n).
Proof. apply all_digits_string_of_uint. Qed.

Lemma decimal_ne n : decimal n ≠ [].
Proof.
  intros Heq. apply (f_equal length) in Heq. unfold decimal in Heq.
  rewrite length_string_of_uint in Heq. simpl in Heq.
  apply DecimalFacts.nb_digits_0 in Heq. destruct n as [|p]; [done|].
  by apply DecimalPos.Unsigned.to_uint_nonnil in Heq.
Qed.

Lemma digits_value_decimal n : digits_value (decimal n) = Some n.
Proof.
  unfold digits_value, decimal.
  rewrite string_of_list_ascii_of_string, NilEmpty.usu. simpl.
  by rewrite DecimalN.Unsigned.of_to.
Qed.

Lemma decimal_inj n k : decimal n = decimal k → n = k.
Proof.
  intros Heq. apply (f_equal digits_value) in Heq.
  rewrite !digits_value_decimal in Heq. by injection Heq.
Qed.

Lemma length_decimal_value m n :
  all_digits m → m ≠ [] → digits_value m = Some n →
  (length (decimal n) ≤ length m)%nat.
Proof.
  intros Hm Hne. unfold digits_value.
  destruct (digits_value_digits m Hm Hne) as (d & -> & Hd & <-). intros [= <-].
  unfold decimal. rewrite length_string_of_uint, DecimalN.Unsigned.to_of.
  by apply DecimalFacts.nb_digits_unorm.
Qed.

End InferUsernameDecimal.

Section InferUsernameNext.
Import InferUsername.
Variable max_str_digits : nat.
Implicit Types (s b m a t rest username : pystr) (c : ascii) (n k j : N)
  (used X : gset pystr).

Local Abbreviation all_digits m := (Forall (λ c, is_digit c = true) m).
Local Abbreviation no_digit_last b := (∀ b' c, b = b' ++ [c] → is_digit c = false).
Local Abbreviation line_end a := (a = [] ∨ a = [newline]).
Local Abbreviation fits len := (max_str_digits = 0 ∨ len ≤ max_str_digits)%nat.

Lemma over_limit_fits len : fits len → over_limit max_str_digits len = false.
Proof. intros Hfits. apply bool_decide_eq_false. lia. Qed.

Lemma int_digits m n :
  digits_value m = Some n → fits (length m) → int max_str_digits m = Value n.
Proof. intros Hm Hfits. unfold int. by rewrite Hm, over_limit_fits. Qed.

Lemma str_fits n : fits (length (decimal n)) → str max_str_digits n = Value (decimal n).
Proof. intros Hfits. unfold str. by rewrite over_limit_fits. Qed.

Lemma next_username_fuel_free fuel username used :
  username ∉ used →
  next_username_fuel max_str_digits fuel username used = Some (Value username).
Proof. intros Hfree. destruct fuel; simpl; by rewrite decide_False. Qed.

Lemma re_sub_app b m a repl :
  no_digit_last b → m ≠ [] → all_digits m → line_end a →
  re_sub repl (b ++ m ++ a) = b ++ repl ++ a.
Proof. intros. unfold re_sub. by rewrite re_search_app. Qed.

(** The loop of [next_username] once the username carries a number: it
    counts up to the first number whose name is free. [X] holds the names
    that are still to be tried. *)
Lemma numbered_loop b a used :
  no_digit_last b → line_end a →
  ∀ fuel k X,
    (∀ j, (k ≤ j)%N → b ++ decimal j ++ a ∈ used → b ++ decimal j ++ a ∈ X) →
    (size X ≤ fuel)%nat →
    fits (length (b ++ decimal k ++ a) + size X) →
    ∃ j, (k ≤ j)%N
         ∧ next_username_fuel max_str_digits fuel (b ++ decimal k ++ a) used
           = Some (Value (b ++ decimal j ++ a))
         ∧ (b ++ decimal j ++ a ∉ used)
         ∧ ∀ i, (k ≤ i < j)%N → b ++ decimal i ++ a ∈ used.
Proof.
  intros Hb Ha fuel. induction fuel as [|fuel IH]; intros k X HX Hsize Hfits.
  - exists k. split; [lia|]. assert (X = ∅) as -> by (apply leibniz_equiv, size_empty_inv; lia).
    assert (b ++ decimal k ++ a ∉ used) as Hfree.
    { intros Hin. by apply (HX k) in Hin; [|lia]. }
    split; [by apply next_username_fuel_free|]. split; [done|]. intros i. lia.
  - destruct (decide (b ++ decimal k ++ a ∈ used)) as [Hin|Hfree]; last first.
    { exists k. split; [lia|]. split; [by apply next_username_fuel_free|].
      split; [done|]. intros i. lia. }
    assert (b ++ decimal k ++ a ∈ X) as HinX by (apply (HX k); [lia|done]).
    assert (size X = S (size (X ∖ {[ b ++ decimal k ++ a ]}))) as HsizeX.
    { rewrite (union_difference_L {[ b ++ decimal k ++ a ]} X) at 1
        by set_solver.
      rewrite size_union by set_solver. by rewrite size_singleton. }
    rewrite !length_app in Hfits.
    pose proof (length_decimal_succ k) as Hsucc.
    simpl. rewrite decide_True by done.
    rewrite re_search_app by auto using decimal_ne, decimal_digits.
    rewrite (int_digits (decimal k) k) by (apply digits_value_decimal || lia).
    rewrite str_fits by lia.
    rewrite re_sub_app by auto using decimal_ne, decimal_digits.
    destruct (IH (k + 1)%N (X ∖ {[ b ++ decimal k ++ a ]})) as (j & Hj & Hrun & Hfree & Hused).
    + intros j Hj Hinj. apply elem_of_difference. split; [apply HX; [lia|done]|].
      rewrite elem_of_singleton. intros Heq%app_inv_head%app_inv_tail%decimal_inj.
      lia.
    + lia.
    + rewrite !length_app. lia.
    + exists j. split; [lia|]. split; [done|]. split; [done|].
      intros i Hi. destruct (decide (i = k)) as [->|]; [done|]. apply Hused. lia.
Qed.

(** The loop ends whatever the limit is: a conversion over the limit raises
    [ValueError]. *)
Lemma numbered_loop_ends b a used :
  no_digit_last b → line_end a →
  ∀ fuel k X,
    (∀ j, (k ≤ j)%N → b ++ decimal j ++ a ∈ used → b ++ decimal j ++ a ∈ X) →
    (size X ≤ fuel)%nat →
    ∃ r, next_username_fuel max_str_digits fuel (b ++ decimal k ++ a) used = Some r.
Proof.
  intros Hb Ha fuel. induction fuel as [|fuel IH]; intros k X HX Hsize.
  - assert (X = ∅) as -> by (apply leibniz_equiv, size_empty_inv; lia).
    assert (b ++ decimal k ++ a ∉ used) as Hfree.
    { intros Hin. by apply (HX k) in Hin; [|lia]. }
    eexists. by apply next_username_fuel_free.
  - destruct (decide (b ++ decimal k ++ a ∈ used)) as [Hin|Hfree]; last first.
    { eexists. by apply next_username_fuel_free. }
    assert (b ++ decimal k ++ a ∈ X) as HinX by (apply (HX k); [lia|done]).
    assert (size X = S (size (X ∖ {[ b ++ decimal k ++ a ]}))) as HsizeX.
    { rewrite (union_difference_L {[ b ++ decimal k ++ a ]} X) at 1
        by set_solver.
      rewrite size_union by set_solver. by rewrite size_singleton. }
    simpl. rewrite decide_True by done.
    rewrite re_search_app by auto using decimal_ne, decimal_digits.
    unfold int, str. rewrite digits_value_decimal.
    destruct (over_limit _ _); [by eauto|].
    destruct (over_limit _ _); [by eauto|].
    rewrite re_sub_app by auto using decimal_ne, decimal_digits.
    apply (IH (k + 1)%N (X ∖ {[ b ++ decimal k ++ a ]})); [|lia].
    intros j Hj Hinj. apply elem_of_difference. split; [apply HX; [lia|done]|].
    rewrite elem_of_singleton. intros Heq%app_inv_head%app_inv_tail%decimal_inj.
    lia.
Qed.

Lemma next_username_ends username used :
  ∃ r, next_username max_str_digits username used = Some r.
Proof.
  unfold next_username.
  destruct (decide (username ∈ used)) as [Hin|Hfree]; last first.
  { eexists. by apply next_username_fuel_free. }
  assert (size used = S (size (used ∖ {[ username ]}))) as Hsize.
  { rewrite (union_difference_L {[ username ]} used) at 1 by set_solver.
    rewrite size_union by set_solver. by rewrite size_singleton. }
  rewrite Hsize. simpl. rewrite decide_True by done.
  destruct (re_search username) as [[[b m] a]|] eqn:Hsearch.
  - pose proof Hsearch as (Heq & Hb & Hne & Hm & Ha)%re_search_Some.
    destruct (digits_value_digits m Hm Hne) as (d & Hd & _ & _).
    unfold int, str, digits_value. rewrite Hd. simpl.
    destruct (over_limit _ _); [by eauto|].
    destruct (over_limit _ _); [by eauto|].
    assert (re_sub (decimal (N.of_uint d + 1)) username
            = b ++ decimal (N.of_uint d + 1) ++ a) as ->.
    { rewrite Heq at 1. by apply re_sub_app. }
    apply (numbered_loop_ends b a used Hb Ha _ _ (used ∖ {[ username ]})); [|done].
    intros j Hj Hinj. apply elem_of_difference. split; [done|].
    rewrite elem_of_singleton, Heq. intros Hdec%app_inv_head%app_inv_tail.
    assert (digits_value m = Some (N.of_uint d)) as Hvalue
      by (unfold digits_value; by rewrite Hd).
    rewrite <-Hdec, digits_value_decimal in Hvalue. injection Hvalue. lia.
  - pose proof (re_search_None username Hsearch) as Hlast.
    destruct (numbered_loop_ends username [] used Hlast (or_introl eq_refl)
                (size (used ∖ {[ username ]})) 0%N (used ∖ {[ username ]}))
      as [r Hrun]; [|done|].
    + intros j Hj Hinj. apply elem_of_difference. split; [done|].
      rewrite elem_of_singleton. intros Heq%(f_equal length).
      rewrite !length_app in Heq. pose proof (decimal_ne j).
      destruct (decimal j); simpl in *; [done|lia].
    + setoid_rewrite (right_id_L [] (++)) in Hrun. by exists r.
Qed.

(** What [next_username] returns when no conversion goes over the limit. *)
Lemma next_username_spec username used :
  (max_str_digits = 0 ∨ length username + size used ≤ max_str_digits)%nat →
  ∃ u,
    next_username max_str_digits username used = Some (Value u)
    ∧ (u ∉ used)
    ∧ (username ∉ used → u = username)
    ∧ (username ∈ used →
       ∃ j, (first_number username ≤ j)%N
            ∧ u = numbered username j
            ∧ ∀ i, (first_number username ≤ i < j)%N →
                   numbered username i ∈ used).
Proof.
  intros Hfits. unfold next_username.
  destruct (decide (username ∈ used)) as [Hin|Hfree]; last first.
  { exists username. by rewrite next_username_fuel_free. }
  assert (size used = S (size (used ∖ {[ username ]}))) as Hsize.
  { rewrite (union_difference_L {[ username ]} used) at 1 by set_solver.
    rewrite size_union by set_solver. by rewrite size_singleton. }
  rewrite Hsize. simpl. rewrite decide_True by done.
  unfold numbered, first_number.
  destruct (re_search username) as [[[b m] a]|] eqn:Hsearch.
  - apply re_search_Some in Hsearch as (Heq & Hb & Hne & Hm & Ha).
    destruct (digits_value_digits m Hm Hne) as (d & Hd & _ & _).
    assert (digits_value m = Some (N.of_uint d)) as Hvalue
      by (unfold digits_value; by rewrite Hd).
    pose proof (length_decimal_value m _ Hm Hne Hvalue) as Hlen.
    pose proof (length_decimal_succ (N.of_uint d)) as Hsucc.
    pose proof (f_equal length Heq) as Hlength. rewrite !length_app in Hlength.
    rewrite (int_digits m _ Hvalue) by lia. rewrite str_fits by lia.
    assert (re_sub (decimal (N.of_uint d + 1)) username
            = b ++ decimal (N.of_uint d + 1) ++ a) as ->.
    { rewrite Heq at 1. by apply re_sub_app. }
    destruct (numbered_loop b a used Hb Ha (size (used ∖ {[ username ]}))
                (N.of_uint d + 1)%N (used ∖ {[ username ]}))
      as (j & Hj & Hrun & Hfree & Hused).
    + intros j Hj Hinj. apply elem_of_difference. split; [done|].
      rewrite elem_of_singleton, Heq.
      intros Hdec%app_inv_head%app_inv_tail.
      rewrite <-Hdec, digits_value_decimal in Hvalue. injection Hvalue. lia.
    + done.
    + rewrite !length_app. lia.
    + exists (b ++ decimal j ++ a). split; [done|]. split; [done|].
      split; [done|]. intros _. rewrite Hvalue. simpl. by exists j.
  - pose proof (re_search_None username Hsearch) as Hlast.
    destruct (numbered_loop username [] used Hlast (or_introl eq_refl)
                (size (used ∖ {[ username ]})) 0%N (used ∖ {[ username ]}))
      as (j & Hj & Hrun & Hfree & Hused).
    + intros j Hj Hinj. apply elem_of_difference. split; [done|].
      rewrite elem_of_singleton. intros Heq%(f_equal length).
      rewrite !length_app in Heq. pose proof (decimal_ne j).
      destruct (decimal j); simpl in *; [done|lia].
    + done.
    + rewrite !length_app. simpl. lia.
    + setoid_rewrite (right_id_L [] (++)) in Hrun.
      setoid_rewrite (right_id_L [] (++)) in Hfree.
      setoid_rewrite (right_id_L [] (++)) in Hused.
      exists (username ++ decimal j). split; [done|]. split; [done|].
      split; [done|]. intros _. by exists j.
Qed.

(** The loop of [next_username] always ends, within as many rounds as there
    are used names: with a name, or with the [ValueError] of a conversion
    between [int] and [str] over the limit of the interpreter. When the
    length of the username and the number of used names together stay within
    that limit, it ends without an error, on a name that is not used: the
    username itself when it is free, and otherwise the first free name in
    the sequence in which the number that ends the username (before a final
    newline, if there is one) counts up from its successor, or in which 0,
    1, 2, ... is appended when the username ends in no number. *)
Theorem next_username_first_free username used :
  (∃ r, next_username max_str_digits username used = Some r)
  ∧ ((max_str_digits = 0 ∨ length username + size used ≤ max_str_digits)%nat →
     ∃ u,
       next_username max_str_digits username used = Some (Value u)
       ∧ (u ∉ used)
       ∧ (username ∉ used → u = username)
       ∧ (username ∈ used →
          ∃ j, (first_number username ≤ j)%N
               ∧ u = numbered username j
               ∧ ∀ i, (first_number username ≤ i < j)%N →
                      numbered username i ∈ used)).
Proof.
  split.
  - apply next_username_ends.
  - apply next_username_spec.
Qed.

End InferUsernameNext.

Section InferUsernameContext.
Import InferUsername.
Variable max_str_digits : nat.
Implicit Types (username : pystr) (used : gset pystr) (user : User)
  (users : list User) (key_option : KeyOption) (context : list (key * pystr)).

(** The key [search] files a user under. *)
Local Abbreviation key_of key_option user :=
  (match key_option with
   | ID => KeyInt (user_pk user)
   | EMAIL => KeyStr (user_email user)
   | ORIGINAL_USERNAME => KeyStr (user_username user)
   end).

Lemma search_loop_unique key_option users used context :
  (max_str_digits = 0
   ∨ ∀ user, user ∈ users →
       length (split_at_0 (user_email user)) + size used + length users
       ≤ max_str_digits)%nat →
  ∃ entries,
    search_loop max_str_digits key_option true users (Some used) context
    = Some (Value (context ++ entries))
    ∧ entries.*1 = (λ user, key_of key_option user) <$> users
    ∧ NoDup entries.*2
    ∧ (∀ u, u ∈ entries.*2 → u ∉ used)
    ∧ ∀ i user entry,
        users !! i = Some user → entries !! i = Some entry →
        split_at_0 (user_email user) ∉ used →
        split_at_0 (user_email user) ∉ take i entries.*2 →
        entry.2 = split_at_0 (user_email user).
Proof.
  revert used context.
  induction users as [|user users IH]; intros used context Hfits.
  { exists []. simpl. rewrite (right_id_L [] (++)).
    split; [done|]. split; [done|]. split; [constructor|].
    split; [by intros ? ?%elem_of_nil|]. by intros i ?? ?. }
  set (username := split_at_0 (user_email user)).
  assert (∃ u,
    (if decide (username ∈ used) then next_username max_str_digits username used
     else Some (Value username)) = Some (Value u)
    ∧ (u ∉ used) ∧ (username ∉ used → u = username)) as (u & Hu & Hfree & Hfirst).
  { destruct (decide (username ∈ used)) as [Hin|Hout]; [|by exists username].
    destruct (next_username_spec max_str_digits username used)
      as (u & Hrun & ? & ? & _); [|by exists u].
    destruct Hfits as [?|Hfits]; [by left|right].
    specialize (Hfits user (list_elem_of_here _ _)). fold username in Hfits. lia. }
  destruct (IH (used ∪ {[ u ]})
              (context ++ [(key_of key_option user, u)]))
    as (entries & Hrun & Hkeys & Hnodup & Hfresh & Hchoice).
  { destruct Hfits as [?|Hfits]; [by left|right]. intros user' Hin.
    specialize (Hfits user' (list_elem_of_further _ _ _ Hin)).
    rewrite size_union, size_singleton by set_solver. simpl in Hfits. lia. }
  exists ((key_of key_option user, u) :: entries).
  split.
  { simpl. unfold search_body. simpl. fold username. rewrite Hu.
    destruct key_option; rewrite Hrun; by rewrite <-(assoc_L (++)). }
  split; [simpl; by f_equal|].
  split.
  { simpl. constructor; [|done]. intros Hin%Hfresh. set_solver. }
  split.
  { intros u' [->|Hin]%elem_of_cons; [done|]. apply Hfresh in Hin. set_solver. }
  intros [|i] user' entry Huser Hentry Hout Htake; simplify_eq/=.
  { by apply Hfirst. }
  apply (Hchoice i user' entry); [done|done| |].
  - apply not_elem_of_cons in Htake as [? ?]. set_solver.
  - by apply not_elem_of_cons in Htake as [? ?].
Qed.

Lemma search_loop_ends key_option (unique_names : bool) users
    (used_usernames : option (gset pystr)) context :
  ∃ r, search_loop max_str_digits key_option unique_names users
         used_usernames context = Some r.
Proof.
  revert used_usernames context.
  induction users as [|user users IH]; intros used_usernames context; simpl;
    [by eauto|].
  unfold search_body.
  destruct unique_names, used_usernames as [used|]; simpl; try by eauto.
  destruct (decide (split_at_0 (user_email user) ∈ used)); [|by eauto].
  destruct (next_username_ends max_str_digits (split_at_0 (user_email user)) used)
    as [[u|err] ->]; by eauto.
Qed.

(** [search] always ends. With [unique_names] it gives every user a username
    of its own, provided that the longest part of an email address before
    the first [@] and the number of users together stay within the limit of
    the interpreter on the digits of a conversion between [int] and [str]:
    the context has one entry for each user, in the order of the users and
    under the key the option asks for; no username occurs twice; and a user
    gets the part of the email address before the first [@] whenever no
    earlier entry has that username. *)
Theorem search_usernames_distinct users key_option :
  (∀ unique_names : bool,
     ∃ r, search max_str_digits users key_option unique_names = Some r)
  ∧ ((max_str_digits = 0
      ∨ ∀ user, user ∈ users →
          length (split_at_0 (user_email user)) + length users
          ≤ max_str_digits)%nat →
     ∃ context,
       search max_str_digits users key_option true = Some (Value context)
       ∧ context.*1 = (λ user, key_of key_option user) <$> users
       ∧ NoDup context.*2
       ∧ ∀ i user entry,
           users !! i = Some user → context !! i = Some entry →
           split_at_0 (user_email user) ∉ take i context.*2 →
           entry.2 = split_at_0 (user_email user)).
Proof.
  split; [intros unique_names; apply search_loop_ends|].
  intros Hfits. unfold search.
  destruct (search_loop_unique key_option users ∅ [])
    as (entries & Hrun & Hkeys & Hnodup & _ & Hchoice).
  { destruct Hfits as [?|Hfits]; [by left|right]. intros user Hin.
    specialize (Hfits user Hin). rewrite size_empty. lia. }
  exists entries. split; [done|]. split; [done|]. split; [done|].
  intros i user entry ???. by apply (Hchoice i user entry).
Qed.

(** Without [unique_names] the local variable [used_usernames] is never
    bound: [search] returns a context, which is empty, only when there is no
    user, and raises [UnboundLocalError] at the first user otherwise. *)
Theorem search_needs_unique_names users key_option :
  search max_str_digits users key_option false
  = Some (if decide (users = []) then Value [] else Error UnboundLocalError).
Proof. by destruct users. Qed.

End InferUsernameContext.

Section InferUsernameExamplesFacts.
Import InferUsername InferUsernameExamples.

Lemma next_username_first_free_witness :
  (4300 = 0 ∨ length alice9 + size ({[ alice9; alice10 ]} : gset pystr) ≤ 4300)%nat
  ∧ next_username 4300 alice9 {[ alice9; alice10 ]} = Some (Value alice11).
Proof.
  assert (H : (4300 = 0
               ∨ length alice9 + size ({[ alice9; alice10 ]} : gset pystr) ≤ 4300)%nat).
  { right. apply Nat.leb_le. vm_compute. reflexivity. }
  split; [exact H|].
  destruct (proj2 (next_username_first_free 4300 alice9 {[ alice9; alice10 ]}) H)
    as (u & Hrun & _).
  rewrite Hrun. vm_compute in Hrun. injection Hrun as <-. reflexivity.
Defined.

Lemma search_usernames_distinct_witness :
  (4300 = 0
   ∨ ∀ user, user ∈ three_users →
       length (split_at_0 (user_email user)) + length three_users ≤ 4300)%nat
  ∧ search 4300 three_users ID true
    = Some (Value [(KeyInt 1, alice); (KeyInt 2, alice0); (KeyInt 3, alice1)]).
Proof.
  assert (H : (4300 = 0
               ∨ ∀ user, user ∈ three_users →
                   length (split_at_0 (user_email user)) + length three_users
                   ≤ 4300)%nat).
  { right. intros user Hin. unfold three_users in Hin.
    rewrite !elem_of_cons, elem_of_nil in Hin.
    destruct Hin as [->|[->|[->|[]]]]; apply Nat.leb_le; vm_compute; reflexivity. }
  split; [exact H|].
  destruct (proj2 (search_usernames_distinct 4300 three_users ID) H)
    as (context & Hrun & _).
  rewrite Hrun. vm_compute in Hrun. injection Hrun as <-. reflexivity.
Defined.

End InferUsernameExamplesFacts.
